(** * Tealish: a shallow embedding of the compiler in [tealish/__init__.py]

    The development follows the source file top to bottom: Python strings,
    exceptions, the [TealishCompiler] object, [Scope], the [Node] classes with
    their [consume] (parse pass) and [visit]/[process] (generation pass)
    methods, and the driver [compile_program].  Theorems come after the
    definitions. *)

From stdpp Require Import gmap strings list fin_maps pretty relations.
From Stdlib Require Import ZArith Ascii Lia.

Set Warnings "-register-all".

(** ** Python strings

    A Python [str] is modelled as a Rocq [string]; characters are the 256
    values of [ascii]. *)
Module PyStr.

Definition code (c : ascii) : nat := nat_of_ascii c.

Definition between (lo hi : nat) (c : ascii) : bool :=
  (lo <=? code c)%nat && (code c <=? hi)%nat.

(** [str.isspace] on one character, which is also the class [\s] of [re]:
    TAB, LF, VT, FF, CR, the separators 28 to 31, and the space. *)
Definition isspace (c : ascii) : bool := between 9 13 c || between 28 32 c.

(** The class [\d] (ASCII part). *)
Definition isdigit (c : ascii) : bool := between 48 57 c.
Definition islower (c : ascii) : bool := between 97 122 c.
Definition isupper (c : ascii) : bool := between 65 90 c.
Definition isunderscore (c : ascii) : bool := (code c =? 95)%nat.

(** [[a-zA-Z0-9_]] and [[a-zA-Z_0-9]]. *)
Definition isword (c : ascii) : bool :=
  islower c || isupper c || isdigit c || isunderscore c.
(** [[a-z_]] *)
Definition islower_ (c : ascii) : bool := islower c || isunderscore c.
(** [[a-z_0-9]] *)
Definition islower_digit_ (c : ascii) : bool :=
  islower c || isunderscore c || isdigit c.

Fixpoint lstrip (s : string) : string :=
  match s with
  | String c s' => if isspace c then lstrip s' else s
  | EmptyString => EmptyString
  end.

Definition rstrip (s : string) : string := String.rev (lstrip (String.rev s)).

(** [s.strip()] *)
Definition strip (s : string) : string := rstrip (lstrip s).

(** [s.startswith(p)] *)
Definition startswith (s p : string) : bool := String.prefix p s.

(** [s[n:]] *)
Fixpoint drop (n : nat) (s : string) : string :=
  match n, s with
  | S n', String _ s' => drop n' s'
  | _, _ => s
  end.

(** [s[:n]] *)
Fixpoint take (n : nat) (s : string) : string :=
  match n, s with
  | S n', String c s' => String c (take n' s')
  | _, _ => EmptyString
  end.

(** [s.find(sub)]: the first index at which [sub] occurs. *)
Fixpoint find (sub s : string) : option nat :=
  if startswith s sub then Some 0%nat
  else match s with
       | String _ s' => S <$> find sub s'
       | EmptyString => None
       end.

(** [sub in s] *)
Definition contains (sub s : string) : bool :=
  match find sub s with Some _ => true | None => false end.

(** [s.split(c)] for a one-character separator: never an empty list. *)
Fixpoint split (sep : ascii) (s : string) : list string :=
  match s with
  | EmptyString => [EmptyString]
  | String c s' =>
      if Ascii.eqb c sep then EmptyString :: split sep s'
      else match split sep s' with
           | w :: ws => String c w :: ws
           | [] => [String c EmptyString]
           end
  end.

(** The longest prefix of [s] whose characters all satisfy [p], and the
    rest: how a greedy character-class star consumes its input. *)
Fixpoint span (p : ascii -> bool) (s : string) : string * string :=
  match s with
  | String c s' =>
      if p c then let '(a, b) := span p s' in (String c a, b)
      else (EmptyString, s)
  | EmptyString => (EmptyString, EmptyString)
  end.

Fixpoint all (p : ascii -> bool) (s : string) : bool :=
  match s with
  | String c s' => p c && all p s'
  | EmptyString => true
  end.

(** [sep.join(l)] and string repetition [s * n]. *)
Fixpoint concat (l : list string) : string :=
  match l with
  | [] => EmptyString
  | s :: l' => s +:+ concat l'
  end.

Fixpoint repeat (s : string) (n : nat) : string :=
  match n with
  | O => EmptyString
  | S n' => s +:+ repeat s n'
  end.

(** The double quote character, and a quoted string. *)
Definition dq : string := String (ascii_of_nat 34) EmptyString.
Definition quoted (s : string) : string := dq +:+ s +:+ dq.

(** [int(s)] for a string of decimal digits. *)
Definition digit_val (c : ascii) : nat := (code c - 48)%nat.
Definition int_of_digits (s : string) : nat :=
  let fix go (acc : nat) (s : string) : nat :=
    match s with
    | String c s' => go (10 * acc + digit_val c)%nat s'
    | EmptyString => acc
    end in
  go 0%nat s.

(** [str(n)] for a non-negative integer. *)
Definition of_nat (n : nat) : string := pretty n.

End PyStr.

(** ** Exceptions and results *)

(** The exception classes that the compiler raises or lets escape.  [str(e)]
    of each is its message. *)
Inductive Exn :=
| ParseError (msg : string)
| CompileError (msg : string)
| Exception (msg : string)
| AssertionError (msg : string)
| AttributeError (msg : string)
| TypeError (msg : string)
| IndexError (msg : string)
| KeyError (msg : string)
| NotImplementedError (msg : string).

Definition str_exn (e : Exn) : string :=
  match e with
  | ParseError m | CompileError m | Exception m | AssertionError m
  | AttributeError m | TypeError m | IndexError m | KeyError m
  | NotImplementedError m => m
  end.

(** [isinstance(e, ParseError)] and [isinstance(e, CompileError)]; every
    class above is a subclass of [Exception]. *)
Definition is_ParseError (e : Exn) : bool :=
  match e with ParseError _ => true | _ => false end.
Definition is_CompileError (e : Exn) : bool :=
  match e with CompileError _ => true | _ => false end.

(** The result of running a piece of Python: a value, a raised exception, or
    no result because the loop bound given to the model ran out. *)
Inductive Result (A : Type) :=
| Ok (a : A)
| Raise (e : Exn)
| Diverge.
Arguments Ok {A} a.
Arguments Raise {A} e.
Arguments Diverge {A}.

(** ** Stack types *)

Inductive StackType := st_int | st_bytes | st_any | st_none.

Global Instance StackType_eq_dec : EqDecision StackType.
Proof. solve_decision. Defined.

Definition StackType_value (t : StackType) : string :=
  match t with
  | st_int => "int" | st_bytes => "bytes" | st_any => "any" | st_none => "none"
  end.

(** The [type] attribute of a processed expression: one stack type, or a
    list of them for a multi-value result. *)
Inductive ExprType :=
| TOne (t : StackType)
| TMany (ts : list StackType).

(** ** Scopes *)

(** What the code reads from the [Func] node stored in [Scope.functions]. *)
Record FuncRef := {
  func_label : string;
  func_line : string;
  func_args : list (string * StackType);
  func_returns : list string
}.

Section Scopes.
(** The [value] attribute of a parsed [Literal] (module [expressions]). *)
Context {LitValue : Type}.

(** A [Scope] object.  [sc_parent] refers to another [Scope] object by its
    index in the heap of scopes of the compiler state.  [sc_blocks] keeps
    the [label] of the [Block] node it refers to. *)
Record Scope := {
  sc_parent : option nat;
  sc_slots : gmap string (nat * StackType);
  sc_slot_range : nat * nat;
  sc_consts : gmap string (StackType * LitValue);
  sc_blocks : gmap string string;
  sc_functions : gmap string FuncRef;
  sc_name : string
}.

(** [Scope.__init__]; [parent] is the parent's reference and the object it
    refers to. *)
Definition Scope_init (name : string) (parent : option (nat * Scope))
    (slot_range : option (nat * nat)) : Scope :=
  {| sc_parent := fst <$> parent;
     sc_slots := ∅;
     sc_slot_range := default (0, 200)%nat slot_range;
     sc_consts := ∅;
     sc_blocks := ∅;
     sc_functions := ∅;
     sc_name :=
       match parent with
       | Some (_, p) =>
           if decide (sc_name p = EmptyString) then name
           else sc_name p +:+ "__" +:+ name
       | None => name
       end |}.

(** The dictionary that [Node.get_scope] builds for the expression engine. *)
Record ScopeView := {
  v_slots : gmap string (nat * StackType);
  v_consts : gmap string (StackType * LitValue);
  v_blocks : gmap string string;
  v_functions : gmap string FuncRef
}.
End Scopes.
Arguments Scope : clear implicits.
Arguments ScopeView : clear implicits.

(** ** The expression engine

    The modules [expressions] and [utils] are imported by the compiler but are
    not part of it.  What the compiler uses of them is this interface:
    [Literal.parse] and [GenericExpression.parse] turn text into an expression
    object or raise; [process] resolves an expression against the dictionary
    of [Node.get_scope] and, when it does not raise, fixes the [type] of the
    expression and the lines that [teal()] returns; [minify_teal] returns the
    minified lines and its own line map. *)
Class Expressions := {
  LitValue : Type;
  Expr : Type;
  Literal_parse : string -> Result LitValue;
  GenericExpression_parse : string -> Result Expr;
  Expr_process : ScopeView LitValue -> Expr -> Result (ExprType * list string);
  minify_teal : list string -> list string * gmap nat nat
}.

Section Compiler.
Context `{Expressions}.

(** ** The compiler object *)

Record TealishCompiler := {
  source_lines : list string;
  output : list string;
  source_map : gmap nat nat;
  current_output_line : nat;
  level : Z;
  line_no : nat;
  conditional_count : nat;
  error_messages : gmap nat string;
  max_slot : nat;
  (** the heap of [Scope] objects, in creation order *)
  scopes : list (Scope LitValue)
}.

(** [TealishCompiler.__init__] *)
Definition TealishCompiler_init (lines : list string) : TealishCompiler :=
  {| source_lines := lines; output := []; source_map := ∅;
     current_output_line := 1; level := 0; line_no := 0;
     conditional_count := 0; error_messages := ∅; max_slot := 0;
     scopes := [] |}.

(** Code that mutates the compiler object and may raise. *)
Definition M (A : Type) : Type := TealishCompiler -> Result A * TealishCompiler.

Definition ret {A} (a : A) : M A := fun c => (Ok a, c).
Definition raise {A} (e : Exn) : M A := fun c => (Raise e, c).
Definition diverge {A} : M A := fun c => (Diverge, c).
Definition bind {A B} (m : M A) (k : A -> M B) : M B :=
  fun c =>
    match m c with
    | (Ok a, c') => k a c'
    | (Raise e, c') => (Raise e, c')
    | (Diverge, c') => (Diverge, c')
    end.
Definition get : M TealishCompiler := fun c => (Ok c, c).
Definition modify (f : TealishCompiler -> TealishCompiler) : M unit :=
  fun c => (Ok tt, f c).
Definition lift {A} (r : Result A) : M A := fun c => (r, c).

(** [try: m except Exception as e: h e] *)
Definition try_except {A} (m : M A) (h : Exn -> M A) : M A :=
  fun c =>
    match m c with
    | (Raise e, c') => h e c'
    | r => r
    end.

End Compiler.

Declare Scope py_scope.
Delimit Scope py_scope with py.
Notation "'let*' x ':=' m 'in' k" := (bind m (fun x => k))
  (at level 10, x pattern, m at level 100, k at level 200) : py_scope.
Notation "m ;; k" := (bind m (fun _ => k))
  (at level 100, k at level 200, right associativity) : py_scope.
Open Scope py_scope.

Section Methods.
Context `{Expressions}.

(** *** Updates of the attributes of the compiler object *)

Definition set_output (o : list string) (m : gmap nat nat) (n : nat)
    (c : TealishCompiler) : TealishCompiler :=
  {| source_lines := source_lines c; output := o; source_map := m;
     current_output_line := n; level := level c; line_no := line_no c;
     conditional_count := conditional_count c;
     error_messages := error_messages c; max_slot := max_slot c;
     scopes := scopes c |}.

Definition set_level (l : Z) (c : TealishCompiler) : TealishCompiler :=
  {| source_lines := source_lines c; output := output c;
     source_map := source_map c;
     current_output_line := current_output_line c; level := l;
     line_no := line_no c; conditional_count := conditional_count c;
     error_messages := error_messages c; max_slot := max_slot c;
     scopes := scopes c |}.

Definition set_line_no (n : nat) (c : TealishCompiler) : TealishCompiler :=
  {| source_lines := source_lines c; output := output c;
     source_map := source_map c;
     current_output_line := current_output_line c; level := level c;
     line_no := n; conditional_count := conditional_count c;
     error_messages := error_messages c; max_slot := max_slot c;
     scopes := scopes c |}.

Definition set_conditional_count (n : nat) (c : TealishCompiler)
    : TealishCompiler :=
  {| source_lines := source_lines c; output := output c;
     source_map := source_map c;
     current_output_line := current_output_line c; level := level c;
     line_no := line_no c; conditional_count := n;
     error_messages := error_messages c; max_slot := max_slot c;
     scopes := scopes c |}.

Definition set_error_messages (m : gmap nat string) (c : TealishCompiler)
    : TealishCompiler :=
  {| source_lines := source_lines c; output := output c;
     source_map := source_map c;
     current_output_line := current_output_line c; level := level c;
     line_no := line_no c; conditional_count := conditional_count c;
     error_messages := m; max_slot := max_slot c;
     scopes := scopes c |}.

Definition set_max_slot (n : nat) (c : TealishCompiler) : TealishCompiler :=
  {| source_lines := source_lines c; output := output c;
     source_map := source_map c;
     current_output_line := current_output_line c; level := level c;
     line_no := line_no c; conditional_count := conditional_count c;
     error_messages := error_messages c; max_slot := n;
     scopes := scopes c |}.

Definition set_scopes (h : list (Scope LitValue)) (c : TealishCompiler)
    : TealishCompiler :=
  {| source_lines := source_lines c; output := output c;
     source_map := source_map c;
     current_output_line := current_output_line c; level := level c;
     line_no := line_no c; conditional_count := conditional_count c;
     error_messages := error_messages c; max_slot := max_slot c;
     scopes := h |}.

(** *** [TealishCompiler.consume_line], [peek] and [write] *)

(** [None] is the value that the two methods return at the end of input. *)
Definition consume_line : M (option string) :=
  fun c =>
    match source_lines c !! line_no c with
    | Some l => (Ok (Some (PyStr.strip l)), set_line_no (S (line_no c)) c)
    | None => (Ok None, c)
    end.

Definition peek : M (option string) :=
  fun c => (Ok (PyStr.strip <$> source_lines c !! line_no c), c).

(** One turn of the loop of [write]. *)
Definition write_one (prefix : string) (line_no : nat) (c : TealishCompiler)
    (s : string) : TealishCompiler :=
  set_output (output c ++ [prefix +:+ s])
             (<[current_output_line c := line_no]> (source_map c))
             (S (current_output_line c)) c.

(** [compiler.write(lines, line_no)] with [lines] a list of strings. *)
Definition write_lines (lines : list string) (line_no : nat)
    (c : TealishCompiler) : TealishCompiler :=
  let prefix := PyStr.repeat "  " (Z.to_nat (level c)) in
  foldl (write_one prefix line_no) c lines.

Definition compiler_write (lines : list string) (line_no : nat) : M unit :=
  modify (write_lines lines line_no).

End Methods.

(** ** [Node]: the methods on scopes

    A node refers to its [current_scope] by the index of the [Scope] object
    in the heap; the methods below take that reference. *)
Section NodeScopes.
Context `{Expressions}.

(** [Node.get_scopes]: the scope and its ancestors, innermost first.  The
    loop follows [parent] references; [fuel] bounds its turns. *)
Fixpoint get_scopes_from (fuel : nat) (h : list (Scope LitValue)) (s : nat)
    : list (Scope LitValue) :=
  match fuel with
  | O => []
  | S fuel' =>
      match h !! s with
      | Some sc =>
          sc :: match sc_parent sc with
                | Some p => get_scopes_from fuel' h p
                | None => []
                end
      | None => []
      end
  end.

Definition get_scopes (c : TealishCompiler) (s : nat) : list (Scope LitValue) :=
  get_scopes_from (length (scopes c)) (scopes c) s.

(** [d.update(e)]: the entries of [e] replace those of [d]. *)
Definition dict_update {V} (d e : gmap string V) : gmap string V := e ∪ d.

(** [Node.get_slots], [get_blocks] and [get_scope]: one dictionary, updated
    with the dictionary of each scope of the chain in turn. *)
Definition get_slots (c : TealishCompiler) (s : nat)
    : gmap string (nat * StackType) :=
  foldl (fun d sc => dict_update d (sc_slots sc)) ∅ (get_scopes c s).

Definition get_blocks (c : TealishCompiler) (s : nat) : gmap string string :=
  foldl (fun d sc => dict_update d (sc_blocks sc)) ∅ (get_scopes c s).

Definition get_scope (c : TealishCompiler) (s : nat) : ScopeView LitValue :=
  foldl (fun v sc =>
           {| v_slots := dict_update (v_slots v) (sc_slots sc);
              v_consts := dict_update (v_consts v) (sc_consts sc);
              v_blocks := dict_update (v_blocks v) (sc_blocks sc);
              v_functions := dict_update (v_functions v) (sc_functions sc) |})
        {| v_slots := ∅; v_consts := ∅; v_blocks := ∅; v_functions := ∅ |}
        (get_scopes c s).

(** [Node.get_var]: [None] stands for the pair [(None, None)]. *)
Definition get_var (c : TealishCompiler) (s : nat) (name : string)
    : option (nat * StackType) :=
  get_slots c s !! name.

(** [Node.get_block]: [dict.get], so [None] when the name is unknown. *)
Definition get_block (c : TealishCompiler) (s : nat) (name : string)
    : option string :=
  get_blocks c s !! name.

(** [used_slots[slot] = True] *)
Definition mark_used (used : Result (list bool)) (slot : nat)
    : Result (list bool) :=
  match used with
  | Ok u =>
      if decide (slot < length u)%nat then Ok (<[slot := true]> u)
      else Raise (IndexError "list assignment index out of range")
  | r => r
  end.

(** The second loop of [find_slot], from index [i] on. *)
Fixpoint first_fit (used : list bool) (i lo hi : nat) : option nat :=
  match used with
  | [] => None
  | b :: used' =>
      if negb b && (lo <=? i)%nat && (i <=? hi)%nat then Some i
      else first_fit used' (S i) lo hi
  end.

(** [Node.find_slot] *)
Definition find_slot (c : TealishCompiler) (s : nat) : Result nat :=
  match scopes c !! s with
  | None => Raise (AttributeError "'NoneType' object has no attribute 'slot_range'")
  | Some sc =>
      let '(lo, hi) := sc_slot_range sc in
      let slots := get_slots c s in
      match foldl mark_used (Ok (replicate 255 false))
                  ((fun kv => fst (snd kv)) <$> map_to_list slots) with
      | Ok used =>
          match first_fit used 0 lo hi with
          | Some i => Ok i
          | None => Raise (Exception "No available slots!")
          end
      | Raise e => Raise e
      | Diverge => Diverge
      end
  end.

Definition set_slots (m : gmap string (nat * StackType)) (sc : Scope LitValue)
    : Scope LitValue :=
  {| sc_parent := sc_parent sc; sc_slots := m;
     sc_slot_range := sc_slot_range sc; sc_consts := sc_consts sc;
     sc_blocks := sc_blocks sc; sc_functions := sc_functions sc;
     sc_name := sc_name sc |}.

Definition set_consts (m : gmap string (StackType * LitValue))
    (sc : Scope LitValue) : Scope LitValue :=
  {| sc_parent := sc_parent sc; sc_slots := sc_slots sc;
     sc_slot_range := sc_slot_range sc; sc_consts := m;
     sc_blocks := sc_blocks sc; sc_functions := sc_functions sc;
     sc_name := sc_name sc |}.

Definition set_blocks (m : gmap string string) (sc : Scope LitValue)
    : Scope LitValue :=
  {| sc_parent := sc_parent sc; sc_slots := sc_slots sc;
     sc_slot_range := sc_slot_range sc; sc_consts := sc_consts sc;
     sc_blocks := m; sc_functions := sc_functions sc;
     sc_name := sc_name sc |}.

Definition set_functions (m : gmap string FuncRef) (sc : Scope LitValue)
    : Scope LitValue :=
  {| sc_parent := sc_parent sc; sc_slots := sc_slots sc;
     sc_slot_range := sc_slot_range sc; sc_consts := sc_consts sc;
     sc_blocks := sc_blocks sc; sc_functions := m;
     sc_name := sc_name sc |}.

(** In-place change of the [Scope] object that [s] refers to. *)
Definition update_scope (s : nat) (f : Scope LitValue -> Scope LitValue)
    (c : TealishCompiler) : TealishCompiler :=
  match scopes c !! s with
  | Some sc => set_scopes (<[s := f sc]> (scopes c)) c
  | None => c
  end.

(** [scope.blocks[name] = self] in [Block.__init__],
    [scope.functions[name] = self] in [Func.__init__] and
    [scope.consts[name] = (type, value)] in [Const.process]: plain
    assignments to the dictionary of the scope. *)
Definition register_block (s : nat) (name label : string) : M unit :=
  modify (update_scope s (fun sc => set_blocks (<[name := label]> (sc_blocks sc)) sc)).

Definition register_function (s : nat) (name : string) (f : FuncRef) : M unit :=
  modify (update_scope s
            (fun sc => set_functions (<[name := f]> (sc_functions sc)) sc)).

Definition register_const (s : nat) (name : string) (ty : StackType)
    (value : LitValue) : M unit :=
  modify (update_scope s
            (fun sc => set_consts (<[name := (ty, value)]> (sc_consts sc)) sc)).

(** [Node.declare_var] *)
Definition declare_var (s : nat) (name : string) (ty : StackType) : M nat :=
  fun c =>
    match get_var c s name with
    | Some _ =>
        (Raise (Exception ("Redefinition of variable " +:+ PyStr.quoted name)), c)
    | None =>
        match scopes c !! s with
        | None =>
            (Raise (AttributeError "'NoneType' object has no attribute 'name'"), c)
        | Some sc =>
            let slot :=
              if PyStr.contains "func__" (sc_name sc)
              then Ok (max_slot c + 1)%nat
              else find_slot c s in
            match slot with
            | Ok slot =>
                (Ok slot,
                 update_scope s (fun sc => set_slots (<[name := (slot, ty)]> (sc_slots sc)) sc)
                   (set_max_slot (Nat.max (max_slot c) slot) c))
            | Raise e => (Raise e, c)
            | Diverge => (Diverge, c)
            end
        end
    end.

(** [Node.del_var] *)
Definition del_var (s : nat) (name : string) : M unit :=
  modify (update_scope s (fun sc => set_slots (delete name (sc_slots sc)) sc)).

(** [Node.new_scope]: a new [Scope] object whose parent is the current scope
    of the parent node; the result is the reference to it. *)
Definition new_scope (name : string) (parent_scope : option nat)
    (slot_range : option (nat * nat)) : M nat :=
  fun c =>
    let parent :=
      p ← parent_scope; sc ← scopes c !! p; Some (p, sc) in
    (Ok (length (scopes c)),
     set_scopes (scopes c ++ [Scope_init name parent slot_range]) c).

End NodeScopes.

(** ** The patterns of the node classes

    Each class has a regular expression [pattern] that [Node.__init__] matches
    against the line with [re.match]; the functions below decide the match
    and return the named groups.  Lines are stripped, so [$] is the end of
    the string; [.] is any character but the line feed. *)
Module Pattern.
Import PyStr.

Definition is_nl (c : ascii) : bool := (code c =? 10)%nat.
Definition dot (c : ascii) : bool := negb (is_nl c).

(** [s] is matched to its end by [.*$]. *)
Definition dots (s : string) : bool := all dot s.

(** What a greedy [.*] can reach: the text before the first line feed. *)
Definition segment (s : string) : string := fst (span dot s).

Definition strip_prefix (p s : string) : option string :=
  if startswith s p then Some (drop (String.length p) s) else None.

Definition strip_suffix (p s : string) : option string :=
  String.rev <$> strip_prefix (String.rev p) (String.rev s).

(** [s.rfind(sub)] *)
Fixpoint rfind (sub s : string) : option nat :=
  match s with
  | String _ s' =>
      match rfind sub s' with
      | Some i => Some (S i)
      | None => if startswith s sub then Some 0%nat else None
      end
  | EmptyString => if startswith s sub then Some 0%nat else None
  end.

Definition nonempty (s : string) : bool :=
  match s with EmptyString => false | _ => true end.

(** An identifier [first rest*] at the start of [s], and what follows. *)
Definition ident (first rest : ascii -> bool) (s : string)
    : option (string * string) :=
  match s with
  | String c s' =>
      if first c then let '(a, b) := span rest s' in Some (String c a, b)
      else None
  | EmptyString => None
  end.

(** [((?P<modifier>not) )?] *)
Definition modifier (s : string) : option string * string :=
  match strip_prefix "not " s with
  | Some r => (Some "not", r)
  | None => (None, s)
  end.

Definition TealVersion : string := "#pragma version (?P<version>\d+)$".
Definition match_TealVersion (l : string) : option string :=
  r ← strip_prefix "#pragma version " l;
  if nonempty r && all isdigit r then Some r else None.

Definition Comment : string := "#\s*(?P<comment>.*)$".
Definition match_Comment (l : string) : option string :=
  r ← strip_prefix "#" l;
  let rest := snd (span isspace r) in
  if dots rest then Some rest else None.

Definition Const : string :=
  "const (?P<type>\bint\b|\bbytes\b) (?P<name>[A-Z][a-zA-Z0-9_]*) = (?P<expression>.*)$".
Definition match_Const (l : string) : option (StackType * string * string) :=
  r ← strip_prefix "const " l;
  '(ty, r1) ← match strip_prefix "int" r with
              | Some r1 => Some (st_int, r1)
              | None => pair st_bytes <$> strip_prefix "bytes" r
              end;
  r2 ← strip_prefix " " r1;
  '(name, r3) ← ident isupper isword r2;
  e ← strip_prefix " = " r3;
  if dots e then Some (ty, name, e) else None.

Definition Jump : string := "jump (?P<block_name>.*)$".
Definition match_Jump (l : string) : option string :=
  r ← strip_prefix "jump " l;
  if dots r then Some r else None.

Definition Exit : string := "exit\((?P<expression>.*)\)$".
Definition match_Exit (l : string) : option string :=
  r ← strip_prefix "exit(" l;
  e ← strip_suffix ")" r;
  if dots e then Some e else None.

Definition FunctionCall : string := "(?P<expression>[a-zA-Z_0-9]+\(.*\))$".
Definition match_FunctionCall (l : string) : option string :=
  let '(w, r) := span isword l in
  r1 ← strip_prefix "(" r;
  e ← strip_suffix ")" r1;
  if nonempty w && dots e then Some l else None.

(** The last test of [LineStatement.consume]: a word, an opening
    parenthesis and, later on the same line, a closing one. *)
Definition looks_like_call (l : string) : bool :=
  let '(w, r) := span isword l in
  match strip_prefix "(" r with
  | Some r1 => nonempty w && contains ")" (segment r1)
  | None => false
  end.

Definition Assert : string :=
  "assert\((?P<arg>.*?)(, " +:+ dq +:+ "(?P<message>.*?)" +:+ dq +:+ ")?\)$".
(** What follows the lazy group [arg]: the optional message and the closing
    parenthesis, to the end of the line. *)
Definition Assert_tail (r : string) : option (option string) :=
  match (r1 ← strip_prefix (", " +:+ dq) r; strip_suffix (dq +:+ ")") r1) with
  | Some m => if dots m then Some (Some m) else
              if String.eqb r ")" then Some None else None
  | None => if String.eqb r ")" then Some None else None
  end.
Fixpoint Assert_arg (r : string) : option (string * option string) :=
  match Assert_tail r with
  | Some m => Some (EmptyString, m)
  | None =>
      match r with
      | String c r' =>
          if dot c then
            '(a, m) ← Assert_arg r'; Some (String c a, m)
          else None
      | EmptyString => None
      end
  end.
Definition match_Assert (l : string) : option (string * option string) :=
  r ← strip_prefix "assert(" l; Assert_arg r.

Definition BytesDeclaration : string :=
  "bytes (?P<name>[a-z][a-zA-Z0-9_]*)( = (?P<expression>.*))?$".
Definition IntDeclaration : string :=
  "int (?P<name>[a-z][a-zA-Z0-9_]*)( = (?P<expression>.*))?$".
Definition match_Declaration (kw l : string) : option (string * option string) :=
  r ← strip_prefix kw l;
  '(name, r1) ← ident islower isword r;
  match strip_prefix " = " r1 with
  | Some e => if dots e then Some (name, Some e) else None
  | None => if nonempty r1 then None else Some (name, None)
  end.

Definition Assignment : string :=
  "(?P<names>([a-z_][a-zA-Z0-9_]*,?\s*)+) = (?P<expression>.*)$".
(** The language of the group [names], read left to right: one or more
    identifiers, each followed by an optional comma and optional spaces.
    [names_from] reads after a character of an identifier, [names_sep]
    after a comma or a space, where only a space or the first character
    of an identifier may follow. *)
Fixpoint names_from (s : string) : bool :=
  match s with
  | EmptyString => true
  | String c s' =>
      if isword c then names_from s'
      else if (code c =? 44)%nat then names_sep s'
      else if isspace c then names_sep s'
      else false
  end
with names_sep (s : string) : bool :=
  match s with
  | EmptyString => true
  | String c s' =>
      if islower_ c then names_from s'
      else if isspace c then names_sep s'
      else false
  end.
Definition names_ok (s : string) : bool :=
  match s with
  | String c s' => islower_ c && names_from s'
  | EmptyString => false
  end.
Definition match_Assignment (l : string) : option (string * string) :=
  p ← find " = " l;
  let names := take p l in
  let e := drop (p + 3) l in
  if names_ok names && dots e then Some (names, e) else None.

Definition Block : string := "block (?P<name>[a-zA-Z_0-9]+):$".
Definition match_Block (l : string) : option string :=
  r ← strip_prefix "block " l;
  let '(name, r1) := span isword r in
  if nonempty name && String.eqb r1 ":" then Some name else None.

Definition SwitchOption : string := "(?P<expression>.*): (?P<block_name>.*)".
Definition match_SwitchOption (l : string) : option (string * string) :=
  let seg := segment l in
  p ← rfind ": " seg;
  Some (take p seg, drop (p + 2) seg).

Definition SwitchElse : string := "else: (?P<block_name>.*)".
Definition match_SwitchElse (l : string) : option string :=
  segment <$> strip_prefix "else: " l.

Definition Switch : string := "switch (?P<expression>.*):$".
Definition match_Switch (l : string) : option string :=
  r ← strip_prefix "switch " l;
  e ← strip_suffix ":" r;
  if dots e then Some e else None.

Definition InnerTxnFieldSetter : string :=
  "(?P<field_name>.*?)(\[(?P<index>\d\d?)\])?: (?P<expression>.*)".
(** What follows the lazy group [field_name]: the optional index in
    brackets, of two digits or else of one, then a colon and a space. *)
Definition FieldSetter_index (r : string) : option (string * string) :=
  match r with
  | String b (String d1 (String d2 (String e r')))  =>
      if (code b =? 91)%nat && isdigit d1 && isdigit d2 && (code e =? 93)%nat
      then pair (String d1 (String d2 EmptyString)) <$> strip_prefix ": " r'
      else if (code b =? 91)%nat && isdigit d1 && (code d2 =? 93)%nat
      then pair (String d1 EmptyString) <$> strip_prefix ": " (String e r')
      else None
  | _ => None
  end.
Definition FieldSetter_tail (r : string) : option (option string * string) :=
  match FieldSetter_index r with
  | Some (i, e) => Some (Some i, segment e)
  | None => (fun e => (None, segment e)) <$> strip_prefix ": " r
  end.
Fixpoint FieldSetter_name (r : string)
    : option (string * option string * string) :=
  match FieldSetter_tail r with
  | Some (i, e) => Some (EmptyString, i, e)
  | None =>
      match r with
      | String c r' =>
          if dot c then
            '(n, i, e) ← FieldSetter_name r'; Some (String c n, i, e)
          else None
      | EmptyString => None
      end
  end.
Definition match_InnerTxnFieldSetter (l : string)
    : option (string * option string * string) :=
  FieldSetter_name l.

Definition Elif : string := "elif ((?P<modifier>not) )?(?P<condition>.*):".
Definition match_Elif (l : string) : option (option string * string) :=
  r ← strip_prefix "elif " l;
  let '(m, r1) := modifier r in
  let seg := segment r1 in
  p ← rfind ":" seg;
  Some (m, take p seg).

Definition Else : string := "else:".
Definition match_Else (l : string) : option unit :=
  if startswith l "else:" then Some tt else None.

Definition IfStatement : string := "if ((?P<modifier>not) )?(?P<condition>.*):$".
Definition WhileStatement : string :=
  "while ((?P<modifier>not) )?(?P<condition>.*):$".
Definition match_Conditional (kw l : string)
    : option (option string * string) :=
  r ← strip_prefix kw l;
  let '(m, r1) := modifier r in
  e ← strip_suffix ":" r1;
  if dots e then Some (m, e) else None.

Definition Break : string := "break$".
Definition match_Break (l : string) : option unit :=
  if String.eqb l "break" then Some tt else None.

Definition ForStatement : string :=
  "for (?P<var>[a-z_][a-zA-Z0-9_]*) in (?P<start>[a-zA-Z0-9_]+):(?P<end>[a-zA-Z0-9_]+):$".
Definition match_ForStatement (l : string)
    : option (string * string * string) :=
  r ← strip_prefix "for " l;
  '(var, r1) ← ident islower_ isword r;
  r2 ← strip_prefix " in " r1;
  let '(start, r3) := span isword r2 in
  r4 ← strip_prefix ":" r3;
  let '(stop, r5) := span isword r4 in
  if nonempty start && nonempty stop && String.eqb r5 ":"
  then Some (var, start, stop) else None.

Definition Func : string :=
  "func (?P<name>[a-zA-Z_0-9]+)\((?P<args>.*)\)(?P<returns>.*):$".
Definition match_Func (l : string) : option (string * string * string) :=
  r ← strip_prefix "func " l;
  let '(name, r1) := span isword r in
  r2 ← strip_prefix "(" r1;
  body ← strip_suffix ":" r2;
  p ← rfind ")" body;
  if nonempty name && dots body
  then Some (name, take p body, drop (p + 1) body) else None.

Definition Return : string := "return ?(?P<args>.*?)?$".
Definition match_Return (l : string) : option string :=
  r ← strip_prefix "return" l;
  let args := default r (strip_prefix " " r) in
  if dots args then Some args else None.

(** [re.findall(ArgsList.arg_pattern, s)]: the matches of a name, a colon,
    a space and [int] or [bytes], found from left to right without
    overlap. *)
Definition ArgsList_arg : string :=
  "(?P<arg_name>[a-z][a-z_0-9]*): (?P<arg_type>int|bytes)".
Definition match_arg (s : string) : option (string * StackType * string) :=
  '(name, r) ← ident islower islower_digit_ s;
  r1 ← strip_prefix ": " r;
  match strip_prefix "int" r1 with
  | Some r2 => Some (name, st_int, r2)
  | None => (fun r2 => (name, st_bytes, r2)) <$> strip_prefix "bytes" r1
  end.
Fixpoint findall_args (fuel : nat) (s : string) : list (string * StackType) :=
  match fuel with
  | O => []
  | S fuel' =>
      match match_arg s with
      | Some (name, ty, r) => (name, ty) :: findall_args fuel' r
      | None =>
          match s with
          | String _ s' => findall_args fuel' s'
          | EmptyString => []
          end
      end
  end.
Definition ArgsList_args (s : string) : list (string * StackType) :=
  findall_args (S (String.length s)) s.

End Pattern.

(** ** The syntax tree *)
Section Tree.
Context `{Expressions}.

(** The attributes that every node has: the source line, its 1-based
    number, and the reference to the current scope. *)
Record NodeInfo := {
  n_line : string;
  n_line_no : nat;
  n_scope : nat
}.

(** The children of a [Switch]. *)
Inductive SwitchChild :=
| SwitchOption (i : NodeInfo) (expression : Expr) (block_name : string)
| SwitchElse (i : NodeInfo) (block_name : string).

(** The children of an [InnerTxn]; [index] is the text of the group. *)
Record InnerTxnFieldSetter := {
  fs_info : NodeInfo;
  fs_field_name : string;
  fs_index : option string;
  fs_expression : Expr
}.

(** The heads of the children of an [IfStatement], with the [label] that
    [add_if_then], [add_elif] and [add_else] give them. *)
Inductive ClauseHead :=
| IfThen (i : NodeInfo)
| Elif (i : NodeInfo) (condition : Expr) (modifier : option string)
       (label : string)
| Else (i : NodeInfo) (label : string).

(** The statements.  The classes without children come first; [nodes] are
    the children in the order of [add_child]. *)
Inductive Node :=
| TealVersion (i : NodeInfo) (version : string)
| Comment (i : NodeInfo) (comment : string)
| Blank (i : NodeInfo)
| Const (i : NodeInfo) (type : StackType) (name : string) (value : LitValue)
| Jump (i : NodeInfo) (block_name : string)
| Exit (i : NodeInfo) (expression : Expr)
| FunctionCall (i : NodeInfo) (expression : Expr)
| Assert (i : NodeInfo) (arg : Expr) (message : option string)
| BytesDeclaration (i : NodeInfo) (name : string) (expression : option Expr)
| IntDeclaration (i : NodeInfo) (name : string) (expression : option Expr)
| Assignment (i : NodeInfo) (names : string) (expression : Expr)
| Break (i : NodeInfo) (parent_loop_end_label : string)
| Return (i : NodeInfo) (args : string)
| Block (i : NodeInfo) (name label : string) (nodes : list Node)
| Switch (i : NodeInfo) (expression : Expr) (nodes : list SwitchChild)
| Teal (i : NodeInfo) (nodes : list NodeInfo)
| InnerTxn (i : NodeInfo) (nodes : list InnerTxnFieldSetter)
| InnerGroup (i : NodeInfo) (nodes : list Node)
| IfStatement (i : NodeInfo) (condition : Expr) (modifier : option string)
              (conditional_index : nat) (end_label : string)
              (nodes : list (ClauseHead * list Node))
| WhileStatement (i : NodeInfo) (condition : Expr) (modifier : option string)
                 (conditional_index : nat) (start_label end_label : string)
                 (nodes : list Node)
| ForStatement (i : NodeInfo) (var : string) (start stop : Expr)
               (conditional_index : nat) (start_label end_label : string)
               (nodes : list Node)
| Func (i : NodeInfo) (name : string) (args : list (string * StackType))
       (label : string) (nodes : list Node).

(** The root: [Program] has the statements of the unit as children. *)
Record Program := {
  p_info : NodeInfo;
  p_nodes : list Node
}.

(** [repr(node)]: the name of the class. *)
Definition class_name (n : Node) : string :=
  match n with
  | TealVersion _ _ => "TealVersion" | Comment _ _ => "Comment"
  | Blank _ => "Blank" | Const _ _ _ _ => "Const" | Jump _ _ => "Jump"
  | Exit _ _ => "Exit" | FunctionCall _ _ => "FunctionCall"
  | Assert _ _ _ => "Assert" | BytesDeclaration _ _ _ => "BytesDeclaration"
  | IntDeclaration _ _ _ => "IntDeclaration" | Assignment _ _ _ => "Assignment"
  | Break _ _ => "Break" | Return _ _ => "Return" | Block _ _ _ _ => "Block"
  | Switch _ _ _ => "Switch" | Teal _ _ => "Teal" | InnerTxn _ _ => "InnerTxn"
  | InnerGroup _ _ => "InnerGroup" | IfStatement _ _ _ _ _ _ => "IfStatement"
  | WhileStatement _ _ _ _ _ _ _ => "WhileStatement"
  | ForStatement _ _ _ _ _ _ _ _ => "ForStatement" | Func _ _ _ _ _ => "Func"
  end.

Definition node_info (n : Node) : NodeInfo :=
  match n with
  | TealVersion i _ | Comment i _ | Blank i | Const i _ _ _ | Jump i _
  | Exit i _ | FunctionCall i _ | Assert i _ _ | BytesDeclaration i _ _
  | IntDeclaration i _ _ | Assignment i _ _ | Break i _ | Return i _
  | Block i _ _ _ | Switch i _ _ | Teal i _ | InnerTxn i _
  | InnerGroup i _ | IfStatement i _ _ _ _ _
  | WhileStatement i _ _ _ _ _ _ | ForStatement i _ _ _ _ _ _ _
  | Func i _ _ _ _ => i
  end.

(** The statements directly below a statement: its [nodes], and for an
    [IfStatement] the [nodes] of its children. *)
Definition children (n : Node) : list Node :=
  match n with
  | Block _ _ _ ns | InnerGroup _ ns | WhileStatement _ _ _ _ _ _ ns
  | ForStatement _ _ _ _ _ _ _ ns | Func _ _ _ _ ns => ns
  | IfStatement _ _ _ _ _ cs => mjoin (snd <$> cs)
  | _ => []
  end.

(** [isinstance(node, InlineStatement)]: every statement class but [Block]
    derives from [InlineStatement]. *)
Definition is_InlineStatement (n : Node) : bool :=
  match n with Block _ _ _ _ => false | _ => true end.

Definition is_InnerTxn (n : Node) : bool :=
  match n with InnerTxn _ _ => true | _ => false end.

Definition is_Return (n : Node) : bool :=
  match n with Return _ _ => true | _ => false end.

(** [node.has_child_node(InnerTxn)] *)
Fixpoint has_child_InnerTxn (n : Node) : bool :=
  let any_of := fix any_of (ns : list Node) : bool :=
    match ns with
    | [] => false
    | m :: ns' => is_InnerTxn m || has_child_InnerTxn m || any_of ns'
    end in
  match n with
  | Block _ _ _ ns | InnerGroup _ ns | WhileStatement _ _ _ _ _ _ ns
  | ForStatement _ _ _ _ _ _ _ ns | Func _ _ _ _ ns => any_of ns
  | IfStatement _ _ _ _ _ cs =>
      (fix any_clause (cs : list (ClauseHead * list Node)) : bool :=
         match cs with
         | [] => false
         | (_, ns) :: cs' => any_of ns || any_clause cs'
         end) cs
  | _ => false
  end.

(** The classes of the ancestors that [find_parent] looks for, from the
    parent outwards; a [WhileStatement] with its [end_label]. *)
Inductive Ancestor :=
| AWhile (end_label : string)
| AFunc
| AInnerGroup
| AOther.

(** [self.find_parent(WhileStatement)] *)
Fixpoint find_parent_While (anc : list Ancestor) : option string :=
  match anc with
  | [] => None
  | AWhile l :: _ => Some l
  | _ :: anc' => find_parent_While anc'
  end.

Definition is_descendant_of (a : Ancestor -> bool) (anc : list Ancestor) : bool :=
  existsb a anc.
Definition is_AFunc (a : Ancestor) : bool :=
  match a with AFunc => true | _ => false end.
Definition is_AInnerGroup (a : Ancestor) : bool :=
  match a with AInnerGroup => true | _ => false end.

End Tree.

(** ** The parse pass: the [consume] class methods and the constructors *)
Section Parse.
Context `{Expressions}.
Import PyStr.

Definition no_startswith : Exn :=
  AttributeError "'NoneType' object has no attribute 'startswith'".

(** [Node.__init__]: the line is matched against the pattern of the class;
    [re.match] raises [TypeError] on [None], the line at the end of input.
    The result is the common attributes and the groups of the match. *)
Definition Node_init {A} (cls pattern : string) (matcher : string -> option A)
    (line : option string) (scope : nat) : M (NodeInfo * A) :=
  fun c =>
    match line with
    | None => (Raise (TypeError "expected string or bytes-like object"), c)
    | Some l =>
        match matcher l with
        | None =>
            (Raise (ParseError ("Pattern (" +:+ pattern +:+ ") does not match for "
                                +:+ cls +:+ " for line " +:+ quoted l)), c)
        | Some a =>
            (Ok ({| n_line := l; n_line_no := line_no c; n_scope := scope |}, a), c)
        end
    end.

(** The truth value of a string: [bool(s)]. *)
Definition nonempty_name (s : string) : bool := Pattern.nonempty s.

(** The [label] that [Block.__init__] and [Func.__init__] compute from the
    name of the enclosing scope. *)
Definition Block_label (sc : Scope LitValue) (name : string) : string :=
  sc_name sc +:+ (if nonempty_name (sc_name sc) then "__" else EmptyString)
          +:+ name.
Definition Func_label (sc : Scope LitValue) (name : string) : string :=
  sc_name sc +:+ "__func__" +:+ name.

(** The classes whose pattern is the empty string. *)
Definition match_any (l : string) : option unit := Some tt.

(** [GenericExpression.parse] and [Literal.parse] on a group of the match. *)
Definition parse_expression (text : string) : M Expr :=
  lift (GenericExpression_parse text).
Definition parse_literal (text : string) : M LitValue :=
  lift (Literal_parse text).

(** [compiler.peek() == s] *)
Definition peek_is (s : string) : M bool :=
  let* p := peek in ret (bool_decide (p = Some s)).

(** [compiler.peek().startswith(ps)] for a string or a tuple of strings. *)
Definition peek_startswith (ps : list string) : M bool :=
  let* p := peek in
  match p with
  | None => raise no_startswith
  | Some l => ret (existsb (startswith l) ps)
  end.

(** The test of [Node.add_child]; [inline_only] when the parent accepts
    [InlineStatement] children only, and any [Statement] otherwise. *)
Definition add_child (parent_cls : string) (parent_line_no : nat)
    (inline_only : bool) (n : Node) : M unit :=
  if inline_only && negb (is_InlineStatement n)
  then raise (ParseError ("Unexpected child node " +:+ class_name n +:+ " in "
                          +:+ parent_cls +:+ " at line "
                          +:+ of_nat parent_line_no +:+ "!"))
  else ret tt.

(** [LineStatement.consume] *)
Definition LineStatement_consume (anc : list Ancestor) (scope : nat) : M Node :=
  let* line := consume_line in
  let* c := get in
  match line with
  | None => raise no_startswith
  | Some l =>
      if startswith l "#pragma" then
        if negb (line_no c =? 1)%nat then
          raise (ParseError
                   ("Teal version must be specified in the first line of the program: "
                    +:+ quoted l +:+ " at " +:+ of_nat (line_no c) +:+ "."))
        else
          let* (i, v) := Node_init "TealVersion" Pattern.TealVersion
                            Pattern.match_TealVersion line scope in
          ret (TealVersion i v)
      else if startswith l "#" then
        let* (i, v) := Node_init "Comment" Pattern.Comment
                          Pattern.match_Comment line scope in
        ret (Comment i v)
      else if String.eqb l EmptyString then
        let* (i, _) := Node_init "Blank" EmptyString match_any line scope in
        ret (Blank i)
      else if startswith l "const " then
        let* (i, (ty, name, e)) := Node_init "Const" Pattern.Const
                                      Pattern.match_Const line scope in
        let* v := parse_literal e in
        ret (Const i ty name v)
      else if startswith l "int " then
        let* (i, (name, e)) := Node_init "IntDeclaration" Pattern.IntDeclaration
                                  (Pattern.match_Declaration "int ") line scope in
        match e with
        | Some e => let* x := parse_expression e in ret (IntDeclaration i name (Some x))
        | None => ret (IntDeclaration i name None)
        end
      else if startswith l "bytes " then
        let* (i, (name, e)) := Node_init "BytesDeclaration" Pattern.BytesDeclaration
                                  (Pattern.match_Declaration "bytes ") line scope in
        match e with
        | Some e => let* x := parse_expression e in ret (BytesDeclaration i name (Some x))
        | None => ret (BytesDeclaration i name None)
        end
      else if startswith l "jump " then
        let* (i, b) := Node_init "Jump" Pattern.Jump Pattern.match_Jump line scope in
        ret (Jump i b)
      else if startswith l "return" then
        let* (i, a) := Node_init "Return" Pattern.Return
                          Pattern.match_Return line scope in
        if negb (is_descendant_of is_AFunc anc) then
          raise (ParseError (dq +:+ "return" +:+ dq
                             +:+ " should only be used in a function! Line "
                             +:+ of_nat (n_line_no i)))
        else ret (Return i a)
      else if contains " = " l then
        let* (i, (names, e)) := Node_init "Assignment" Pattern.Assignment
                                   Pattern.match_Assignment line scope in
        let* x := parse_expression e in
        ret (Assignment i names x)
      else if startswith l "break" then
        let* (i, _) := Node_init "Break" Pattern.Break Pattern.match_Break line scope in
        match find_parent_While anc with
        | None =>
            raise (ParseError (dq +:+ "break" +:+ dq
                               +:+ " should only be used in a while loop! Line "
                               +:+ of_nat (n_line_no i)))
        | Some end_label => ret (Break i end_label)
        end
      else if startswith l "exit(" then
        let* (i, e) := Node_init "Exit" Pattern.Exit Pattern.match_Exit line scope in
        let* x := parse_expression e in
        ret (Exit i x)
      else if startswith l "assert(" then
        let* (i, (a, m)) := Node_init "Assert" Pattern.Assert
                               Pattern.match_Assert line scope in
        let* x := parse_expression a in
        ret (Assert i x m)
      else if Pattern.looks_like_call l then
        let* (i, e) := Node_init "FunctionCall" Pattern.FunctionCall
                          Pattern.match_FunctionCall line scope in
        let* x := parse_expression e in
        ret (FunctionCall i x)
      else
        raise (ParseError ("Unexpected line statement: " +:+ quoted l +:+ " at "
                           +:+ of_nat (line_no c) +:+ "."))
  end.

End Parse.

Section ParseComposite.
Context `{Expressions}.
Import PyStr.

(** [Statement.consume] for the children, at the nesting depth below. *)
Variable consume_child : list Ancestor -> nat -> M Node.

(** The loops [while True: ... add_child(Statement.consume(...))] of the
    composite statements.  [stop] is the test that ends the loop and [eat]
    tells whether the loop consumes the line it stops at.  [fuel] bounds
    the number of turns. *)
Fixpoint consume_children (fuel : nat) (stop : M bool) (eat : bool)
    (parent_cls : string) (parent_line_no : nat) (inline_only : bool)
    (anc : list Ancestor) (scope : nat) (nodes : list Node)
    : M (list Node) :=
  match fuel with
  | O => diverge
  | S fuel' =>
      let* b := stop in
      if b then
        (if eat then consume_line ;; ret nodes else ret nodes)
      else
        let* n := consume_child anc scope in
        add_child parent_cls parent_line_no inline_only n ;;
        consume_children fuel' stop eat parent_cls parent_line_no inline_only
                         anc scope (nodes ++ [n])
  end.

(** [Block.__init__] and [Block.consume] *)
Definition Block_consume (fuel : nat) (anc : list Ancestor) (scope : nat)
    : M Node :=
  let* line := consume_line in
  let* (i, name) := Node_init "Block" Pattern.Block Pattern.match_Block line scope in
  let* c := get in
  match scopes c !! scope with
  | None => raise (AttributeError "'NoneType' object has no attribute 'blocks'")
  | Some sc =>
      let label := Block_label sc name in
      register_block scope name label ;;
      let* s' := new_scope name (Some scope) None in
      let i' := {| n_line := n_line i; n_line_no := n_line_no i; n_scope := s' |} in
      let* nodes := consume_children fuel (peek_is "end") true "Block"
                      (n_line_no i) false (AOther :: anc) s' [] in
      ret (Block i' name label nodes)
  end.

(** [Switch.consume] *)
Fixpoint Switch_children (fuel : nat) (scope : nat) (nodes : list SwitchChild)
    : M (list SwitchChild) :=
  match fuel with
  | O => diverge
  | S fuel' =>
      let* e := peek_is "end" in
      if e then consume_line ;; ret nodes
      else
        let* b := peek_startswith ["else:"] in
        let* line := consume_line in
        if b then
          let* (i, bn) := Node_init "SwitchElse" Pattern.SwitchElse
                            Pattern.match_SwitchElse line scope in
          Switch_children fuel' scope (nodes ++ [SwitchElse i bn])
        else
          let* (i, (e, bn)) := Node_init "SwitchOption" Pattern.SwitchOption
                                 Pattern.match_SwitchOption line scope in
          let* x := parse_expression e in
          Switch_children fuel' scope (nodes ++ [SwitchOption i x bn])
  end.

Definition Switch_consume (fuel : nat) (scope : nat) : M Node :=
  let* line := consume_line in
  let* (i, e) := Node_init "Switch" Pattern.Switch Pattern.match_Switch line scope in
  let* x := parse_expression e in
  let* nodes := Switch_children fuel scope [] in
  ret (Switch i x nodes).

(** [Teal.consume] and [TealLine.consume] *)
Fixpoint Teal_children (fuel : nat) (scope : nat) (nodes : list NodeInfo)
    : M (list NodeInfo) :=
  match fuel with
  | O => diverge
  | S fuel' =>
      let* e := peek_is "end" in
      if e then consume_line ;; ret nodes
      else
        let* line := consume_line in
        let* (i, _) := Node_init "TealLine" EmptyString match_any line scope in
        Teal_children fuel' scope (nodes ++ [i])
  end.

Definition Teal_consume (fuel : nat) (scope : nat) : M Node :=
  let* line := consume_line in
  let* (i, _) := Node_init "Teal" EmptyString match_any line scope in
  let* nodes := Teal_children fuel scope [] in
  ret (Teal i nodes).

(** [InnerTxn.consume]: the loop, then the wrapping in an [InnerGroup]. *)
Fixpoint InnerTxn_children (fuel : nat) (scope : nat)
    (nodes : list InnerTxnFieldSetter) : M (list InnerTxnFieldSetter) :=
  match fuel with
  | O => diverge
  | S fuel' =>
      let* e := peek_is "end" in
      if e then consume_line ;; ret nodes
      else
        let* b := peek_startswith ["#"] in
        if b then consume_line ;; InnerTxn_children fuel' scope nodes
        else
          let* line := consume_line in
          let* (i, (fn, ix, e)) :=
            Node_init "InnerTxnFieldSetter" Pattern.InnerTxnFieldSetter
                      Pattern.match_InnerTxnFieldSetter line scope in
          let* x := parse_expression e in
          InnerTxn_children fuel' scope
            (nodes ++ [{| fs_info := i; fs_field_name := fn;
                          fs_index := ix; fs_expression := x |}])
  end.

Definition InnerTxn_consume (fuel : nat) (anc : list Ancestor) (scope : nat)
    : M Node :=
  let* line := consume_line in
  let* (i, _) := Node_init "InnerTxn" EmptyString match_any line scope in
  let* nodes := InnerTxn_children fuel scope [] in
  if negb (is_descendant_of is_AInnerGroup anc) then
    let* (g, _) := Node_init "InnerGroup" EmptyString match_any
                     (Some EmptyString) scope in
    ret (InnerGroup g [InnerTxn i nodes])
  else ret (InnerTxn i nodes).

(** [InnerGroup.consume] *)
Definition InnerGroup_consume (fuel : nat) (anc : list Ancestor) (scope : nat)
    : M Node :=
  let* line := consume_line in
  let* (i, _) := Node_init "InnerGroup" EmptyString match_any line scope in
  let* nodes := consume_children fuel (peek_startswith ["end"]) true
                  "InnerGroup" (n_line_no i) false (AInnerGroup :: anc) scope [] in
  ret (InnerGroup i nodes).

(** [IfThen.consume], [Elif.consume] and [Else.consume] *)
Definition IfThen_consume (fuel : nat) (anc : list Ancestor) (scope : nat)
    : M (ClauseHead * list Node) :=
  let* (i, _) := Node_init "IfThen" EmptyString match_any (Some EmptyString) scope in
  let* nodes := consume_children fuel (peek_startswith ["end"; "elif"; "else:"])
                  false "IfThen" (n_line_no i) true (AOther :: AOther :: anc)
                  scope [] in
  ret (IfThen i, nodes).

Definition Elif_consume (fuel : nat) (anc : list Ancestor) (scope : nat)
    (label : string) : M (ClauseHead * list Node) :=
  let* line := consume_line in
  let* (i, (m, e)) := Node_init "Elif" Pattern.Elif Pattern.match_Elif line scope in
  let* x := parse_expression e in
  let* nodes := consume_children fuel (peek_startswith ["end"; "elif"; "else:"])
                  false "Elif" (n_line_no i) true (AOther :: AOther :: anc)
                  scope [] in
  ret (Elif i x m label, nodes).

Definition Else_consume (fuel : nat) (anc : list Ancestor) (scope : nat)
    (label : string) : M (ClauseHead * list Node) :=
  let* line := consume_line in
  let* (i, _) := Node_init "Else" Pattern.Else Pattern.match_Else line scope in
  let* nodes := consume_children fuel (peek_startswith ["end"])
                  false "Else" (n_line_no i) true (AOther :: AOther :: anc)
                  scope [] in
  ret (Else i label, nodes).

Definition is_Elif (c : ClauseHead * list Node) : bool :=
  match c with (Elif _ _ _ _, _) => true | _ => false end.
Definition is_Else (c : ClauseHead * list Node) : bool :=
  match c with (Else _ _, _) => true | _ => false end.

(** [IfStatement.__init__] and [IfStatement.consume].  When the next line
    is none of [end], [elif ...] and [else:...], a turn of the loop changes
    nothing. *)
Fixpoint IfStatement_children (fuel : nat) (anc : list Ancestor) (scope : nat)
    (conditional_index : nat) (nodes : list (ClauseHead * list Node))
    : M (list (ClauseHead * list Node)) :=
  match fuel with
  | O => diverge
  | S fuel' =>
      let* e := peek_is "end" in
      if e then consume_line ;; ret nodes
      else
        let* b := peek_startswith ["elif "] in
        if b then
          let i := length (filter is_Elif nodes) in
          let* n := Elif_consume fuel' anc scope
                      ("l" +:+ of_nat conditional_index +:+ "_elif_" +:+ of_nat i) in
          IfStatement_children fuel' anc scope conditional_index (nodes ++ [n])
        else
          let* b := peek_startswith ["else:"] in
          if b then
            let* n := Else_consume fuel' anc scope
                        ("l" +:+ of_nat conditional_index +:+ "_else") in
            IfStatement_children fuel' anc scope conditional_index (nodes ++ [n])
          else
            IfStatement_children fuel' anc scope conditional_index nodes
  end.

(** The part of the three constructors that mints a label index. *)
Definition next_conditional_index : M nat :=
  let* c := get in
  modify (set_conditional_count (conditional_count c + 1)) ;;
  ret (conditional_count c).

Definition IfStatement_consume (fuel : nat) (anc : list Ancestor) (scope : nat)
    : M Node :=
  let* line := consume_line in
  let* (i, (m, e)) := Node_init "IfStatement" Pattern.IfStatement
                        (Pattern.match_Conditional "if ") line scope in
  let* x := parse_expression e in
  let* idx := next_conditional_index in
  let end_label := "l" +:+ of_nat idx +:+ "_end" in
  let* t := IfThen_consume fuel anc scope in
  let* nodes := IfStatement_children fuel anc scope idx [t] in
  ret (IfStatement i x m idx end_label nodes).

(** [WhileStatement.__init__] and [WhileStatement.consume] *)
Definition WhileStatement_consume (fuel : nat) (anc : list Ancestor)
    (scope : nat) : M Node :=
  let* line := consume_line in
  let* (i, (m, e)) := Node_init "WhileStatement" Pattern.WhileStatement
                        (Pattern.match_Conditional "while ") line scope in
  let* x := parse_expression e in
  let* idx := next_conditional_index in
  let start_label := "l" +:+ of_nat idx +:+ "_while" in
  let end_label := "l" +:+ of_nat idx +:+ "_end" in
  let* nodes := consume_children fuel (peek_is "end") true "WhileStatement"
                  (n_line_no i) true (AWhile end_label :: anc) scope [] in
  ret (WhileStatement i x m idx start_label end_label nodes).

(** [ForStatement.__init__] and [ForStatement.consume] *)
Definition ForStatement_consume (fuel : nat) (anc : list Ancestor)
    (scope : nat) : M Node :=
  let* line := consume_line in
  let* (i, (var, start, stop)) :=
    Node_init "ForStatement" Pattern.ForStatement Pattern.match_ForStatement
              line scope in
  let* x := parse_expression start in
  let* y := parse_expression stop in
  let* idx := next_conditional_index in
  let start_label := "l" +:+ of_nat idx +:+ "_for" in
  let end_label := "l" +:+ of_nat idx +:+ "_end" in
  let* nodes := consume_children fuel (peek_is "end") true "ForStatement"
                  (n_line_no i) true (AOther :: anc) scope [] in
  ret (ForStatement i var x y idx start_label end_label nodes).

(** [Func.__init__] and [Func.consume] *)
Definition Func_consume (fuel : nat) (anc : list Ancestor) (scope : nat)
    : M Node :=
  let* line := consume_line in
  let* (i, (name, args, _)) := Node_init "Func" Pattern.Func Pattern.match_Func
                                 line scope in
  let args := Pattern.ArgsList_args args in
  let* c := get in
  match scopes c !! scope with
  | None => raise (AttributeError "'NoneType' object has no attribute 'functions'")
  | Some sc =>
      let label := Func_label sc name in
      let returns :=
        filter (fun s => nonempty_name s = true)
               (strip <$> split (ascii_of_nat 44) (n_line i)) in
      let ref := {| func_label := label; func_line := n_line i;
                    func_args := args; func_returns := returns |} in
      register_function scope name ref ;;
      let* s' := new_scope ("func__" +:+ name) (Some scope) None in
      let i' := {| n_line := n_line i; n_line_no := n_line_no i; n_scope := s' |} in
      let* nodes := consume_children fuel (peek_is "end") true "Func"
                      (n_line_no i) true (AFunc :: anc) s' [] in
      let* c' := get in
      match last nodes with
      | None => raise (IndexError "list index out of range")
      | Some n =>
          if negb (is_Return n) then
            raise (ParseError ("func must end with a return statement at line "
                               +:+ of_nat (line_no c') +:+ "!"))
          else ret (Func i' name args label nodes)
      end
  end.

(** [Statement.consume] *)
Definition Statement_dispatch (fuel : nat) (anc : list Ancestor) (scope : nat)
    : M Node :=
  let* line := peek in
  match line with
  | None => raise no_startswith
  | Some l =>
      if startswith l "block " then Block_consume fuel anc scope
      else if startswith l "switch " then Switch_consume fuel scope
      else if startswith l "func " then Func_consume fuel anc scope
      else if startswith l "if " then IfStatement_consume fuel anc scope
      else if startswith l "while " then WhileStatement_consume fuel anc scope
      else if startswith l "for " then ForStatement_consume fuel anc scope
      else if startswith l "teal:" then Teal_consume fuel scope
      else if startswith l "inner_group:" then InnerGroup_consume fuel anc scope
      else if startswith l "inner_txn:" then InnerTxn_consume fuel anc scope
      else LineStatement_consume anc scope
  end.

End ParseComposite.

Section ParseProgram.
Context `{Expressions}.

(** [Statement.consume], with [fuel] bounding both the nesting depth of the
    statements and the turns of each loop. *)
Fixpoint Statement_consume (fuel : nat) (anc : list Ancestor) (scope : nat)
    : M Node :=
  match fuel with
  | O => diverge
  | S fuel' => Statement_dispatch (Statement_consume fuel') fuel' anc scope
  end.

(** [Program.__init__] and [Program.consume] *)
Fixpoint Program_children (fuel : nat) (scope : nat) (nodes : list Node)
    : M (list Node) :=
  match fuel with
  | O => diverge
  | S fuel' =>
      let* p := peek in
      match p with
      | None => ret nodes
      | Some _ =>
          let* n := Statement_consume fuel' [AOther] scope in
          Program_children fuel' scope (nodes ++ [n])
      end
  end.

Definition Program_consume (fuel : nat) : M Program :=
  let* c := get in
  let* s := new_scope EmptyString None None in
  let i := {| n_line := EmptyString; n_line_no := line_no c; n_scope := s |} in
  let* nodes := Program_children fuel s [] in
  ret {| p_info := i; p_nodes := nodes |}.

End ParseProgram.

(** ** The generation pass: [process] and [visit] *)
Section Generate.
Context `{Expressions}.
Import PyStr.

(** [Node.write]: [compiler.write(lines, self.line_no)].  [write1] is the
    call with one string. *)
Definition Node_write (i : NodeInfo) (lines : list string) : M unit :=
  compiler_write lines (n_line_no i).
Definition write1 (i : NodeInfo) (s : string) : M unit := Node_write i [s].

(** [expression.process(self.get_scope())]; the result is the [type] of
    the expression and the lines of [expression.teal()]. *)
Definition process_expression (i : NodeInfo) (e : Expr)
    : M (ExprType * list string) :=
  let* c := get in lift (Expr_process (get_scope c (n_scope i)) e).

(** How a type is formatted in the messages of the assertions. *)
Definition show_type (t : ExprType) : string :=
  match t with
  | TOne t => StackType_value t
  | TMany ts =>
      "[" +:+ concat ((fun t => "<StackType." +:+ StackType_value t +:+ ">, ") <$> ts)
          +:+ "]"
  end.

(** [t in (a, StackType.any)] *)
Definition type_in (t : ExprType) (a : StackType) : bool :=
  match t with
  | TOne t => bool_decide (t = a) || bool_decide (t = st_any)
  | TMany _ => false
  end.

(** [assert cond, msg] *)
Definition py_assert (cond : bool) (msg : string) : M unit :=
  if cond then ret tt else raise (AssertionError msg).

Definition add_level (d : Z) : M unit :=
  modify (fun c => set_level (level c + d) c).

(** The function [split_return_args]: [first_comma] is its loop, which
    returns the index of the first comma outside quotes found while the
    count of parentheses is zero. *)
Fixpoint first_comma (s : string) (i : nat) (parentheses : Z) (quotes : bool)
    : option nat :=
  match s with
  | EmptyString => None
  | String ch s' =>
      let quotes := if (code ch =? 34)%nat then negb quotes else quotes in
      if quotes then first_comma s' (S i) parentheses quotes
      else
        let parentheses := if (code ch =? 40)%nat then (parentheses + 1)%Z
                           else parentheses in
        let parentheses := if (code ch =? 41)%nat then (parentheses - 1)%Z
                           else parentheses in
        if (parentheses =? 0)%Z && (code ch =? 44)%nat then Some i
        else first_comma s' (S i) parentheses quotes
  end.

Fixpoint split_return_args_from (fuel : nat) (s : string) : list string :=
  match fuel with
  | O => [s]
  | S fuel' =>
      match first_comma s 0 0 false with
      | Some i =>
          strip (take i s) :: split_return_args_from fuel' (strip (drop (i + 1) s))
      | None => [s]
      end
  end.

Definition split_return_args (s : string) : list string :=
  split_return_args_from (S (String.length s)) s.

(** The body of the declarations of [int] and [bytes] variables. *)
Definition Declaration_process (i : NodeInfo) (ty : StackType) (name : string)
    (expression : option Expr) : M unit :=
  let* slot := declare_var (n_scope i) name ty in
  write1 i ("// " +:+ n_line i +:+ " [slot " +:+ of_nat slot +:+ "]") ;;
  match expression with
  | Some e =>
      let* (t, teal) := process_expression i e in
      py_assert (type_in t ty)
        ("Incorrect type for " +:+ StackType_value ty +:+ " assignment. Expected "
         +:+ StackType_value ty +:+ ", got " +:+ show_type t) ;;
      Node_write i teal ;;
      write1 i ("store " +:+ of_nat slot +:+ " // " +:+ name)
  | None => ret tt
  end.

(** The loop of [Assignment.process] over the names and their types. *)
Fixpoint Assignment_stores (i : NodeInfo) (targets : list (string * StackType))
    : M unit :=
  match targets with
  | [] => ret tt
  | (name, ty) :: targets' =>
      (if String.eqb name "_" then write1 i "pop // discarding value for _"
       else
         let* c := get in
         match get_var c (n_scope i) name with
         | None =>
             raise (Exception ("Var " +:+ quoted name
                               +:+ " not declared in current scope"))
         | Some (slot, t) =>
             py_assert (bool_decide (ty = st_any) || bool_decide (ty = t))
               ("Incorrect type for " +:+ StackType_value t
                +:+ " assignment. Expected " +:+ StackType_value t +:+ ", got "
                +:+ StackType_value ty) ;;
             write1 i ("store " +:+ of_nat slot +:+ " // " +:+ name)
         end) ;;
      Assignment_stores i targets'
  end.

(** The loop of [Return.process] over the arguments, already reversed. *)
Fixpoint Return_args (i : NodeInfo) (args : list string) : M unit :=
  match args with
  | [] => ret tt
  | a :: args' =>
      let* e := lift (GenericExpression_parse (strip a)) in
      let* (_, teal) := process_expression i e in
      Node_write i teal ;;
      Return_args i args'
  end.

(** [process] of the classes that do not redefine [visit]. *)
Definition process (n : Node) : M unit :=
  match n with
  | TealVersion i version => write1 i ("#pragma version " +:+ version)
  | Comment i comment => write1 i ("// " +:+ comment)
  | Blank i => write1 i EmptyString
  | Const i ty name value => register_const (n_scope i) name ty value
  | Jump i block_name =>
      write1 i ("// " +:+ n_line i) ;;
      let* c := get in
      match get_block c (n_scope i) block_name with
      | None => raise (AttributeError "'NoneType' object has no attribute 'label'")
      | Some label => write1 i ("b " +:+ label)
      end
  | Exit i e =>
      write1 i ("// " +:+ n_line i) ;;
      let* (_, teal) := process_expression i e in
      Node_write i teal ;;
      write1 i "return"
  | FunctionCall i e =>
      write1 i ("// " +:+ n_line i) ;;
      let* (_, teal) := process_expression i e in
      Node_write i teal
  | Assert i arg message =>
      let* (t, teal) := process_expression i arg in
      py_assert (type_in t st_int)
        ("Incorrect type for assert. Expected int, got " +:+ show_type t) ;;
      write1 i ("// " +:+ n_line i) ;;
      Node_write i teal ;;
      match message with
      | Some m =>
          if nonempty_name m then
            modify (fun c => set_error_messages
                               (<[n_line_no i := m]> (error_messages c)) c) ;;
            write1 i ("assert // " +:+ m)
          else write1 i "assert"
      | None => write1 i "assert"
      end
  | BytesDeclaration i name e => Declaration_process i st_bytes name e
  | IntDeclaration i name e => Declaration_process i st_int name e
  | Assignment i names e =>
      let* (t, teal) := process_expression i e in
      write1 i ("// " +:+ n_line i) ;;
      Node_write i teal ;;
      let types := match t with TOne t => [t] | TMany ts => ts end in
      let names := strip <$> split (ascii_of_nat 44) names in
      py_assert (length types =? length names)%nat
        ("Incorrect number of names (" +:+ of_nat (length names)
         +:+ ") for values (" +:+ of_nat (length types) +:+ ") in assignment") ;;
      Assignment_stores i (zip names types)
  | Break i end_label =>
      write1 i ("// " +:+ n_line i) ;;
      write1 i ("b " +:+ end_label)
  | Return i args =>
      write1 i ("// " +:+ n_line i) ;;
      (if nonempty_name args
       then Return_args i (rev (split_return_args args))
       else ret tt) ;;
      write1 i "retsub"
  | Block i name label _ =>
      write1 i ("// block " +:+ name) ;;
      write1 i (label +:+ ":")
  | _ => raise (NotImplementedError EmptyString)
  end.

(** [Node.visit]: [process], with any exception turned into a
    [CompileError], then the children one level deeper. *)
Definition Node_visit (i : NodeInfo) (process : M unit) (children : M unit)
    : M unit :=
  try_except process
    (fun e => raise (CompileError (str_exn e +:+ " at line "
                                   +:+ of_nat (n_line_no i)))) ;;
  add_level 1 ;;
  children ;;
  add_level (-1).

End Generate.

Section Visit.
Context `{Expressions}.
Import PyStr.

(** *** [Switch.visit] *)

Definition no_label : Exn :=
  AttributeError "'NoneType' object has no attribute 'label'".

(** [self.options] and [self.else_] among the children of a [Switch]. *)
Definition Switch_options (nodes : list SwitchChild) : list (Expr * string) :=
  omap (fun n => match n with
                 | SwitchOption _ e b => Some (e, b)
                 | SwitchElse _ _ => None
                 end) nodes.
Definition Switch_else (nodes : list SwitchChild) : option string :=
  last (omap (fun n => match n with
                       | SwitchElse _ b => Some b
                       | SwitchOption _ _ _ => None
                       end) nodes).

(** The loop over the options; [subject] is [self.expression.teal()]. *)
Fixpoint Switch_visit_options (i : NodeInfo) (subject : list string)
    (options : list (Expr * string)) : M unit :=
  match options with
  | [] => ret tt
  | (e, block_name) :: options' =>
      let* (_, teal) := process_expression i e in
      Node_write i subject ;;
      Node_write i teal ;;
      write1 i "==" ;;
      let* c := get in
      match get_block c (n_scope i) block_name with
      | None => raise no_label
      | Some label =>
          write1 i ("bnz " +:+ label) ;;
          Switch_visit_options i subject options'
      end
  end.

Definition Switch_visit (i : NodeInfo) (expression : Expr)
    (nodes : list SwitchChild) : M unit :=
  write1 i ("// " +:+ n_line i) ;;
  let* (_, subject) := process_expression i expression in
  Switch_visit_options i subject (Switch_options nodes) ;;
  match Switch_else nodes with
  | Some block_name =>
      let* c := get in
      match get_block c (n_scope i) block_name with
      | None => raise no_label
      | Some label => write1 i ("b " +:+ label +:+ " // else")
      end
  | None => write1 i "err // unexpected value"
  end.

(** *** [InnerTxn.visit] *)

(** [array_fields]: a [defaultdict(list)], its keys in insertion order. *)
Definition ArrayFields : Type := list (string * list InnerTxnFieldSetter).

(** [array_fields[name]]: the list of the key, which is added with an empty
    list when it is missing. *)
Fixpoint af_touch (name : string) (af : ArrayFields) : ArrayFields :=
  match af with
  | [] => [(name, [])]
  | (k, v) :: af' =>
      if String.eqb k name then af else (k, v) :: af_touch name af'
  end.

Fixpoint af_get (name : string) (af : ArrayFields) : list InnerTxnFieldSetter :=
  match af with
  | [] => []
  | (k, v) :: af' => if String.eqb k name then v else af_get name af'
  end.

(** [array_fields[name].append(node)] *)
Fixpoint af_append (name : string) (node : InnerTxnFieldSetter)
    (af : ArrayFields) : ArrayFields :=
  match af with
  | [] => [(name, [node])]
  | (k, v) :: af' =>
      if String.eqb k name then (k, v ++ [node]) :: af'
      else (k, v) :: af_append name node af'
  end.

(** The three lines that set one field. *)
Definition InnerTxn_set_field (i : NodeInfo) (node : InnerTxnFieldSetter)
    : M unit :=
  let* (_, teal) := process_expression i (fs_expression node) in
  Node_write i teal ;;
  write1 i ("itxn_field " +:+ fs_field_name node).

(** The first loop, over the children. *)
Fixpoint InnerTxn_visit_nodes (i : NodeInfo) (nodes : list InnerTxnFieldSetter)
    (array_fields : ArrayFields) : M ArrayFields :=
  match nodes with
  | [] => ret array_fields
  | node :: nodes' =>
      match fs_index node with
      | Some ix =>
          let index := int_of_digits ix in
          let array_fields := af_touch (fs_field_name node) array_fields in
          let n := length (af_get (fs_field_name node) array_fields) in
          if (n =? index)%nat then
            InnerTxn_visit_nodes i nodes'
              (af_append (fs_field_name node) node array_fields)
          else
            let* c := get in
            raise (ParseError ("Inccorrect field array index " +:+ of_nat index
                               +:+ " (expected " +:+ of_nat n +:+ ") at line "
                               +:+ of_nat (line_no c) +:+ "!"))
      | None =>
          InnerTxn_set_field i node ;;
          InnerTxn_visit_nodes i nodes' array_fields
      end
  end.

(** The second loop, over the values of [array_fields]. *)
Fixpoint InnerTxn_visit_fields (i : NodeInfo) (fields : list InnerTxnFieldSetter)
    : M unit :=
  match fields with
  | [] => ret tt
  | node :: fields' =>
      InnerTxn_set_field i node ;; InnerTxn_visit_fields i fields'
  end.

Definition InnerTxn_visit (i : NodeInfo) (nodes : list InnerTxnFieldSetter)
    : M unit :=
  write1 i ("// " +:+ n_line i) ;;
  let* array_fields := InnerTxn_visit_nodes i nodes [] in
  InnerTxn_visit_fields i (mjoin (snd <$> array_fields)).

(** *** The children of an [IfStatement] *)

Definition clause_label (c : ClauseHead * list Node) : string :=
  match c with
  | (IfThen _, _) => EmptyString
  | (Elif _ _ _ l, _) => l
  | (Else _ l, _) => l
  end.

Definition clause_info (h : ClauseHead) : NodeInfo :=
  match h with IfThen i | Elif i _ _ _ | Else i _ => i end.

(** [process] of [IfThen], [Elif] and [Else]; [next_label] is the attribute
    that [IfStatement.visit] sets on each child. *)
Definition clause_process (h : ClauseHead) (next_label : string) : M unit :=
  match h with
  | IfThen i => write1 i "// then:"
  | Elif i condition modifier _ =>
      write1 i ("// " +:+ n_line i) ;;
      let* (_, teal) := process_expression i condition in
      Node_write i teal ;;
      if bool_decide (modifier = Some "not")
      then write1 i ("bnz " +:+ next_label)
      else write1 i ("bz " +:+ next_label)
  | Else i _ => write1 i ("// " +:+ n_line i)
  end.

(** [nodes[k + 1].label] for the child whose followers are [rest], and the
    end label for the last child. *)
Definition next_label_of (rest : list (ClauseHead * list Node))
    (end_label : string) : string :=
  match rest with
  | [] => end_label
  | c :: _ => clause_label c
  end.

(** The branch on a condition: [bnz] with the modifier [not]. *)
Definition branch_unless (i : NodeInfo) (modifier : option string)
    (label : string) : M unit :=
  if bool_decide (modifier = Some "not")
  then write1 i ("bnz " +:+ label)
  else write1 i ("bz " +:+ label).

End Visit.

Section VisitChildren.
Context `{Expressions}.
Import PyStr.

(** [visit] of the children, that is [visit] itself on the nodes below. *)
Variable visit_child : Node -> M unit.

(** [for n in self.nodes: n.visit()] *)
Fixpoint visit_all (ns : list Node) : M unit :=
  match ns with
  | [] => ret tt
  | m :: ns' => visit_child m ;; visit_all ns'
  end.

(** [Teal.visit]: each [TealLine] goes through [Node.visit]. *)
Fixpoint Teal_visit (ls : list NodeInfo) : M unit :=
  match ls with
  | [] => ret tt
  | l :: ls' => Node_visit l (write1 l (n_line l)) (ret tt) ;; Teal_visit ls'
  end.

(** [InnerGroup.visit]: the loop writes [itxn_next] after a member that is
    or contains an [InnerTxn], unless the member is the last one. *)
Fixpoint InnerGroup_visit_nodes (i : NodeInfo) (ns : list Node) : M unit :=
  match ns with
  | [] => ret tt
  | m :: ns' =>
      visit_child m ;;
      (match ns' with
       | [] => ret tt
       | _ :: _ =>
           if is_InnerTxn m || has_child_InnerTxn m
           then write1 i "itxn_next" else ret tt
       end) ;;
      InnerGroup_visit_nodes i ns'
  end.

Definition InnerGroup_visit (i : NodeInfo) (ns : list Node) : M unit :=
  write1 i ("// " +:+ n_line i) ;;
  write1 i "itxn_begin" ;;
  InnerGroup_visit_nodes i ns ;;
  write1 i "itxn_submit".

(** [visit] of an [IfThen], [Elif] or [Else]: [Node.visit]. *)
Definition visit_clause (h : ClauseHead) (ns : list Node) (next_label : string)
    : M unit :=
  Node_visit (clause_info h) (clause_process h next_label) (visit_all ns).

(** The loop of [IfStatement.visit] over [self.elifs]; [cs] is the rest of
    [self.nodes]. *)
Fixpoint visit_elifs (i : NodeInfo) (end_label : string) (has_else : bool)
    (cs : list (ClauseHead * list Node)) : M unit :=
  match cs with
  | [] => ret tt
  | (Elif j c m label, ns) :: rest =>
      write1 i (label +:+ ":") ;;
      visit_clause (Elif j c m label) ns (next_label_of rest end_label) ;;
      (if existsb is_Elif rest || has_else
       then write1 i ("b " +:+ end_label) else ret tt) ;;
      visit_elifs i end_label has_else rest
  | _ :: rest => visit_elifs i end_label has_else rest
  end.

(** The part for [self.else_], the last [Else] child. *)
Fixpoint visit_else (i : NodeInfo) (end_label : string)
    (cs : list (ClauseHead * list Node)) : option (M unit) :=
  match cs with
  | [] => None
  | (Else j label, ns) :: rest =>
      match visit_else i end_label rest with
      | Some later => Some later
      | None =>
          Some (write1 i (label +:+ ":") ;;
                visit_clause (Else j label) ns (next_label_of rest end_label))
      end
  | _ :: rest => visit_else i end_label rest
  end.

(** [IfStatement.visit] *)
Definition IfStatement_visit (i : NodeInfo) (condition : Expr)
    (modifier : option string) (end_label : string)
    (cs : list (ClauseHead * list Node)) : M unit :=
  let has_else := existsb is_Else cs in
  let next_label :=
    match cs with
    | _ :: c :: _ => clause_label c
    | _ => end_label
    end in
  write1 i ("// " +:+ n_line i) ;;
  add_level 1 ;;
  let* (_, teal) := process_expression i condition in
  Node_write i teal ;;
  branch_unless i modifier next_label ;;
  match cs with
  | (h, ns) :: rest => visit_clause h ns (next_label_of rest end_label)
  | [] => raise (AttributeError "'NoneType' object has no attribute 'visit'")
  end ;;
  (if existsb is_Elif cs || has_else
   then write1 i ("b " +:+ end_label) else ret tt) ;;
  visit_elifs i end_label has_else cs ;;
  default (ret tt) (visit_else i end_label cs) ;;
  write1 i (end_label +:+ ": // end") ;;
  add_level (-1).

(** [WhileStatement.visit] *)
Definition WhileStatement_visit (i : NodeInfo) (condition : Expr)
    (modifier : option string) (start_label end_label : string)
    (ns : list Node) : M unit :=
  write1 i ("// " +:+ n_line i) ;;
  write1 i (start_label +:+ ":") ;;
  add_level 1 ;;
  let* (_, teal) := process_expression i condition in
  Node_write i teal ;;
  branch_unless i modifier end_label ;;
  visit_all ns ;;
  write1 i ("b " +:+ start_label) ;;
  write1 i (end_label +:+ ": // end") ;;
  add_level (-1).

(** [ForStatement.visit_explicit_counter] *)
Definition visit_explicit_counter (i : NodeInfo) (var : string)
    (start stop : Expr) (start_label end_label : string) (ns : list Node)
    : M unit :=
  write1 i ("// " +:+ n_line i) ;;
  add_level 1 ;;
  let* (_, start_teal) := process_expression i start in
  let* (_, end_teal) := process_expression i stop in
  Node_write i start_teal ;;
  let* slot := declare_var (n_scope i) var st_int in
  write1 i ("store " +:+ of_nat slot +:+ " // " +:+ var) ;;
  write1 i (start_label +:+ ":") ;;
  write1 i ("load " +:+ of_nat slot +:+ " // " +:+ var) ;;
  Node_write i end_teal ;;
  write1 i "==" ;;
  write1 i ("bnz " +:+ end_label) ;;
  visit_all ns ;;
  write1 i ("load " +:+ of_nat slot +:+ " // " +:+ var) ;;
  write1 i "pushint 1" ;;
  write1 i "+" ;;
  write1 i ("store " +:+ of_nat slot +:+ " // " +:+ var) ;;
  write1 i ("b " +:+ start_label) ;;
  write1 i (end_label +:+ ": // end") ;;
  del_var (n_scope i) var ;;
  add_level (-1).

(** [ForStatement.visit_implicit_counter] *)
Definition visit_implicit_counter (i : NodeInfo) (start stop : Expr)
    (start_label end_label : string) (ns : list Node) : M unit :=
  write1 i ("// " +:+ n_line i) ;;
  add_level 1 ;;
  let* (_, start_teal) := process_expression i start in
  let* (_, end_teal) := process_expression i stop in
  Node_write i start_teal ;;
  write1 i "dup" ;;
  write1 i (start_label +:+ ":") ;;
  Node_write i end_teal ;;
  write1 i "==" ;;
  write1 i ("bnz " +:+ end_label) ;;
  visit_all ns ;;
  write1 i "pushint 1" ;;
  write1 i "+" ;;
  write1 i "dup" ;;
  write1 i ("b " +:+ start_label) ;;
  write1 i "pop" ;;
  write1 i (end_label +:+ ": // end") ;;
  add_level (-1).

(** [ForStatement.visit] *)
Definition ForStatement_visit (i : NodeInfo) (var : string)
    (start stop : Expr) (start_label end_label : string) (ns : list Node)
    : M unit :=
  if String.eqb var "_"
  then visit_implicit_counter i start stop start_label end_label ns
  else visit_explicit_counter i var start stop start_label end_label ns.

(** [Func.visit]: the arguments are stored in reverse order. *)
Fixpoint Func_store_args (i : NodeInfo) (args : list (string * StackType))
    : M unit :=
  match args with
  | [] => ret tt
  | (name, ty) :: args' =>
      let* slot := declare_var (n_scope i) name ty in
      write1 i ("store " +:+ of_nat slot +:+ " // " +:+ name) ;;
      Func_store_args i args'
  end.

Definition Func_visit (i : NodeInfo) (args : list (string * StackType))
    (label : string) (ns : list Node) : M unit :=
  write1 i ("// " +:+ n_line i) ;;
  write1 i (label +:+ ":") ;;
  Func_store_args i (rev args) ;;
  visit_all ns.

End VisitChildren.

Section VisitTree.
Context `{Expressions}.

(** [visit] of every statement class.  The classes that do not redefine it
    go through [Node_visit]. *)
Fixpoint visit (n : Node) : M unit :=
  match n with
  | Block i _ _ ns => Node_visit i (process n) (visit_all visit ns)
  | Switch i e cs => Switch_visit i e cs
  | Teal _ ls => Teal_visit ls
  | InnerTxn i fs => InnerTxn_visit i fs
  | InnerGroup i ns => InnerGroup_visit visit i ns
  | IfStatement i condition modifier _ end_label cs =>
      IfStatement_visit visit i condition modifier end_label cs
  | WhileStatement i condition modifier _ start_label end_label ns =>
      WhileStatement_visit visit i condition modifier start_label end_label ns
  | ForStatement i var start stop _ start_label end_label ns =>
      ForStatement_visit visit i var start stop start_label end_label ns
  | Func i _ args label ns => Func_visit visit i args label ns
  | _ => Node_visit (node_info n) (process n) (ret tt)
  end.

(** [Program.visit] *)
Definition Program_visit (nodes : list Node) : M unit := visit_all visit nodes.

End VisitTree.

(** ** The driver *)
Section Driver.
Context `{Expressions}.
Import PyStr.

(** [TealishCompiler.parse]: the one [Program] node of [self.nodes]. *)
Definition parse (fuel : nat) : M Program := Program_consume fuel.

(** [TealishCompiler.compile] once [self.nodes] holds the program. *)
Definition compile (p : Program) : M (list string) :=
  Program_visit (p_nodes p) ;;
  let* c := get in ret (output c).

(** How a call of [compile_program] ends: it returns the three artifacts;
    or [sys.exit(status)] ends the run; or an exception leaves the function
    uncaught; [stdout] is what was printed before.  [NoResult] when the
    bound on the loops of the parse pass was reached. *)
Inductive Outcome :=
| Returned (teal min_teal : list string) (source_map : gmap nat nat)
           (stdout : list string)
| Exited (status : nat) (stdout : list string)
| Uncaught (e : Exn) (stdout : list string)
| NoResult.

Definition newline : ascii := ascii_of_nat 10.

(** The loop of the [debug] branch: it prints the lines of [teal] with
    their entry of the source map, and stops with [KeyError] at the first
    line that has no entry. *)
Fixpoint debug_print (teal : list string) (i : nat) (m : gmap nat nat)
    (stdout : list string) : list string * option Exn :=
  match teal with
  | [] => (stdout, None)
  | l :: teal' =>
      match m !! (i + 1)%nat with
      | Some n =>
          debug_print teal' (S i) m
            (stdout ++ [of_nat (i + 1) +:+ " " +:+ of_nat n +:+ " " +:+ l])
      | None => (stdout, Some (KeyError (of_nat (i + 1))))
      end
  end.

(** [compile_program] *)
Definition compile_program (fuel : nat) (source : string) (debug : bool)
    : Outcome :=
  let source_lines := split newline source in
  let compiler := TealishCompiler_init source_lines in
  match parse fuel compiler with
  | (Raise e, c) =>
      if is_ParseError e then Exited 1 [str_exn e]
      else Uncaught e ["Line: " +:+ of_nat (line_no c)]
  | (Diverge, _) => NoResult
  | (Ok p, c) =>
      match compile p c with
      | (Raise e, _) =>
          if is_CompileError e then Exited 1 [str_exn e] else Uncaught e []
      | (Diverge, _) => NoResult
      | (Ok out, c) =>
          let teal := out ++ [EmptyString] in
          let '(stdout, err) :=
            if debug then debug_print teal 0 (source_map c) []
            else ([], None) in
          match err with
          | Some e => Uncaught e stdout
          | None =>
              let '(min_teal, _) := minify_teal teal in
              Returned teal min_teal (source_map c) stdout
          end
      end
  end.

(** [compile_lines] *)
Definition compile_lines (fuel : nat) (source_lines : list string)
    : Result (list string) :=
  let compiler := TealishCompiler_init source_lines in
  match parse fuel compiler with
  | (Ok p, c) => fst (compile p c)
  | (Raise e, _) => Raise e
  | (Diverge, _) => Diverge
  end.

End Driver.

(** ** A small expression engine

    Modelled from the spec: the expression engine (module [expressions]) and
    the minifier (module [utils]), which the compiler imports and which are
    not in the repository's sources.  The spec (4.5) asks of the engine that
    it parses expression text, that resolving binds identifiers to constants
    and variables of the scope and computes a type or fails with an
    unresolved-name error, and that it emits postfix assembly.  This engine
    covers integer literals, variables, constants and calls without
    arguments; it is used to run the compiler on concrete programs, and no
    general theorem depends on it. *)
Module Toy.
Import PyStr.

Inductive expr :=
| EInt (digits : string)
| EVar (name : string)
| EConst (name : string)
| ECall (name : string).

Definition parse_expr (s : string) : Result expr :=
  if Pattern.nonempty s && all isdigit s then Ok (EInt s)
  else match Pattern.ident (fun c => islower c || isupper c || isunderscore c)
                           isword s with
       | Some (name, EmptyString) =>
           if match name with String c _ => isupper c | _ => false end
           then Ok (EConst name) else Ok (EVar name)
       | Some (name, rest) =>
           if String.eqb rest "()" then Ok (ECall name)
           else Raise (Exception ("Cannot parse " +:+ quoted s))
       | None => Raise (Exception ("Cannot parse " +:+ quoted s))
       end.

Definition parse_literal (s : string) : Result string :=
  if Pattern.nonempty s && all isdigit s then Ok s
  else Raise (Exception ("Cannot parse " +:+ quoted s)).

Definition process_expr (v : ScopeView string) (e : expr)
    : Result (ExprType * list string) :=
  match e with
  | EInt d => Ok (TOne st_int, ["pushint " +:+ d])
  | EVar x =>
      match v_slots v !! x with
      | Some (slot, ty) => Ok (TOne ty, ["load " +:+ of_nat slot +:+ " // " +:+ x])
      | None => Raise (Exception ("Var " +:+ quoted x
                                  +:+ " not declared in current scope"))
      end
  | EConst x =>
      match v_consts v !! x with
      | Some (ty, value) =>
          Ok (TOne ty, [(if decide (ty = st_int) then "pushint " else "pushbytes ")
                        +:+ value +:+ " // " +:+ x])
      | None => Raise (Exception ("Constant " +:+ quoted x
                                  +:+ " not declared in scope"))
      end
  | ECall f =>
      match v_functions v !! f with
      | Some r => Ok (TOne st_any, ["callsub " +:+ func_label r])
      | None => Raise (Exception ("Unknown function " +:+ quoted f))
      end
  end.

(** The minifier drops the indentation, the comment lines and the empty
    lines, and maps each line it keeps to its number in the input. *)
Fixpoint minify (lines : list string) (i : nat) (out : list string)
    (m : gmap nat nat) : list string * gmap nat nat :=
  match lines with
  | [] => (out, m)
  | l :: lines' =>
      let l' := strip l in
      if negb (Pattern.nonempty l') || startswith l' "//"
      then minify lines' (S i) out m
      else minify lines' (S i) (out ++ [l']) (<[S (length out) := S i]> m)
  end.

Definition engine : Expressions :=
  {| LitValue := string;
     Expr := expr;
     Literal_parse := parse_literal;
     GenericExpression_parse := parse_expr;
     Expr_process := process_expr;
     minify_teal := fun lines => minify lines 0 [] ∅ |}.

(** A source text from its lines: the lines joined by line feeds. *)
Fixpoint source (lines : list string) : string :=
  match lines with
  | [] => EmptyString
  | [l] => l
  | l :: lines' => l +:+ String newline (source lines')
  end.

End Toy.

(** ** The stack machine, as far as the loops use it

    The emitted lines are assembly for the AVM.  To speak of the depth of
    the evaluation stack, this is the fragment of its semantics that the
    code of a counting loop runs on: integer pushes, [dup], [pop], [==],
    [+], [load] and [store] on the scratch slots, the three branches and
    labels.  A line is an optional instruction followed by an optional
    comment. *)
Module Avm.
Import PyStr.

Inductive Instr :=
| PushInt (n : nat)
| Dup
| Pop
| Eq
| Add
| Load (slot : nat)
| Store (slot : nat)
| Bnz (label : string)
| Bz (label : string)
| B (label : string)
| Label (label : string)
| Skip
| Other (line : string).

Definition nonspace (c : ascii) : bool := negb (isspace c).

Definition decode (line : string) : Instr :=
  let l := strip line in
  let '(w, r) := span nonspace l in
  let arg := fst (span nonspace (lstrip r)) in
  if negb (Pattern.nonempty l) || startswith l "//" then Skip
  else match Pattern.strip_suffix ":" w with
       | Some name => Label name
       | None =>
           if String.eqb w "pushint" then PushInt (int_of_digits arg)
           else if String.eqb w "dup" then Dup
           else if String.eqb w "pop" then Pop
           else if String.eqb w "==" then Eq
           else if String.eqb w "+" then Add
           else if String.eqb w "load" then Load (int_of_digits arg)
           else if String.eqb w "store" then Store (int_of_digits arg)
           else if String.eqb w "bnz" then Bnz arg
           else if String.eqb w "bz" then Bz arg
           else if String.eqb w "b" then B arg
           else Other l
       end.

(** The position of the definition of a label. *)
Fixpoint find_label (prog : list Instr) (l : string) : option nat :=
  match prog with
  | [] => None
  | Label l' :: prog' =>
      if String.eqb l' l then Some 0 else S <$> find_label prog' l
  | _ :: prog' => S <$> find_label prog' l
  end.

(** The state: program counter, evaluation stack, scratch slots. *)
Definition State : Type := nat * list nat * gmap nat nat.

(** One instruction, or [None] when the machine fails. *)
Definition step (prog : list Instr) (st : State) : option State :=
  let '(pc, stack, scratch) := st in
  i ← prog !! pc;
  match i, stack with
  | PushInt n, _ => Some (S pc, n :: stack, scratch)
  | Dup, x :: _ => Some (S pc, x :: stack, scratch)
  | Pop, _ :: st => Some (S pc, st, scratch)
  | Eq, y :: x :: st => Some (S pc, (if (x =? y)%nat then 1 else 0) :: st, scratch)
  | Add, y :: x :: st => Some (S pc, (x + y) :: st, scratch)
  | Load k, _ => Some (S pc, default 0 (scratch !! k) :: stack, scratch)
  | Store k, x :: st => Some (S pc, st, <[k := x]> scratch)
  | Bnz l, x :: st =>
      if (x =? 0)%nat then Some (S pc, st, scratch)
      else (fun p => (p, st, scratch)) <$> find_label prog l
  | Bz l, x :: st =>
      if (x =? 0)%nat then (fun p => (p, st, scratch)) <$> find_label prog l
      else Some (S pc, st, scratch)
  | B l, _ => (fun p => (p, stack, scratch)) <$> find_label prog l
  | Label _, _ | Skip, _ => Some (S pc, stack, scratch)
  | _, _ => None
  end.

(** Runs until the program counter leaves the program; the result is the
    stack at that point. *)
Fixpoint run (fuel : nat) (prog : list Instr) (st : State) : option (list nat) :=
  match fuel with
  | O => None
  | S fuel' =>
      if (length prog <=? st.1.1)%nat then Some st.1.2
      else st' ← step prog st; run fuel' prog st'
  end.

Definition exec (fuel : nat) (lines : list string) (stack : list nat)
    : option (list nat) :=
  run fuel (decode <$> lines) (0, stack, ∅).

End Avm.

(** * Properties

    The predicates in which the theorems below are stated. *)
Section Properties.
Context `{Expressions}.

(** Each emitted line has one entry in the source map, and the counter is
    one past the last line. *)
Definition source_map_inv (c : TealishCompiler) : Prop :=
  (∀ k : nat, is_Some (source_map c !! k) ↔ 1 ≤ k ≤ length (output c))
  ∧ current_output_line c = S (length (output c)).

(** A step of a client of [write]: a call, or a change of the level. *)
Inductive WriteStep :=
| DoWrite (lines : list string) (line_no : nat)
| DoLevel (d : Z).

(** The state after the step. *)
Definition write_step (c : TealishCompiler) (s : WriteStep) : TealishCompiler :=
  match s with
  | DoWrite lines n => write_lines lines n c
  | DoLevel d => set_level (level c + d) c
  end.

(** The lines that a call of [write] appends, with the indentation of the
    current level. *)
Definition indent (c : TealishCompiler) (lines : list string) : list string :=
  (fun s => PyStr.repeat "  " (Z.to_nat (level c)) +:+ s) <$> lines.

(** A state that differs from [c] by writes only. *)
Definition wrote (c c' : TealishCompiler) (lines : list string) : Prop :=
  output c' = output c ++ indent c lines
  ∧ scopes c' = scopes c ∧ level c' = level c ∧ line_no c' = line_no c.

(** What [Switch.visit] emits for one option, given the resolved view
    [v], the lines [subject] of the subject and the blocks in scope. *)
Definition option_lines (v : ScopeView LitValue) (blocks : gmap string string)
    (subject : list string) (o : Expr * string) (ls : list string) : Prop :=
  ∃ t teal label,
    Expr_process v o.1 = Ok (t, teal) ∧ blocks !! o.2 = Some label
    ∧ ls = subject ++ teal ++ ["=="; "bnz " +:+ label].

(** The last line that [Switch.visit] emits. *)
Definition else_line (blocks : gmap string string) (els : option string)
    (l : string) : Prop :=
  match els with
  | Some block_name =>
      ∃ label, blocks !! block_name = Some label
               ∧ l = "b " +:+ label +:+ " // else"
  | None => l = "err // unexpected value"
  end.

(** What a successful [Switch.visit] has written. *)
Definition Switch_emits (i : NodeInfo) (e : Expr) (nodes : list SwitchChild)
    (c c' : TealishCompiler) : Prop :=
  ∃ t subject body tail,
    Expr_process (get_scope c (n_scope i)) e = Ok (t, subject)
    ∧ Forall2 (option_lines (get_scope c (n_scope i)) (get_blocks c (n_scope i))
                            subject) (Switch_options nodes) body
    ∧ else_line (get_blocks c (n_scope i)) (Switch_else nodes) tail
    ∧ output c' = output c ++ indent c (("// " +:+ n_line i) :: concat body ++ [tail]).

(** The setter has an index: it sets an entry of an array field. *)
Definition is_indexed (n : InnerTxnFieldSetter) : bool :=
  match fs_index n with Some _ => true | None => false end.

(** The node sets an entry of the array field [name]. *)
Definition same_array (name : string) (n : InnerTxnFieldSetter) : bool :=
  is_indexed n && String.eqb (fs_field_name n) name.

(** The setters without an index, in source order. *)
Definition scalar_fields (nodes : list InnerTxnFieldSetter)
    : list InnerTxnFieldSetter :=
  filter (fun n => is_indexed n = false) nodes.

(** One turn of the first loop of [InnerTxn.visit] on the buffers, when the
    index is the expected one. *)
Definition array_step (af : ArrayFields) (n : InnerTxnFieldSetter) : ArrayFields :=
  if is_indexed n then af_append (fs_field_name n) n af else af.

(** The indexed fields by name, the names in the order of their first use. *)
Definition array_fields_of (nodes : list InnerTxnFieldSetter) : ArrayFields :=
  foldl array_step [] nodes.

(** The index of each indexed field is the number of the indexed fields of
    the same name before it: 0, 1, 2, ... for each name. *)
Fixpoint in_sequence (seen nodes : list InnerTxnFieldSetter) : bool :=
  match nodes with
  | [] => true
  | n :: nodes' =>
      match fs_index n with
      | Some ix =>
          (PyStr.int_of_digits ix
           =? length (filter (fun m => same_array (fs_field_name n) m = true) seen))%nat
      | None => true
      end && in_sequence (seen ++ [n]) nodes'
  end.

(** The lines that set one field. *)
Definition field_lines (v : ScopeView LitValue) (n : InnerTxnFieldSetter)
    (ls : list string) : Prop :=
  ∃ t teal, Expr_process v (fs_expression n) = Ok (t, teal)
            ∧ ls = teal ++ ["itxn_field " +:+ fs_field_name n].

(** What a successful [InnerTxn.visit] has done. *)
Definition InnerTxn_emits (i : NodeInfo) (nodes : list InnerTxnFieldSetter)
    (c c' : TealishCompiler) : Prop :=
  in_sequence [] nodes = true
  ∧ (∀ name g k n,
       (name, g) ∈ array_fields_of nodes → g !! k = Some n →
       g = filter (fun m => same_array name m = true) nodes
       ∧ PyStr.int_of_digits <$> fs_index n = Some k)
  ∧ ∃ scalars arrays,
      Forall2 (field_lines (get_scope c (n_scope i))) (scalar_fields nodes) scalars
      ∧ Forall2 (field_lines (get_scope c (n_scope i)))
                (mjoin (snd <$> array_fields_of nodes)) arrays
      ∧ output c' = output c ++ indent c (("// " +:+ n_line i)
                                          :: concat scalars ++ concat arrays).

(** The changes that the generation pass makes to the compiler object. *)
Inductive gen_step : TealishCompiler → TealishCompiler → Prop :=
| gen_write lines n c : gen_step c (write_lines lines n c)
| gen_level l c : gen_step c (set_level l c)
| gen_error_message m c : gen_step c (set_error_messages m c)
| gen_declare s name ty slot c c' :
    declare_var s name ty c = (Ok slot, c') → gen_step c c'
| gen_del s name c c' : del_var s name c = (Ok tt, c') → gen_step c c'
| gen_const s name ty v c c' :
    register_const s name ty v c = (Ok tt, c') → gen_step c c'.

(** [m] changes the compiler object by such steps only, whatever its
    result. *)
Definition Gen {A} (m : M A) : Prop :=
  ∀ c r c', m c = (r, c') → rtc gen_step c c'.

(** The changes that the parse pass makes to the compiler object. *)
Inductive parse_step : TealishCompiler → TealishCompiler → Prop :=
| parse_line c : parse_step c (set_line_no (S (line_no c)) c)
| parse_count c : parse_step c (set_conditional_count (conditional_count c + 1) c)
| parse_block s name label c c' :
    register_block s name label c = (Ok tt, c') → parse_step c c'
| parse_func s name f c c' :
    register_function s name f c = (Ok tt, c') → parse_step c c'
| parse_scope name p s c c' :
    new_scope name p None c = (Ok s, c') → parse_step c c'.

(** [m] changes the compiler object by such steps only, whatever its
    result. *)
Definition Par {A} (m : M A) : Prop :=
  ∀ c r c', m c = (r, c') → rtc parse_step c c'.

(** The scope is local to a subroutine: the test of [declare_var]. *)
Definition is_func_scope (sc : Scope LitValue) : bool :=
  PyStr.contains "func__" (sc_name sc).

(** What holds of the heap of scopes at every point of a compilation: a
    parent is older than its children; a scope inside a subroutine-local
    scope is subroutine-local; every scope has the default range of slots;
    the slots of the scopes that are not subroutine-local are in that
    range; and no slot is above the high-water mark. *)
Record heap_ok (c : TealishCompiler) : Prop := {
  ok_parent : ∀ s sc p,
    scopes c !! s = Some sc → sc_parent sc = Some p → (p < s)%nat;
  ok_func : ∀ s sc p psc,
    scopes c !! s = Some sc → sc_parent sc = Some p → scopes c !! p = Some psc →
    is_func_scope psc = true → is_func_scope sc = true;
  ok_range : ∀ s sc, scopes c !! s = Some sc → sc_slot_range sc = (0, 200)%nat;
  ok_first_fit : ∀ s sc name slot ty,
    scopes c !! s = Some sc → is_func_scope sc = false →
    sc_slots sc !! name = Some (slot, ty) → (slot ≤ 200)%nat;
  ok_max : ∀ s sc name slot ty,
    scopes c !! s = Some sc → sc_slots sc !! name = Some (slot, ty) →
    (slot ≤ max_slot c)%nat
}.

(** No variable visible from the scope [s] has the slot [j]. *)
Definition unused (c : TealishCompiler) (s j : nat) : Prop :=
  ∀ name k ty, get_slots c s !! name = Some (k, ty) → k ≠ j.

(** The visible variables have different slots. *)
Definition distinct_slots (m : gmap string (nat * StackType)) : Prop :=
  ∀ n1 n2 k t1 t2, m !! n1 = Some (k, t1) → m !! n2 = Some (k, t2) → n1 = n2.

(** The index is in the range of slots of the scope. *)
Definition in_range (sc : Scope LitValue) (j : nat) : Prop :=
  ((sc_slot_range sc).1 ≤ j ≤ (sc_slot_range sc).2)%nat.

(** The scope [s] has a block, or a subroutine, registered under [name]. *)
Definition registered_block (c : TealishCompiler) (s : nat) (name : string) : Prop :=
  ∃ sc, scopes c !! s = Some sc ∧ is_Some (sc_blocks sc !! name).
Definition registered_function (c : TealishCompiler) (s : nat) (name : string)
    : Prop :=
  ∃ sc, scopes c !! s = Some sc ∧ is_Some (sc_functions sc !! name).

(** The scope [s] is [s'] or one of its ancestors. *)
Definition in_chain (c : TealishCompiler) (s s' : nat) : Prop :=
  ∃ sc, scopes c !! s = Some sc ∧ sc ∈ get_scopes c s'.

(** From [c] to [c'] every scope keeps its registrations. *)
Definition registrations_kept (c c' : TealishCompiler) : Prop :=
  ∀ s sc, scopes c !! s = Some sc →
    ∃ sc', scopes c' !! s = Some sc'
      ∧ (∀ n, is_Some (sc_blocks sc !! n) → is_Some (sc_blocks sc' !! n))
      ∧ (∀ n, is_Some (sc_functions sc !! n) → is_Some (sc_functions sc' !! n)).

(** One turn of the loop of [get_scope]. *)
Definition view_step (v : ScopeView LitValue) (sc : Scope LitValue)
    : ScopeView LitValue :=
  {| v_slots := dict_update (v_slots v) (sc_slots sc);
     v_consts := dict_update (v_consts v) (sc_consts sc);
     v_blocks := dict_update (v_blocks v) (sc_blocks sc);
     v_functions := dict_update (v_functions v) (sc_functions sc) |}.

(** No scope holds a variable or a constant. *)
Definition no_vars (c : TealishCompiler) : Prop :=
  ∀ s sc, scopes c !! s = Some sc → sc_slots sc = ∅ ∧ sc_consts sc = ∅.

(** The line is a comment line of a field block. *)
Definition is_comment (l : string) : bool := PyStr.startswith l "#".

(** What a successful [visit_implicit_counter] has written: the head of the
    loop, then what the body writes, then the tail, in which [pop] comes
    after the jump back to the start label and before the end label. *)
Definition implicit_counter_emits (visit_child : Node → M unit) (i : NodeInfo)
    (start stop : Expr) (start_label end_label : string) (ns : list Node)
    (c c' : TealishCompiler) : Prop :=
  ∃ t1 start_teal t2 end_teal c1 c2,
    Expr_process (get_scope c (n_scope i)) start = Ok (t1, start_teal)
    ∧ Expr_process (get_scope c (n_scope i)) stop = Ok (t2, end_teal)
    ∧ level c1 = (level c + 1)%Z
    ∧ output c1 = output c ++ indent c ["// " +:+ n_line i]
                  ++ indent c1 (start_teal ++ ["dup"; start_label +:+ ":"]
                                ++ end_teal ++ ["=="; "bnz " +:+ end_label])
    ∧ visit_all visit_child ns c1 = (Ok tt, c2)
    ∧ output c' = output c2
                  ++ indent c2 ["pushint 1"; "+"; "dup"; "b " +:+ start_label;
                                "pop"; end_label +:+ ": // end"].
End Properties.

(** Programs on which the definitions are run, with the engine [Toy.engine]. *)
Module Demo.
#[local] Existing Instance Toy.engine.

(** The state after the parse pass and the tree, for a list of lines. *)
Definition parsed (lines : list string) : Result Program * TealishCompiler :=
  parse 200 (TealishCompiler_init lines).
Definition state_of (lines : list string) : TealishCompiler := (parsed lines).2.
Definition nodes_of (lines : list string) : list Node :=
  match (parsed lines).1 with Ok p => p_nodes p | _ => [] end.

Definition run (lines : list string) : Outcome :=
  compile_program 200 (Toy.source lines) false.

Definition is_Returned (o : Outcome) : bool :=
  match o with Returned _ _ _ _ => true | _ => false end.

Definition anonymous_loop : list string := ["for _ in 0:2:"; "end"].
Definition anonymous_loop_teal : list string :=
  ["// for _ in 0:2:"; "  pushint 0"; "  dup"; "  l0_for:"; "  pushint 2";
   "  =="; "  bnz l0_end"; "  pushint 1"; "  +"; "  dup"; "  b l0_for";
   "  pop"; "  l0_end: // end"].
Definition named_loop : list string := ["for i in 0:2:"; "end"].
Definition bad_index : list string := ["inner_txn:"; "Accounts[1]: 1"; "end"].
Definition colliding_blocks : list string :=
  ["block a:"; "block b:"; "end"; "end"; "block a__b:"; "end"; "jump a__b"].
Definition redeclared : list string :=
  ["const int X = 1"; "const int X = 2"; "block a:"; "end"; "block a:"; "end";
   "func f():"; "return"; "end"; "func f():"; "return"; "end"].
Definition field_block : list string :=
  ["inner_txn:"; "# fee first"; "Fee: 0"; "Accounts[0]: 1"; "Type: 2";
   "Accounts[1]: 3"; "end"].
Definition switch_block : list string :=
  ["switch 1:"; "1: a"; "2: b"; "else: a"; "end"; "block a:"; "end";
   "block b:"; "end"].

(** The [InnerTxn] node of [field_block] and the [Switch] node of
    [switch_block]. *)
Definition field_node : NodeInfo * list InnerTxnFieldSetter :=
  match nodes_of field_block with
  | [InnerGroup _ [InnerTxn i fs]] => (i, fs)
  | _ => ({| n_line := EmptyString; n_line_no := 0; n_scope := 0 |}, [])
  end.
Definition switch_node : NodeInfo * Toy.expr * list SwitchChild :=
  match nodes_of switch_block with
  | Switch i e cs :: _ => (i, e, cs)
  | _ => ({| n_line := EmptyString; n_line_no := 0; n_scope := 0 |}, Toy.EInt "0", [])
  end.

(** The state in which the parser meets the first line of [lines]: one
    scope, no line consumed. *)
Definition start_of (lines : list string) : TealishCompiler :=
  (new_scope EmptyString None None (TealishCompiler_init lines)).2.

Definition root_scope : Scope LitValue := Scope_init EmptyString None None.

Definition bad_node : NodeInfo * list InnerTxnFieldSetter :=
  ({| n_line := "inner_txn:"; n_line_no := 1; n_scope := 0 |},
   [{| fs_info := {| n_line := "Accounts[1]: 1"; n_line_no := 2; n_scope := 0 |};
       fs_field_name := "Accounts"; fs_index := Some "1";
       fs_expression := Toy.EInt "1" |}]).

Definition forward_program : list string :=
  ["jump later"; "int y = f()"; "block later:"; "exit(1)"; "end";
   "func f() int:"; "return 1"; "end"].
Definition later_block : list string := ["block later:"; "end"].
Definition later_func : list string := ["func f() int:"; "return 1"; "end"].
Definition later_result : Result Node * TealishCompiler :=
  Block_consume (Statement_consume 10) 10 [] 0 (start_of later_block).
Definition later_node : Node :=
  Block {| n_line := "block later:"; n_line_no := 1; n_scope := 1 |}
        "later" "later" [].
Definition here : NodeInfo := {| n_line := "x = 1"; n_line_no := 1; n_scope := 0 |}.
End Demo.

(** * Theorems *)

Section WriteInvariant.
Context `{Expressions}.

Lemma write_one_inv p n c s :
  source_map_inv c → source_map_inv (write_one p n c s).
Proof.
  intros [Hk Hc]. split; simpl.
  - intros k. rewrite length_app. simpl. rewrite Hc.
    destruct (decide (k = S (length (output c)))) as [->|Hne].
    + rewrite lookup_insert_eq. split; [lia | eauto].
    + rewrite lookup_insert_ne by done. rewrite Hk. lia.
  - rewrite length_app. simpl. lia.
Qed.

Lemma write_lines_inv lines n c :
  source_map_inv c → source_map_inv (write_lines lines n c).
Proof.
  unfold write_lines. generalize (PyStr.repeat "  " (Z.to_nat (level c))).
  intros p. revert c. induction lines as [|l lines IH]; intros c Hc; simpl.
  - done.
  - apply IH. by apply write_one_inv.
Qed.

Lemma init_inv lines : source_map_inv (TealishCompiler_init lines).
Proof.
  split; simpl; [|done]. intros k. rewrite lookup_empty. split.
  - intros [? ?]. done.
  - lia.
Qed.

Lemma write_steps_inv (lines : list string) (steps : list WriteStep) :
  source_map_inv (foldl write_step (TealishCompiler_init lines) steps).
Proof.
  generalize (init_inv lines). generalize (TealishCompiler_init lines).
  induction steps as [|s steps IH]; intros c Hc; simpl; [done|].
  apply IH. destruct s; simpl.
  - by apply write_lines_inv.
  - destruct Hc as [? ?]. by split.
Qed.
End WriteInvariant.


Section MonadLemmas.
Context `{Expressions}.

Lemma bind_Ok {A B} (m : M A) (k : A → M B) c b c' :
  bind m k c = (Ok b, c') →
  ∃ a c1, m c = (Ok a, c1) ∧ k a c1 = (Ok b, c').
Proof.
  unfold bind. destruct (m c) as [[a|e|] c1]; intros Hk; try discriminate.
  eauto.
Qed.

Lemma output_write_lines lines n c :
  output (write_lines lines n c) = output c ++ indent c lines.
Proof.
  unfold write_lines, indent.
  generalize (PyStr.repeat "  " (Z.to_nat (level c))). intros p.
  revert c. induction lines as [|l lines IH]; intros c; simpl.
  - by rewrite app_nil_r.
  - rewrite IH. simpl. by rewrite <- app_assoc.
Qed.

Lemma scopes_write_lines lines n c : scopes (write_lines lines n c) = scopes c.
Proof.
  unfold write_lines. generalize (PyStr.repeat "  " (Z.to_nat (level c))).
  intros p. revert c. induction lines as [|l lines IH]; intros c; simpl; [done|].
  by rewrite IH.
Qed.

Lemma level_write_lines lines n c : level (write_lines lines n c) = level c.
Proof.
  unfold write_lines. generalize (PyStr.repeat "  " (Z.to_nat (level c))).
  intros p. revert c. induction lines as [|l lines IH]; intros c; simpl; [done|].
  by rewrite IH.
Qed.

Lemma line_no_write_lines lines n c : line_no (write_lines lines n c) = line_no c.
Proof.
  unfold write_lines. generalize (PyStr.repeat "  " (Z.to_nat (level c))).
  intros p. revert c. induction lines as [|l lines IH]; intros c; simpl; [done|].
  by rewrite IH.
Qed.

(** Two states with the same heap of scopes resolve names alike. *)
Lemma get_scope_ext c c' s : scopes c' = scopes c → get_scope c' s = get_scope c s.
Proof. intros E. unfold get_scope, get_scopes. by rewrite E. Qed.

Lemma get_block_ext c c' s b :
  scopes c' = scopes c → get_block c' s b = get_block c s b.
Proof. intros E. unfold get_block, get_blocks, get_scopes. by rewrite E. Qed.

Lemma indent_ext c c' ls : level c' = level c → indent c' ls = indent c ls.
Proof. intros E. unfold indent. by rewrite E. Qed.

Lemma indent_app c l1 l2 : indent c (l1 ++ l2) = indent c l1 ++ indent c l2.
Proof. unfold indent. by rewrite fmap_app. Qed.

Lemma wrote_refl c : wrote c c [].
Proof. unfold wrote. by rewrite app_nil_r. Qed.

Lemma wrote_write c n lines : wrote c (write_lines lines n c) lines.
Proof.
  unfold wrote. rewrite output_write_lines, scopes_write_lines,
    level_write_lines, line_no_write_lines. done.
Qed.

Lemma wrote_trans c1 c2 c3 l1 l2 :
  wrote c1 c2 l1 → wrote c2 c3 l2 → wrote c1 c3 (l1 ++ l2).
Proof.
  intros (O1 & S1 & L1 & N1) (O2 & S2 & L2 & N2). unfold wrote.
  rewrite O2, O1, S2, S1, L2, L1, N2, N1, indent_app, <- app_assoc.
  by rewrite (indent_ext c1 c2).
Qed.

Lemma process_expression_Ok i e c r c' :
  process_expression i e c = (Ok r, c') →
  c' = c ∧ Expr_process (get_scope c (n_scope i)) e = Ok r.
Proof.
  unfold process_expression, bind, get, lift. simpl.
  destruct (Expr_process _ e); intros [= <- <-]; done.
Qed.
End MonadLemmas.

Section SwitchSpec.
Context `{Expressions}.

Lemma Switch_visit_options_Ok i subject options c c' :
  Switch_visit_options i subject options c = (Ok tt, c') →
  ∃ body,
    Forall2 (option_lines (get_scope c (n_scope i)) (get_blocks c (n_scope i))
                          subject) options body
    ∧ wrote c c' (concat body).
Proof.
  revert c. induction options as [|[e bn] options IH]; intros c; simpl.
  - intros [= <-]. exists []. split; [constructor | apply wrote_refl].
  - intros Hv.
    apply bind_Ok in Hv as ([t teal] & c1 & Hp & Hv).
    apply process_expression_Ok in Hp as [-> Hp].
    unfold Node_write, write1, Node_write, compiler_write in Hv.
    repeat (apply bind_Ok in Hv as (? & ? & [= <- <-] & Hv)).
    set (c2 := write_lines _ _ (write_lines _ _ (write_lines _ _ c))) in *.
    assert (W2 : wrote c c2 (subject ++ teal ++ ["=="])).
    { subst c2. eapply wrote_trans; [apply wrote_write|].
      eapply wrote_trans; apply wrote_write. }
    destruct (get_block c2 (n_scope i) bn) as [label|] eqn:Hb; [|discriminate].
    apply bind_Ok in Hv as (? & ? & [= <- <-] & Hv).
    apply IH in Hv as (body & Hbody & W).
    assert (W3 : wrote c (write_lines ["bnz " +:+ label] (n_line_no i) c2)
                   (subject ++ teal ++ ["=="; "bnz " +:+ label])).
    { replace (subject ++ teal ++ ["=="; "bnz " +:+ label])
        with ((subject ++ teal ++ ["=="]) ++ ["bnz " +:+ label])
        by (by rewrite <- !app_assoc).
      eapply wrote_trans; [exact W2 | apply wrote_write]. }
    destruct W3 as (O3 & S3 & L3 & N3).
    exists ((subject ++ teal ++ ["=="; "bnz " +:+ label]) :: body). split.
    + constructor.
      * exists t, teal, label. split; [done|]. split; [|done].
        rewrite <- Hb. unfold get_block, get_blocks, get_scopes.
        destruct W2 as (_ & -> & _). done.
      * unfold get_scope, get_blocks, get_scopes in *. by rewrite S3 in Hbody.
    + simpl. eapply wrote_trans; [|exact W]. done.
Qed.
End SwitchSpec.


Section SwitchThm.
Context `{Expressions}.

End SwitchThm.


Section InnerTxnSpec.
Context `{Expressions}.

Lemma af_get_touch name k af : af_get name (af_touch k af) = af_get name af.
Proof.
  induction af as [|[k' v] af IH]; simpl.
  - destruct (String.eqb k name); done.
  - destruct (String.eqb k' k) eqn:E; simpl; [done|].
    by rewrite IH.
Qed.

Lemma af_append_touch k n af : af_append k n (af_touch k af) = af_append k n af.
Proof.
  induction af as [|[k' v] af IH]; simpl.
  - by rewrite String.eqb_refl.
  - destruct (String.eqb k' k) eqn:E; simpl; rewrite E; [done|].
    by rewrite IH.
Qed.

Lemma af_get_append name k n af :
  af_get name (af_append k n af)
  = if String.eqb k name then af_get name af ++ [n] else af_get name af.
Proof.
  induction af as [|[k' v] af IH]; simpl.
  - destruct (String.eqb k name); done.
  - destruct (String.eqb k' k) eqn:E; simpl.
    + apply String.eqb_eq in E as ->.
      destruct (String.eqb k name); done.
    + destruct (String.eqb k' name) eqn:E'; [|done].
      apply String.eqb_eq in E' as ->.
      rewrite String.eqb_sym in E. by rewrite E.
Qed.

Lemma array_fields_of_snoc nodes n :
  array_fields_of (nodes ++ [n]) = array_step (array_fields_of nodes) n.
Proof. unfold array_fields_of. by rewrite foldl_app. Qed.

(** The list of a name holds the indexed fields of that name, in source
    order. *)
Lemma af_get_array_fields name nodes :
  af_get name (array_fields_of nodes)
  = filter (fun m => same_array name m = true) nodes.
Proof.
  induction nodes as [|n nodes IH] using rev_ind; [done|].
  rewrite array_fields_of_snoc, filter_app. unfold array_step, same_array at 2.
  destruct (is_indexed n) eqn:Ei; simpl.
  - rewrite af_get_append, IH.
    destruct (String.eqb (fs_field_name n) name) eqn:E.
    + rewrite filter_cons_True; [done|]. unfold same_array. by rewrite Ei, E.
    + rewrite filter_cons_False, filter_nil, app_nil_r; [done|].
      unfold same_array. rewrite Ei, E. simpl. congruence.
  - rewrite IH, filter_cons_False, filter_nil, app_nil_r; [done|].
    unfold same_array. rewrite Ei. simpl. congruence.
Qed.

Lemma af_keys_append k n af :
  (af_append k n af).*1 = af.*1 ++ (if decide (k ∈ af.*1) then [] else [k]).
Proof.
  induction af as [|[k' v] af IH].
  - simpl. destruct (decide (k ∈ [])) as [Hin|_]; [by apply elem_of_nil in Hin | done].
  - cbn [af_append]. destruct (String.eqb k' k) eqn:E; rewrite !fmap_cons; cbn [fst].
    + apply String.eqb_eq in E as ->.
      rewrite decide_True by apply list_elem_of_here. by rewrite app_nil_r.
    + rewrite IH. apply String.eqb_neq in E.
      destruct (decide (k ∈ af.*1)) as [Hin|Hin].
      * rewrite decide_True by by apply list_elem_of_further. done.
      * rewrite decide_False; [done|].
        intros [->|?]%elem_of_cons; done.
Qed.

Lemma array_fields_NoDup nodes : NoDup (array_fields_of nodes).*1.
Proof.
  induction nodes as [|n nodes IH] using rev_ind; [constructor|].
  rewrite array_fields_of_snoc. unfold array_step.
  destruct (is_indexed n); [|done].
  rewrite af_keys_append. destruct (decide _) as [Hin|Hin].
  - by rewrite app_nil_r.
  - apply NoDup_app. split; [done|]. split.
    + intros x Hx ->%list_elem_of_singleton. done.
    + apply NoDup_singleton.
Qed.

Lemma af_get_elem name g (af : ArrayFields) :
  NoDup af.*1 → (name, g) ∈ af → af_get name af = g.
Proof.
  induction af as [|[k v] af IH]; simpl; intros Hnd Hin.
  - by apply elem_of_nil in Hin.
  - apply NoDup_cons in Hnd as [Hk Hnd].
    apply elem_of_cons in Hin as [[= <- <-]|Hin].
    + by rewrite String.eqb_refl.
    + destruct (String.eqb k name) eqn:E; [|by apply IH].
      apply String.eqb_eq in E as ->. exfalso. apply Hk.
      apply list_elem_of_fmap. by exists (name, g).
Qed.

(** Each list of [array_fields] is the indexed fields of one name in
    source order, and no name has two lists. *)
Lemma array_fields_grouped nodes name g :
  (name, g) ∈ array_fields_of nodes →
  g = filter (fun m => same_array name m = true) nodes.
Proof.
  intros Hin. rewrite <- af_get_array_fields. symmetry.
  apply af_get_elem; [apply array_fields_NoDup | done].
Qed.

(** In a sequence that passes the test, the k-th field of a name has
    index k. *)
Lemma in_sequence_index seen nodes :
  in_sequence seen nodes = true →
  ∀ k n ix, nodes !! k = Some n → fs_index n = Some ix →
    PyStr.int_of_digits ix
    = length (filter (fun m => same_array (fs_field_name n) m = true)
                     (seen ++ take k nodes)).
Proof.
  revert seen. induction nodes as [|m nodes IH]; intros seen Hs k n ix Hk Hix.
  - done.
  - simpl in Hs. apply andb_prop in Hs as [Hm Hs].
    destruct k as [|k]; simpl in Hk.
    + injection Hk as ->. rewrite Hix in Hm. apply Nat.eqb_eq in Hm.
      simpl. by rewrite app_nil_r.
    + specialize (IH _ Hs k n ix Hk Hix). rewrite IH. simpl.
      by rewrite <- app_assoc.
Qed.

Lemma filter_take_length {A} (P : A → Prop) `{∀ x, Decision (P x)} (l : list A) k x :
  filter P l !! k = Some x →
  ∃ j, l !! j = Some x ∧ P x ∧ length (filter P (take j l)) = k.
Proof.
  revert k. induction l as [|y l IH]; intros k; simpl.
  - rewrite filter_nil. done.
  - destruct (decide (P y)) as [Hy|Hy].
    + rewrite filter_cons_True by done. destruct k as [|k]; simpl.
      * intros [= ->]. exists 0. done.
      * intros (j & Hj & Hx & Hl)%IH. exists (S j). simpl.
        rewrite filter_cons_True by done. simpl. auto.
    + rewrite filter_cons_False by done.
      intros (j & Hj & Hx & Hl)%IH. exists (S j). simpl.
      rewrite filter_cons_False by done. auto.
Qed.

Lemma array_fields_ascending nodes name g k n :
  in_sequence [] nodes = true →
  (name, g) ∈ array_fields_of nodes → g !! k = Some n →
  fs_field_name n = name ∧ PyStr.int_of_digits <$> fs_index n = Some k.
Proof.
  intros Hs Hin Hk. apply array_fields_grouped in Hin as ->.
  apply filter_take_length in Hk as (j & Hj & Hx & Hl).
  unfold same_array in Hx. apply andb_prop in Hx as [Hi Hn].
  apply String.eqb_eq in Hn. split; [done|].
  unfold is_indexed in Hi. destruct (fs_index n) as [ix|] eqn:Hix; [|done].
  simpl. f_equal.
  rewrite (in_sequence_index [] nodes Hs j n ix Hj Hix). simpl.
  by rewrite Hn.
Qed.
End InnerTxnSpec.


Section InnerTxnThm.
Context `{Expressions}.

Lemma InnerTxn_set_field_Ok i n c c' :
  InnerTxn_set_field i n c = (Ok tt, c') →
  ∃ ls, field_lines (get_scope c (n_scope i)) n ls ∧ wrote c c' ls.
Proof.
  unfold InnerTxn_set_field. intros Hv.
  apply bind_Ok in Hv as ([t teal] & ? & Hp & Hv).
  apply process_expression_Ok in Hp as [-> Hp].
  unfold write1, Node_write, compiler_write in Hv.
  apply bind_Ok in Hv as (? & ? & [= <- <-] & [= <-]).
  exists (teal ++ ["itxn_field " +:+ fs_field_name n]). split.
  - by exists t, teal.
  - eapply wrote_trans; apply wrote_write.
Qed.

Lemma InnerTxn_visit_nodes_Ok i nodes seen c af' c' :
  InnerTxn_visit_nodes i nodes (array_fields_of seen) c = (Ok af', c') →
  in_sequence seen nodes = true
  ∧ af' = array_fields_of (seen ++ nodes)
  ∧ ∃ scalars,
      Forall2 (field_lines (get_scope c (n_scope i))) (scalar_fields nodes) scalars
      ∧ wrote c c' (concat scalars).
Proof.
  revert seen c. induction nodes as [|n nodes IH]; intros seen c; simpl.
  - intros [= <- <-]. rewrite app_nil_r. split; [done|]. split; [done|].
    exists []. split; [constructor | apply wrote_refl].
  - unfold scalar_fields. destruct (fs_index n) as [ix|] eqn:Hix.
    + rewrite af_get_touch, af_append_touch, af_get_array_fields.
      destruct (_ =? _)%nat eqn:E.
      * replace (af_append (fs_field_name n) n (array_fields_of seen))
          with (array_fields_of (seen ++ [n])).
        2:{ rewrite array_fields_of_snoc. unfold array_step, is_indexed.
            by rewrite Hix. }
        intros (Hs & -> & scalars & Hsc & W)%IH.
        rewrite Nat.eqb_sym in E. rewrite E. simpl.
        rewrite <- app_assoc. simpl. split; [done|]. split; [done|].
        exists scalars. split; [|done].
        rewrite filter_cons_False; [done|].
        unfold is_indexed. rewrite Hix. congruence.
      * intros Hv. apply bind_Ok in Hv as (? & ? & _ & Hv). discriminate.
    + intros Hv. apply bind_Ok in Hv as ([] & c1 & Hf & Hv).
      apply InnerTxn_set_field_Ok in Hf as (ls & Hls & W1).
      assert (Es : array_fields_of (seen ++ [n]) = array_fields_of seen).
      { rewrite array_fields_of_snoc. unfold array_step, is_indexed.
        by rewrite Hix. }
      rewrite <- Es in Hv.
      apply IH in Hv as (Hs & -> & scalars & Hsc & W).
      rewrite Hs, <- app_assoc. simpl. split; [done|]. split; [done|].
      exists (ls :: scalars). split.
      * rewrite filter_cons_True by (unfold is_indexed; by rewrite Hix).
        constructor; [done|].
        by rewrite (get_scope_ext c c1) in Hsc by apply W1.
      * simpl. eapply wrote_trans; done.
Qed.

Lemma InnerTxn_visit_fields_Ok i fields c c' :
  InnerTxn_visit_fields i fields c = (Ok tt, c') →
  ∃ ls, Forall2 (field_lines (get_scope c (n_scope i))) fields ls
        ∧ wrote c c' (concat ls).
Proof.
  revert c. induction fields as [|n fields IH]; intros c; simpl.
  - intros [= <-]. exists []. split; [constructor | apply wrote_refl].
  - intros Hv. apply bind_Ok in Hv as ([] & c1 & Hf & Hv).
    apply InnerTxn_set_field_Ok in Hf as (l & Hl & W1).
    apply IH in Hv as (ls & Hls & W).
    exists (l :: ls). split.
    + constructor; [done|].
      by rewrite (get_scope_ext c c1) in Hls by apply W1.
    + simpl. eapply wrote_trans; done.
Qed.

(** C3: the order of the fields of an inner transaction.  When
    [InnerTxn.visit] succeeds, the indices of every array field came in
    the order 0, 1, 2, ...; each buffer holds the setters of one field name
    in source order, the setter at position [k] having the index [k]; and
    the output is the comment line, the fields without an index in source
    order, then the buffers one after the other.  When the indices of some
    field name do not come in that order, the visit does not succeed. *)
Theorem InnerTxn_visit_order i nodes c :
  (∀ c', InnerTxn_visit i nodes c = (Ok tt, c') → InnerTxn_emits i nodes c c')
  ∧ (in_sequence [] nodes = false → (InnerTxn_visit i nodes c).1 ≠ Ok tt).
Proof.
  assert (Hok : ∀ c', InnerTxn_visit i nodes c = (Ok tt, c')
                      → InnerTxn_emits i nodes c c').
  { intros c' Hv. unfold InnerTxn_visit in Hv.
    unfold write1, Node_write, compiler_write in Hv.
    apply bind_Ok in Hv as (? & ? & [= <- <-] & Hv).
    set (c1 := write_lines _ _ c) in *.
    assert (W1 : wrote c c1 ["// " +:+ n_line i]) by apply wrote_write.
    apply bind_Ok in Hv as (af & c2 & Hn & Hv).
    apply (InnerTxn_visit_nodes_Ok i nodes []) in Hn as (Hs & -> & scalars & Hsc & W2).
    simpl in Hv. apply InnerTxn_visit_fields_Ok in Hv as (arrays & Har & W3).
    rewrite (get_scope_ext c c1) in Hsc by apply W1.
    rewrite (get_scope_ext c1 c2), (get_scope_ext c c1) in Har
      by (apply W1 || apply W2).
    split; [done|]. split.
    - intros name g k n Hin Hk. split.
      + by apply array_fields_grouped.
      + by eapply array_fields_ascending.
    - exists scalars, arrays. split; [done|]. split; [done|].
      pose proof (wrote_trans _ _ _ _ _ W1 (wrote_trans _ _ _ _ _ W2 W3)) as W.
      destruct W as (-> & _). done. }
  split; [done|].
  intros Hs Hv. pose proof (Hok (InnerTxn_visit i nodes c).2) as Hk.
  destruct (InnerTxn_visit i nodes c) as [r c']. simpl in *. subst r.
  destruct (Hk eq_refl) as [E _]. congruence.
Qed.
End InnerTxnThm.


Section NodeInduction.
Context `{Expressions}.

(** Induction on the statements: a property holds of every statement if it
    holds of a statement whenever it holds of the statements below it. *)
Lemma Node_children_ind (P : Node → Prop) :
  (∀ n, Forall P (children n) → P n) → ∀ n, P n.
Proof.
  intros Hstep. fix IH 1. intros n. apply Hstep.
  destruct n as [| | | | | | | | | | | | |? ? ? ns| | | |? ns|? ? ? ? ? cs
                 |? ? ? ? ? ? ns|? ? ? ? ? ? ? ns|? ? ? ? ns]; simpl;
    try apply Forall_nil_2;
    try (induction ns as [|m ns IHns]; [apply Forall_nil_2 | apply Forall_cons_2; [apply IH | apply IHns]]).
  induction cs as [|[h ns] cs IHcs]; simpl; [apply Forall_nil_2|].
  apply Forall_app_2; [|apply IHcs].
  induction ns as [|m ns IHns]; [apply Forall_nil_2 | apply Forall_cons_2; [apply IH | apply IHns]].
Qed.
End NodeInduction.


Section GenSteps.
Context `{Expressions}.

Lemma Gen_ret {A} (a : A) : Gen (ret a).
Proof. intros c r c' [= <- <-]. done. Qed.
Lemma Gen_raise {A} e : Gen (@raise _ A e).
Proof. intros c r c' [= <- <-]. done. Qed.
Lemma Gen_get : Gen get.
Proof. intros c r c' [= <- <-]. done. Qed.
Lemma Gen_lift {A} (x : Result A) : Gen (lift x).
Proof. intros c r c' [= <- <-]. done. Qed.

Lemma Gen_bind {A B} (m : M A) (k : A → M B) :
  Gen m → (∀ a, Gen (k a)) → Gen (bind m k).
Proof.
  intros Hm Hk c r c'. unfold bind.
  destruct (m c) as [[a|e|] c1] eqn:E.
  - intros Hka. etrans; [by eapply Hm | by eapply Hk].
  - intros [= <- <-]. by eapply Hm.
  - intros [= <- <-]. by eapply Hm.
Qed.

Lemma Gen_try_except {A} (m : M A) h :
  Gen m → (∀ e, Gen (h e)) → Gen (try_except m h).
Proof.
  intros Hm Hh c r c'. unfold try_except.
  destruct (m c) as [[a|e|] c1] eqn:E.
  - intros [= <- <-]. by eapply Hm.
  - intros Hhe. etrans; [by eapply Hm | by eapply Hh].
  - intros [= <- <-]. by eapply Hm.
Qed.

Lemma Gen_write lines n : Gen (compiler_write lines n).
Proof. intros c r c' [= <- <-]. apply rtc_once. constructor. Qed.
Lemma Gen_Node_write i lines : Gen (Node_write i lines).
Proof. apply Gen_write. Qed.
Lemma Gen_write1 i s : Gen (write1 i s).
Proof. apply Gen_write. Qed.
Lemma Gen_add_level d : Gen (add_level d).
Proof. intros c r c' [= <- <-]. apply rtc_once. constructor. Qed.
Lemma Gen_error_message (f : TealishCompiler → gmap nat string) :
  Gen (modify (fun c => set_error_messages (f c) c)).
Proof. intros c r c' [= <- <-]. apply rtc_once. constructor. Qed.
Lemma Gen_declare_var s name ty : Gen (declare_var s name ty).
Proof.
  intros c r c' E. destruct r as [slot|e|].
  - apply rtc_once. by econstructor.
  - unfold declare_var in E. repeat case_match; simplify_eq; done.
  - unfold declare_var in E. repeat case_match; simplify_eq; done.
Qed.
Lemma Gen_del_var s name : Gen (del_var s name).
Proof. intros c r c' E. apply rtc_once. injection E as <- <-. by econstructor. Qed.
Lemma Gen_register_const s name ty v : Gen (register_const s name ty v).
Proof. intros c r c' E. apply rtc_once. injection E as <- <-. by econstructor. Qed.
Lemma Gen_process_expression i e : Gen (process_expression i e).
Proof. apply Gen_bind; [apply Gen_get | intros; apply Gen_lift]. Qed.
Lemma Gen_py_assert b m : Gen (py_assert b m).
Proof. unfold py_assert. destruct b; [apply Gen_ret | apply Gen_raise]. Qed.
End GenSteps.

Create HintDb gen discriminated.
#[export] Hint Resolve Gen_ret Gen_raise Gen_get Gen_lift Gen_write Gen_Node_write
  Gen_write1 Gen_add_level Gen_error_message Gen_declare_var Gen_del_var
  Gen_register_const Gen_process_expression Gen_py_assert : gen.

(** Goes through a piece of code of the generation pass: the binds, the case
    distinctions, and the calls known to the hint database. *)
Ltac gen_auto :=
  repeat first
    [ solve [eauto with gen]
    | apply Gen_bind; [|intros]
    | apply Gen_try_except; [|intros]
    | match goal with
      | |- Gen (match ?x with _ => _ end) => destruct x
      | |- Gen (let '(_, _) := ?x in _) => destruct x
      end ].

Section GenVisit.
Context `{Expressions}.

Lemma Gen_Assignment_stores i targets : Gen (Assignment_stores i targets).
Proof. induction targets as [|[name ty] targets IH]; simpl; gen_auto. Qed.

Lemma Gen_Return_args i args : Gen (Return_args i args).
Proof. induction args as [|a args IH]; simpl; gen_auto. Qed.

Lemma Gen_process n : Gen (process n).
Proof.
  pose proof Gen_Assignment_stores. pose proof Gen_Return_args.
  destruct n; simpl; unfold Declaration_process; gen_auto.
Qed.
End GenVisit.


Section GenVisitTree.
Context `{Expressions}.
Variable visit_child : Node → M unit.

Lemma Gen_visit_all ns :
  Forall (fun m => Gen (visit_child m)) ns → Gen (visit_all visit_child ns).
Proof. induction 1; simpl; gen_auto. Qed.

Lemma Gen_Node_visit i (p k : M unit) : Gen p → Gen k → Gen (Node_visit i p k).
Proof. intros. unfold Node_visit. gen_auto. Qed.

#[local] Hint Resolve Gen_visit_all : gen.

Lemma Gen_Teal_visit ls : Gen (Teal_visit ls).
Proof. induction ls; simpl; [gen_auto|]. apply Gen_bind; [|done].
  apply Gen_Node_visit; gen_auto. Qed.

Lemma Gen_InnerGroup_visit i ns :
  Forall (fun m => Gen (visit_child m)) ns → Gen (InnerGroup_visit visit_child i ns).
Proof.
  intros Hns. unfold InnerGroup_visit. gen_auto.
  induction Hns; simpl; gen_auto.
Qed.

Lemma Gen_visit_clause h ns l :
  Forall (fun m => Gen (visit_child m)) ns → Gen (visit_clause visit_child h ns l).
Proof.
  intros Hns. apply Gen_Node_visit; [|by apply Gen_visit_all].
  destruct h; simpl; gen_auto.
Qed.

Lemma Gen_branch_unless i m l : Gen (branch_unless i m l).
Proof. unfold branch_unless. gen_auto. Qed.

#[local] Hint Resolve Gen_visit_clause Gen_branch_unless : gen.

Lemma Gen_IfStatement_visit i cond m e cs :
  Forall (fun m => Gen (visit_child m)) (mjoin (snd <$> cs)) →
  Gen (IfStatement_visit visit_child i cond m e cs).
Proof.
  intros Hcs. unfold IfStatement_visit.
  assert (Hcl : Forall (fun c => Forall (fun m => Gen (visit_child m)) c.2) cs).
  { induction cs as [|[h ns] cs IH]; simpl in *; [constructor|].
    apply Forall_app in Hcs as [? ?]. constructor; auto. }
  clear Hcs.
  assert (He : ∀ cs', Forall (fun c => Forall (fun m => Gen (visit_child m)) c.2) cs' →
               Gen (visit_elifs visit_child i e (existsb is_Else cs) cs')).
  { intros cs' Hcs'. induction Hcs' as [|[h ns] cs' Hns Hcs' IH]; simpl; [gen_auto|].
    destruct h; [done| |done]. simpl in Hns. gen_auto. }
  assert (Hl : ∀ cs', Forall (fun c => Forall (fun m => Gen (visit_child m)) c.2) cs' →
               Gen (default (ret tt) (visit_else visit_child i e cs'))).
  { intros cs' Hcs'. induction Hcs' as [|[h ns] cs' Hns Hcs' IH]; simpl; [gen_auto|].
    destruct h; [done|done|]. simpl in Hns.
    destruct (visit_else visit_child i e cs'); [done|]. simpl. gen_auto. }
  destruct cs as [|[h ns] rest]; [gen_auto|].
  inversion Hcl as [|? ? Hns ?]; subst. simpl in Hns. gen_auto.
Qed.

Lemma Gen_WhileStatement_visit i cond m s e ns :
  Forall (fun m => Gen (visit_child m)) ns →
  Gen (WhileStatement_visit visit_child i cond m s e ns).
Proof.
  intros Hns%Gen_visit_all. unfold WhileStatement_visit. gen_auto.
Qed.

Lemma Gen_ForStatement_visit i var a b s e ns :
  Forall (fun m => Gen (visit_child m)) ns →
  Gen (ForStatement_visit visit_child i var a b s e ns).
Proof.
  intros Hns%Gen_visit_all.
  unfold ForStatement_visit, visit_implicit_counter, visit_explicit_counter.
  gen_auto.
Qed.

Lemma Gen_Func_visit i args l ns :
  Forall (fun m => Gen (visit_child m)) ns →
  Gen (Func_visit visit_child i args l ns).
Proof.
  intros Hns%Gen_visit_all. unfold Func_visit. gen_auto.
  induction (rev args) as [|[name ty] args' IH]; simpl; gen_auto.
Qed.
End GenVisitTree.

Section GenCompile.
Context `{Expressions}.

Lemma Gen_Switch_visit i e nodes : Gen (Switch_visit i e nodes).
Proof.
  unfold Switch_visit. gen_auto.
  induction (Switch_options nodes) as [|[oe bn] os IH]; simpl; gen_auto.
Qed.

Lemma Gen_InnerTxn_set_field i n : Gen (InnerTxn_set_field i n).
Proof. unfold InnerTxn_set_field. gen_auto. Qed.

Lemma Gen_InnerTxn_visit i nodes : Gen (InnerTxn_visit i nodes).
Proof.
  pose proof Gen_InnerTxn_set_field.
  unfold InnerTxn_visit. gen_auto.
  - generalize (@nil (string * list InnerTxnFieldSetter)).
    induction nodes as [|n nodes IH]; intros af; simpl; gen_auto.
  - induction (mjoin _) as [|n fs IH]; simpl; gen_auto.
Qed.

(** The generation pass changes the compiler object by the steps of
    [gen_step] only. *)
Lemma Gen_visit n : Gen (visit n).
Proof.
  induction n as [n IH] using Node_children_ind.
  destruct n; cbn [visit children] in *;
    first [ apply Gen_Node_visit; [apply Gen_process | first [by apply Gen_visit_all | gen_auto]]
          | apply Gen_Switch_visit | apply Gen_Teal_visit | apply Gen_InnerTxn_visit
          | by apply Gen_InnerGroup_visit | by apply Gen_IfStatement_visit
          | by apply Gen_WhileStatement_visit | by apply Gen_ForStatement_visit
          | by apply Gen_Func_visit ].
Qed.

Lemma Gen_Program_visit nodes : Gen (Program_visit nodes).
Proof. apply Gen_visit_all. apply Forall_forall. intros. apply Gen_visit. Qed.

Lemma Gen_compile p : Gen (compile p).
Proof. pose proof Gen_Program_visit. unfold compile. gen_auto. Qed.
End GenCompile.


Section ParseSteps.
Context `{Expressions}.

Lemma Par_ret {A} (a : A) : Par (ret a).
Proof. intros c r c' [= <- <-]. done. Qed.
Lemma Par_raise {A} e : Par (@raise _ A e).
Proof. intros c r c' [= <- <-]. done. Qed.
Lemma Par_diverge {A} : Par (@diverge _ A).
Proof. intros c r c' [= <- <-]. done. Qed.
Lemma Par_get : Par get.
Proof. intros c r c' [= <- <-]. done. Qed.
Lemma Par_lift {A} (x : Result A) : Par (lift x).
Proof. intros c r c' [= <- <-]. done. Qed.

Lemma Par_bind {A B} (m : M A) (k : A → M B) :
  Par m → (∀ a, Par (k a)) → Par (bind m k).
Proof.
  intros Hm Hk c r c'. unfold bind.
  destruct (m c) as [[a|e|] c1] eqn:E.
  - intros Hka. etrans; [by eapply Hm | by eapply Hk].
  - intros [= <- <-]. by eapply Hm.
  - intros [= <- <-]. by eapply Hm.
Qed.

Lemma Par_consume_line : Par consume_line.
Proof.
  intros c r c'. unfold consume_line.
  destruct (source_lines c !! line_no c); intros [= <- <-]; [|done].
  apply rtc_once. constructor.
Qed.
Lemma Par_peek : Par peek.
Proof. intros c r c' [= <- <-]. done. Qed.
Lemma Par_peek_is s : Par (peek_is s).
Proof. apply Par_bind; [apply Par_peek | intros; apply Par_ret]. Qed.
Lemma Par_peek_startswith ps : Par (peek_startswith ps).
Proof.
  apply Par_bind; [apply Par_peek | intros [l|]; [apply Par_ret | apply Par_raise]].
Qed.
Lemma Par_Node_init {A} cls pat (f : string → option A) line s :
  Par (Node_init cls pat f line s).
Proof.
  intros c r c'. unfold Node_init.
  destruct line as [l|]; [destruct (f l)|]; intros [= <- <-]; done.
Qed.
Lemma Par_parse_expression t : Par (parse_expression t).
Proof. apply Par_lift. Qed.
Lemma Par_parse_literal t : Par (parse_literal t).
Proof. apply Par_lift. Qed.
Lemma Par_add_child cls n b m : Par (add_child cls n b m).
Proof. unfold add_child. destruct (_ && _); [apply Par_raise | apply Par_ret]. Qed.
Lemma Par_next_conditional_index : Par next_conditional_index.
Proof.
  intros c r c' [= <- <-]. apply rtc_once. constructor.
Qed.
Lemma Par_register_block s name label : Par (register_block s name label).
Proof. intros c r c' E. apply rtc_once. injection E as <- <-. by econstructor. Qed.
Lemma Par_register_function s name f : Par (register_function s name f).
Proof. intros c r c' E. apply rtc_once. injection E as <- <-. by econstructor. Qed.
Lemma Par_new_scope name p : Par (new_scope name p None).
Proof. intros c r c' E. apply rtc_once. injection E as <- <-. by econstructor. Qed.
End ParseSteps.

Create HintDb par discriminated.
#[export] Hint Resolve Par_ret Par_raise Par_diverge Par_get Par_lift Par_consume_line
  Par_peek Par_peek_is Par_peek_startswith Par_Node_init Par_parse_expression
  Par_parse_literal Par_add_child Par_next_conditional_index Par_register_block
  Par_register_function Par_new_scope : par.

Ltac par_auto :=
  repeat first
    [ solve [eauto with par]
    | apply Par_bind; [|intros]
    | match goal with
      | |- Par (match ?x with _ => _ end) => destruct x
      | |- Par (let '(_, _) := ?x in _) => destruct x
      end ].

Section ParseStepsAll.
Context `{Expressions}.

Lemma Par_LineStatement_consume anc s : Par (LineStatement_consume anc s).
Proof. unfold LineStatement_consume. par_auto. Qed.

Lemma Par_Switch_consume fuel s : Par (Switch_consume fuel s).
Proof.
  unfold Switch_consume. par_auto.
  generalize (@nil SwitchChild). induction fuel as [|fuel IH]; intros ns; simpl; par_auto.
Qed.

Lemma Par_Teal_consume fuel s : Par (Teal_consume fuel s).
Proof.
  unfold Teal_consume. par_auto.
  generalize (@nil NodeInfo). induction fuel as [|fuel IH]; intros ns; simpl; par_auto.
Qed.

Lemma Par_InnerTxn_children fuel s ns : Par (InnerTxn_children fuel s ns).
Proof. revert ns. induction fuel as [|fuel IH]; intros ns; simpl; par_auto. Qed.

Lemma Par_InnerTxn_consume fuel anc s : Par (InnerTxn_consume fuel anc s).
Proof. pose proof Par_InnerTxn_children. unfold InnerTxn_consume. par_auto. Qed.

Section Children.
Variable consume_child : list Ancestor → nat → M Node.
Hypothesis Par_child : ∀ anc s, Par (consume_child anc s).

Lemma Par_consume_children fuel stop eat cls n b anc s ns :
  Par stop → Par (consume_children consume_child fuel stop eat cls n b anc s ns).
Proof.
  intros Hstop. revert ns. induction fuel as [|fuel IH]; intros ns; simpl; par_auto.
Qed.

#[local] Hint Resolve Par_consume_children : par.

Lemma Par_Block_consume fuel anc s : Par (Block_consume consume_child fuel anc s).
Proof. unfold Block_consume. par_auto. Qed.

Lemma Par_InnerGroup_consume fuel anc s :
  Par (InnerGroup_consume consume_child fuel anc s).
Proof. unfold InnerGroup_consume. par_auto. Qed.

Lemma Par_IfThen_consume fuel anc s : Par (IfThen_consume consume_child fuel anc s).
Proof. unfold IfThen_consume. par_auto. Qed.
Lemma Par_Elif_consume fuel anc s l : Par (Elif_consume consume_child fuel anc s l).
Proof. unfold Elif_consume. par_auto. Qed.
Lemma Par_Else_consume fuel anc s l : Par (Else_consume consume_child fuel anc s l).
Proof. unfold Else_consume. par_auto. Qed.

#[local] Hint Resolve Par_IfThen_consume Par_Elif_consume Par_Else_consume : par.

Lemma Par_IfStatement_children fuel anc s idx ns :
  Par (IfStatement_children consume_child fuel anc s idx ns).
Proof. revert ns. induction fuel as [|fuel IH]; intros ns; simpl; par_auto. Qed.

#[local] Hint Resolve Par_IfStatement_children : par.

Lemma Par_IfStatement_consume fuel anc s :
  Par (IfStatement_consume consume_child fuel anc s).
Proof. unfold IfStatement_consume. par_auto. Qed.
Lemma Par_WhileStatement_consume fuel anc s :
  Par (WhileStatement_consume consume_child fuel anc s).
Proof. unfold WhileStatement_consume. par_auto. Qed.
Lemma Par_ForStatement_consume fuel anc s :
  Par (ForStatement_consume consume_child fuel anc s).
Proof. unfold ForStatement_consume. par_auto. Qed.
Lemma Par_Func_consume fuel anc s : Par (Func_consume consume_child fuel anc s).
Proof. unfold Func_consume. par_auto. Qed.

Lemma Par_Statement_dispatch fuel anc s :
  Par (Statement_dispatch consume_child fuel anc s).
Proof.
  pose proof Par_Block_consume. pose proof Par_Switch_consume.
  pose proof Par_Func_consume. pose proof Par_IfStatement_consume.
  pose proof Par_WhileStatement_consume. pose proof Par_ForStatement_consume.
  pose proof Par_Teal_consume. pose proof Par_InnerGroup_consume.
  pose proof Par_InnerTxn_consume. pose proof Par_LineStatement_consume.
  unfold Statement_dispatch. par_auto.
Qed.
End Children.

Lemma Par_Statement_consume fuel anc s : Par (Statement_consume fuel anc s).
Proof.
  revert anc s. induction fuel as [|fuel IH]; intros anc s; simpl.
  - apply Par_diverge.
  - by apply Par_Statement_dispatch.
Qed.

Lemma Par_Program_consume fuel : Par (Program_consume fuel).
Proof.
  pose proof Par_Statement_consume.
  unfold Program_consume. par_auto.
  generalize (@nil Node). induction fuel as [|fuel IH]; intros ns; simpl; par_auto.
Qed.
End ParseStepsAll.


Section Heap.
Context `{Expressions}.

Lemma scopes_update_scope s f c :
  scopes (update_scope s f c)
  = match scopes c !! s with
    | Some sc => <[s := f sc]> (scopes c)
    | None => scopes c
    end.
Proof. unfold update_scope. by destruct (scopes c !! s). Qed.

Lemma lookup_update_scope s f c s' :
  scopes (update_scope s f c) !! s'
  = if decide (s' = s) then f <$> scopes c !! s else scopes c !! s'.
Proof.
  rewrite scopes_update_scope. destruct (scopes c !! s) as [sc|] eqn:E.
  - destruct (decide (s' = s)) as [->|Hne].
    + rewrite list_lookup_insert_eq; [done|]. by eapply lookup_lt_Some.
    + by rewrite list_lookup_insert_ne.
  - destruct (decide (s' = s)) as [->|Hne]; [by rewrite E | done].
Qed.

Lemma length_update_scope s f c :
  length (scopes (update_scope s f c)) = length (scopes c).
Proof.
  rewrite scopes_update_scope. destruct (scopes c !! s); [|done].
  by rewrite length_insert.
Qed.

Lemma max_slot_update_scope s f c : max_slot (update_scope s f c) = max_slot c.
Proof. unfold update_scope. by destruct (scopes c !! s). Qed.

Lemma output_update_scope s f c : output (update_scope s f c) = output c.
Proof. unfold update_scope. by destruct (scopes c !! s). Qed.
Lemma source_map_update_scope s f c : source_map (update_scope s f c) = source_map c.
Proof. unfold update_scope. by destruct (scopes c !! s). Qed.
Lemma current_output_line_update_scope s f c :
  current_output_line (update_scope s f c) = current_output_line c.
Proof. unfold update_scope. by destruct (scopes c !! s). Qed.
Lemma level_update_scope s f c : level (update_scope s f c) = level c.
Proof. unfold update_scope. by destruct (scopes c !! s). Qed.

(** When [declare_var] returns a slot, the state is changed as follows. *)
Lemma declare_var_Ok s name ty c slot c' :
  declare_var s name ty c = (Ok slot, c') →
  get_var c s name = None
  ∧ ∃ sc, scopes c !! s = Some sc
    ∧ (if is_func_scope sc then slot = (max_slot c + 1)%nat
       else find_slot c s = Ok slot)
    ∧ c' = update_scope s (fun sc => set_slots (<[name := (slot, ty)]> (sc_slots sc)) sc)
                        (set_max_slot (Nat.max (max_slot c) slot) c).
Proof.
  unfold declare_var. destruct (get_var c s name); [discriminate|].
  destruct (scopes c !! s) as [sc|] eqn:E; [|discriminate].
  unfold is_func_scope. destruct (PyStr.contains "func__" (sc_name sc)) eqn:F.
  - intros [= <- <-]. split; [done|]. exists sc. by rewrite ?F.
  - destruct (find_slot c s) as [k| |] eqn:Fs; try discriminate.
    intros [= <- <-]. split; [done|]. exists sc. by rewrite ?F.
Qed.

(** When it does not, the state is unchanged. *)
Lemma declare_var_not_Ok s name ty c r c' :
  declare_var s name ty c = (r, c') → (∀ slot, r ≠ Ok slot) → c' = c.
Proof.
  unfold declare_var. intros E Hr. repeat case_match; simplify_eq; try done.
  all: by destruct (Hr _ eq_refl).
Qed.

(** The second loop of [find_slot]. *)
Lemma first_fit_Some used i lo hi k :
  first_fit used i lo hi = Some k →
  (i ≤ k < i + length used)%nat ∧ (lo ≤ k ≤ hi)%nat ∧ used !! (k - i)%nat = Some false
  ∧ ∀ j, (i ≤ j < k)%nat → (lo ≤ j ≤ hi)%nat → used !! (j - i)%nat = Some true.
Proof.
  revert i. induction used as [|b used IH]; intros i; simpl; [done|].
  destruct (negb b && (lo <=? i)%nat && (i <=? hi)%nat) eqn:E.
  - intros [= <-]. apply andb_prop in E as [[Hb Hlo]%andb_prop Hhi].
    apply Nat.leb_le in Hlo, Hhi. destruct b; [done|].
    rewrite Nat.sub_diag. simpl. repeat split; try lia.
  - intros (Hk & Hr & Hu & Hmin)%IH. repeat split; try lia.
    + replace (k - i)%nat with (S (k - S i)) by lia. done.
    + intros j Hj Hjr. destruct (decide (j = i)) as [->|Hne].
      * rewrite Nat.sub_diag. simpl. f_equal. destruct b; [done|].
        simpl in E. apply andb_false_iff in E as [E|E]; apply Nat.leb_gt in E; lia.
      * replace (j - i)%nat with (S (j - S i)) by lia. simpl.
        apply Hmin; lia.
Qed.

Lemma first_fit_None used i lo hi :
  first_fit used i lo hi = None →
  ∀ j, (i ≤ j < i + length used)%nat → (lo ≤ j ≤ hi)%nat →
       used !! (j - i)%nat = Some true.
Proof.
  revert i. induction used as [|b used IH]; intros i; simpl; [intros; lia|].
  destruct (negb b && (lo <=? i)%nat && (i <=? hi)%nat) eqn:E; [done|].
  intros Hn j Hj Hjr. destruct (decide (j = i)) as [->|Hne].
  - rewrite Nat.sub_diag. simpl. f_equal. destruct b; [done|].
    simpl in E. apply andb_false_iff in E as [E|E]; apply Nat.leb_gt in E; lia.
  - replace (j - i)%nat with (S (j - S i)) by lia. simpl.
    apply IH; [done|lia|done].
Qed.

(** The first loop of [find_slot]: the marks of a list of slots that are
    all below the length of the table. *)
Lemma mark_used_Ok slots used :
  Forall (fun k => k < length used)%nat slots →
  ∃ used', foldl mark_used (Ok used) slots = Ok used'
    ∧ length used' = length used
    ∧ ∀ j, used' !! j = Some true ↔ (used !! j = Some true ∨ (j ∈ slots ∧ (j < length used)%nat)).
Proof.
  revert used. induction slots as [|k slots IH]; intros used Hs; simpl.
  - exists used. split; [done|]. split; [done|]. intros j. split; [auto|].
    intros [?|[?%elem_of_nil ?]]; done.
  - apply Forall_cons in Hs as [Hk Hs].
    rewrite decide_True by done.
    destruct (IH (<[k := true]> used)) as (used' & E & L & Hu).
    { by rewrite length_insert. }
    exists used'. split; [done|]. rewrite length_insert in L. split; [done|].
    intros j. rewrite Hu, length_insert. destruct (decide (j = k)) as [->|Hne].
    + rewrite list_lookup_insert_eq by done. split; [|auto].
      intros _. right. split; [apply list_elem_of_here | done].
    + rewrite list_lookup_insert_ne by done. split.
      * intros [?|[? ?]]; [auto|]. right. split; [by apply list_elem_of_further | done].
      * intros [?|[[->|?]%elem_of_cons ?]]; [auto|done|auto].
Qed.

Lemma mark_used_Raise slots e : foldl mark_used (Raise e) slots = Raise e.
Proof. induction slots; simpl; done. Qed.

Lemma mark_used_out slots used :
  ¬ Forall (fun k => k < length used)%nat slots →
  ∃ msg, foldl mark_used (Ok used) slots = Raise (IndexError msg).
Proof.
  revert used. induction slots as [|k slots IH]; intros used Hs; simpl.
  - destruct Hs. constructor.
  - destruct (decide (k < length used)%nat) as [Hk|Hk].
    + apply IH. rewrite length_insert. intros Hf. apply Hs. by constructor.
    + eexists. apply mark_used_Raise.
Qed.
End Heap.


Section HeapOk.
Context `{Expressions}.

Lemma get_scopes_from_fuel (h : list (Scope LitValue)) :
  (∀ s sc p, h !! s = Some sc → sc_parent sc = Some p → (p < s)%nat) →
  ∀ fuel1 fuel2 s, (s < fuel1)%nat → (s < fuel2)%nat →
    get_scopes_from fuel1 h s = get_scopes_from fuel2 h s.
Proof.
  intros Hp. induction fuel1 as [|fuel1 IH]; intros fuel2 s H1 H2; [lia|].
  destruct fuel2 as [|fuel2]; [lia|]. simpl.
  destruct (h !! s) as [sc|] eqn:E; [|done]. f_equal.
  destruct (sc_parent sc) as [p|] eqn:Ep; [|done].
  pose proof (Hp _ _ _ E Ep). apply IH; lia.
Qed.

(** The chain of a scope: the scope, then the chain of its parent. *)
Lemma get_scopes_cons c s sc :
  heap_ok c → scopes c !! s = Some sc →
  get_scopes c s
  = sc :: match sc_parent sc with Some p => get_scopes c p | None => [] end.
Proof.
  intros Hok E. unfold get_scopes.
  pose proof (lookup_lt_Some _ _ _ E) as Hs.
  rewrite (get_scopes_from_fuel (scopes c) (ok_parent c Hok)
             (length (scopes c)) (S s) s) by lia.
  simpl. rewrite E. f_equal.
  destruct (sc_parent sc) as [p|] eqn:Ep; [|done].
  pose proof (ok_parent c Hok _ _ _ E Ep).
  apply get_scopes_from_fuel; [apply Hok | lia | lia].
Qed.

Lemma get_scopes_in_heap c s sc' :
  sc' ∈ get_scopes c s → ∃ s', scopes c !! s' = Some sc'.
Proof.
  unfold get_scopes. generalize (length (scopes c)). intros fuel. revert s.
  induction fuel as [|fuel IH]; intros s; simpl; [by intros ?%elem_of_nil|].
  destruct (scopes c !! s) as [sc|] eqn:E; [|by intros ?%elem_of_nil].
  intros [->|Hin]%elem_of_cons; [eauto|].
  destruct (sc_parent sc); [by eapply IH | by apply elem_of_nil in Hin].
Qed.

(** From a scope that is not subroutine-local, no scope of the chain is. *)
Lemma chain_not_func c s sc :
  heap_ok c → scopes c !! s = Some sc → is_func_scope sc = false →
  Forall (fun sc' => is_func_scope sc' = false) (get_scopes c s).
Proof.
  intros Hok. revert sc. induction s as [s IH] using lt_wf_ind. intros sc E Hf.
  rewrite (get_scopes_cons c s sc Hok E). constructor; [done|].
  destruct (sc_parent sc) as [p|] eqn:Ep; [|constructor].
  pose proof (ok_parent c Hok _ _ _ E Ep) as Hlt.
  destruct (scopes c !! p) as [psc|] eqn:Epp.
  - apply (IH p Hlt psc Epp).
    destruct (is_func_scope psc) eqn:Hpf; [|done].
    rewrite (ok_func c Hok _ _ _ _ E Ep Epp Hpf) in Hf. done.
  - unfold get_scopes. destruct (length (scopes c)); simpl; [constructor|].
    rewrite Epp. constructor.
Qed.

(** Merging the dictionaries of a chain. *)
Lemma merged_lookup_Some {V S} (f : S → gmap string V) l d k v :
  foldl (fun d sc => dict_update d (f sc)) d l !! k = Some v →
  d !! k = Some v ∨ ∃ sc, sc ∈ l ∧ f sc !! k = Some v.
Proof.
  revert d. induction l as [|sc l IH]; intros d; simpl; [auto|].
  intros [Hd|(sc' & Hin & Hv)]%IH.
  - unfold dict_update in Hd. apply lookup_union_Some_raw in Hd as [Hd|[_ Hd]].
    + right. exists sc. split; [apply list_elem_of_here | done].
    + auto.
  - right. exists sc'. split; [by apply list_elem_of_further | done].
Qed.

Lemma merged_lookup_None {V S} (f : S → gmap string V) l d k :
  foldl (fun d sc => dict_update d (f sc)) d l !! k = None ↔
  d !! k = None ∧ ∀ sc, sc ∈ l → f sc !! k = None.
Proof.
  revert d. induction l as [|sc l IH]; intros d; simpl.
  - split; [|by intros [? _]]. intros ?. split; [done|]. by intros ? ?%elem_of_nil.
  - rewrite IH. unfold dict_update. rewrite lookup_union_None. split.
    + intros [[Hs Hd] Hl]. split; [done|].
      intros sc' [->|?]%elem_of_cons; auto.
    + intros [Hd Hl]. split; [split; [|done]|].
      * apply Hl, list_elem_of_here.
      * intros sc' ?. by apply Hl, list_elem_of_further.
Qed.

Lemma merged_insert {V S} (f : S → gmap string V) l d k v :
  (∀ sc, sc ∈ l → f sc !! k = None) →
  foldl (fun d sc => dict_update d (f sc)) (<[k := v]> d) l
  = <[k := v]> (foldl (fun d sc => dict_update d (f sc)) d l).
Proof.
  revert d. induction l as [|sc l IH]; intros d Hl; simpl; [done|].
  unfold dict_update at 2. rewrite <- insert_union_r.
  - apply IH. intros sc' ?. by apply Hl, list_elem_of_further.
  - apply Hl, list_elem_of_here.
Qed.

Lemma get_slots_Some c s name v :
  get_slots c s !! name = Some v →
  ∃ sc, sc ∈ get_scopes c s ∧ sc_slots sc !! name = Some v.
Proof.
  unfold get_slots. intros [Hd|?]%merged_lookup_Some; [|done].
  by rewrite lookup_empty in Hd.
Qed.

Lemma get_slots_None c s name :
  get_slots c s !! name = None ↔
  ∀ sc, sc ∈ get_scopes c s → sc_slots sc !! name = None.
Proof.
  unfold get_slots. rewrite merged_lookup_None, lookup_empty.
  split; [by intros [_ ?] | by intros ?].
Qed.

(** The slots visible from a scope that is not subroutine-local are in
    the range of first-fit allocation. *)
Lemma visible_first_fit c s sc name slot ty :
  heap_ok c → scopes c !! s = Some sc → is_func_scope sc = false →
  get_slots c s !! name = Some (slot, ty) → (slot ≤ 200)%nat.
Proof.
  intros Hok E Hf (sc' & Hin & Hs)%get_slots_Some.
  pose proof (chain_not_func c s sc Hok E Hf) as Hc.
  rewrite Forall_forall in Hc. specialize (Hc _ Hin).
  apply get_scopes_in_heap in Hin as [s' E'].
  by eapply (ok_first_fit c Hok).
Qed.

(** No visible slot is above the high-water mark. *)
Lemma visible_max c s name slot ty :
  heap_ok c → get_slots c s !! name = Some (slot, ty) → (slot ≤ max_slot c)%nat.
Proof.
  intros Hok (sc' & Hin & Hs)%get_slots_Some.
  apply get_scopes_in_heap in Hin as [s' E'].
  by eapply (ok_max c Hok).
Qed.
End HeapOk.


Section FindSlot.
Context `{Expressions}.

Lemma unused_slot_list c s j :
  unused c s j ↔
  j ∉ (fun kv : string * (nat * StackType) => kv.2.1) <$> map_to_list (get_slots c s).
Proof.
  rewrite list_elem_of_fmap. split.
  - intros Hu ([name [k ty]] & -> & Hin%elem_of_map_to_list). by eapply Hu.
  - intros Hn name k ty Hl ->. apply Hn. exists (name, (j, ty)).
    split; [done | by apply elem_of_map_to_list].
Qed.

Global Instance unused_dec c s j : Decision (unused c s j).
Proof.
  refine (cast_if (decide (j ∉ (fun kv : string * (nat * StackType) => kv.2.1)
                                 <$> map_to_list (get_slots c s))));
    by rewrite unused_slot_list.
Defined.

Lemma slot_list c s j :
  j ∈ (fun kv : string * (nat * StackType) => kv.2.1) <$> map_to_list (get_slots c s)
  ↔ ¬ unused c s j.
Proof.
  rewrite unused_slot_list. split; [auto|]. intros Hn.
  by apply dec_stable.
Qed.

(** [find_slot] in a scope that is not local to a subroutine: the least
    index of the range of the scope that no visible variable uses, or the
    exception when there is none. *)
Lemma find_slot_spec c s sc :
  heap_ok c → scopes c !! s = Some sc → is_func_scope sc = false →
  let lo := (sc_slot_range sc).1 in
  let hi := (sc_slot_range sc).2 in
  match find_slot c s with
  | Ok k => (lo ≤ k ≤ hi)%nat ∧ unused c s k
            ∧ ∀ j, (lo ≤ j ≤ hi)%nat → unused c s j → (k ≤ j)%nat
  | Raise e => e = Exception "No available slots!"
               ∧ ∀ j, (lo ≤ j ≤ hi)%nat → ¬ unused c s j
  | Diverge => False
  end.
Proof.
  intros Hok E Hf lo hi. unfold find_slot. rewrite E.
  assert (Hr : sc_slot_range sc = (lo, hi)) by (by destruct (sc_slot_range sc)).
  assert (Hhi : hi = 200%nat).
  { subst hi. by rewrite (ok_range c Hok s sc E). }
  rewrite Hr.
  set (slots := (fun kv : string * (nat * StackType) => kv.2.1)
                  <$> map_to_list (get_slots c s)).
  destruct (mark_used_Ok slots (replicate 255 false)) as (used & -> & L & Hu).
  { apply Forall_forall. intros j Hj. rewrite length_replicate.
    apply slot_list in Hj.
    destruct (decide (j < 255)%nat) as [?|Hge]; [done|]. exfalso. apply Hj.
    intros name k ty Hl ->.
    pose proof (visible_first_fit c s sc name j ty Hok E Hf Hl). lia. }
  rewrite length_replicate in L.
  assert (Hused : ∀ j, (j < 255)%nat → used !! j = Some true ↔ ¬ unused c s j).
  { intros j Hj. rewrite Hu, length_replicate, <- slot_list. split.
    - intros [Hrep|[? _]]; [|done].
      apply lookup_replicate in Hrep as [? _]. done.
    - intros ?. right. done. }
  destruct (first_fit used 0 lo hi) as [k|] eqn:F.
  - apply first_fit_Some in F as (Hk & Hrange & Hfree & Hmin).
    rewrite Nat.sub_0_r in Hfree. split; [done|]. split.
    + destruct (decide (unused c s k)) as [?|Hn]; [done|].
      apply Hused in Hn; [congruence|lia].
    + intros j Hj Huj. destruct (decide (k ≤ j)%nat) as [?|Hlt]; [done|].
      exfalso. assert (Hjk : (0 ≤ j < k)%nat) by lia.
      specialize (Hmin j Hjk Hj). rewrite Nat.sub_0_r in Hmin.
      apply Hused in Hmin; [done|lia].
  - split; [done|]. intros j Hj.
    apply Hused; [lia|].
    pose proof (first_fit_None _ _ _ _ F j) as Hn.
    rewrite Nat.sub_0_r in Hn. apply Hn; lia.
Qed.
End FindSlot.


Section HeapOkSteps.
Context `{Expressions}.

Lemma heap_ok_init lines : heap_ok (TealishCompiler_init lines).
Proof. split; simpl; intros *; by rewrite lookup_nil. Qed.

Lemma heap_ok_ext c c' :
  scopes c' = scopes c → (max_slot c ≤ max_slot c')%nat → heap_ok c → heap_ok c'.
Proof.
  intros Es Em [H1 H2 H3 H4 H5]. split; rewrite ?Es; try done.
  intros s sc name slot ty E Hs. specialize (H5 _ _ _ _ _ E Hs). lia.
Qed.

(** A change of one scope that keeps its parent, name and range, and adds
    only slots that respect the bounds. *)
Lemma heap_ok_update_scope c c1 s f :
  heap_ok c → scopes c1 = scopes c → (max_slot c ≤ max_slot c1)%nat →
  (∀ sc, sc_parent (f sc) = sc_parent sc ∧ sc_name (f sc) = sc_name sc
         ∧ sc_slot_range (f sc) = sc_slot_range sc) →
  (∀ sc name slot ty,
     scopes c !! s = Some sc → sc_slots (f sc) !! name = Some (slot, ty) →
     sc_slots sc !! name = Some (slot, ty)
     ∨ ((slot ≤ max_slot c1)%nat ∧ (is_func_scope sc = false → (slot ≤ 200)%nat))) →
  heap_ok (update_scope s f c1).
Proof.
  intros Hok Es Em Hf Hslots.
  assert (Hl : ∀ j sc', scopes (update_scope s f c1) !! j = Some sc' →
            ∃ sc, scopes c !! j = Some sc
                  ∧ (sc' = sc ∨ (j = s ∧ sc' = f sc))).
  { intros j sc'. rewrite lookup_update_scope, Es.
    destruct (decide (j = s)) as [->|?]; [|eauto].
    destruct (scopes c !! s) as [sc|]; [|done]. intros [= <-]. eauto. }
  assert (Hfn : ∀ sc, is_func_scope (f sc) = is_func_scope sc).
  { intros sc. unfold is_func_scope. by destruct (Hf sc) as (_ & -> & _). }
  destruct Hok as [H1 H2 H3 H4 H5]. split.
  - intros j sc' p (sc & E & [->|[-> ->]])%Hl Hp; [by eapply H1|].
    destruct (Hf sc) as (Ep & _). rewrite Ep in Hp. by eapply H1.
  - intros j sc' p psc' (sc & E & Hsc)%Hl Hp (psc & Epp & Hpsc)%Hl Hfp.
    assert (sc_parent sc = Some p) as Hp'.
    { destruct Hsc as [->|[-> ->]]; [done|]. by destruct (Hf sc) as (<- & _). }
    assert (is_func_scope psc = true) as Hfp'.
    { destruct Hpsc as [->|[-> ->]]; [done|]. by rewrite <- Hfn. }
    pose proof (H2 _ _ _ _ E Hp' Epp Hfp') as Hr.
    destruct Hsc as [->|[-> ->]]; [done|]. by rewrite Hfn.
  - intros j sc' (sc & E & [->|[-> ->]])%Hl; [by eapply H3|].
    destruct (Hf sc) as (_ & _ & ->). by eapply H3.
  - intros j sc' name slot ty (sc & E & [->|[-> ->]])%Hl Hnf Hs; [by eapply H4|].
    rewrite Hfn in Hnf.
    destruct (Hslots _ _ _ _ E Hs) as [Hold|[_ Hnew]]; [by eapply H4 | auto].
  - rewrite max_slot_update_scope.
    intros j sc' name slot ty (sc & E & [->|[-> ->]])%Hl Hs.
    + specialize (H5 _ _ _ _ _ E Hs). lia.
    + destruct (Hslots _ _ _ _ E Hs) as [Hold|[Hnew _]]; [|done].
      specialize (H5 _ _ _ _ _ E Hold). lia.
Qed.

(** The name of a scope inside a subroutine-local scope. *)
Lemma startswith_app s t p :
  PyStr.startswith s p = true → PyStr.startswith (s +:+ t) p = true.
Proof.
  unfold PyStr.startswith. revert p. induction s as [|b s IH]; intros p.
  - destruct p; simpl; [|done]. intros _. by destruct t.
  - destruct p as [|a p]; simpl; [done|].
    destruct (ascii_dec a b); [apply IH | done].
Qed.

Lemma find_startswith sub s :
  PyStr.startswith s sub = true → PyStr.find sub s = Some 0%nat.
Proof. intros E. destruct s; cbn [PyStr.find]; by rewrite E. Qed.

Lemma find_app sub s t :
  is_Some (PyStr.find sub s) → is_Some (PyStr.find sub (s +:+ t)).
Proof.
  induction s as [|a s IH].
  - cbn [PyStr.find]. destruct (PyStr.startswith EmptyString sub) eqn:E; [|by intros []].
    intros _. rewrite find_startswith; [eauto|]. by apply (startswith_app EmptyString).
  - cbn [PyStr.find].
    destruct (PyStr.startswith (String a s) sub) eqn:E.
    + intros _. rewrite find_startswith; [eauto|]. by apply startswith_app.
    + intros Hs. change (String a s +:+ t) with (String a (s +:+ t)).
      cbn [PyStr.find].
      destruct (PyStr.startswith (String a (s +:+ t)) sub); [eauto|].
      destruct (PyStr.find sub s); [|by destruct Hs].
      destruct IH as [? ->]; eauto.
Qed.

Lemma contains_app sub s t :
  PyStr.contains sub s = true → PyStr.contains sub (s +:+ t) = true.
Proof.
  unfold PyStr.contains. destruct (PyStr.find sub s) eqn:E; [|done]. intros _.
  destruct (find_app sub s t) as [? ->]; [by rewrite E | done].
Qed.

Lemma heap_ok_new_scope c name p s c' :
  heap_ok c → new_scope name p None c = (Ok s, c') → heap_ok c'.
Proof.
  intros Hok [= <- <-].
  set (parent := p ≫= (fun p0 => scopes c !! p0 ≫= (fun sc => Some (p0, sc)))).
  set (new := Scope_init name parent None).
  assert (Hl : ∀ j sc', (scopes c ++ [new]) !! j = Some sc' →
            scopes c !! j = Some sc' ∨ (j = length (scopes c) ∧ sc' = new)).
  { intros j sc' [?|[? Hn]]%lookup_app_Some; [auto|]. right.
    destruct (j - length (scopes c))%nat eqn:Ej; simpl in Hn; [|done].
    split; [lia | congruence]. }
  assert (Hpar : ∀ q, sc_parent new = Some q →
            ∃ psc, scopes c !! q = Some psc ∧ parent = Some (q, psc)).
  { intros q. subst new parent. simpl. destruct p as [p0|]; simpl; [|done].
    destruct (scopes c !! p0) as [psc|] eqn:E; simpl; [|done].
    intros [= <-]. eauto. }
  destruct Hok as [H1 H2 H3 H4 H5]. split; simpl.
  - intros j sc' q [E|[-> ->]]%Hl Hq; [by eapply H1|].
    apply Hpar in Hq as (psc & E & _). by eapply lookup_lt_Some.
  - intros j sc' q psc [E|[-> ->]]%Hl Hq [Ep|[-> ->]]%Hl Hfp.
    + by eapply H2.
    + pose proof (H1 _ _ _ E Hq). apply lookup_lt_Some in E. lia.
    + apply Hpar in Hq as (psc' & E & Hp). rewrite E in Ep. injection Ep as ->.
      unfold is_func_scope. subst new. simpl. rewrite Hp.
      destruct (decide (sc_name psc = EmptyString)) as [Hn|Hn].
      * unfold is_func_scope in Hfp. rewrite Hn in Hfp. done.
      * by apply contains_app.
    + apply Hpar in Hq as (psc' & E & _). apply lookup_lt_Some in E. lia.
  - intros j sc' [E|[-> ->]]%Hl; [by eapply H3 | done].
  - intros j sc' n slot ty [E|[-> ->]]%Hl Hnf Hs; [by eapply H4|].
    subst new. simpl in Hs. by rewrite lookup_empty in Hs.
  - intros j sc' n slot ty [E|[-> ->]]%Hl Hs; [by eapply H5|].
    subst new. simpl in Hs. by rewrite lookup_empty in Hs.
Qed.

Lemma heap_ok_parse_step c c' : parse_step c c' → heap_ok c → heap_ok c'.
Proof.
  intros [c0|c0|s name label c0 c1 E|s name f c0 c1 E|name p s c0 c1 E] Hok.
  - by apply (heap_ok_ext c0).
  - by apply (heap_ok_ext c0).
  - injection E as <-. apply (heap_ok_update_scope c0); auto.
  - injection E as <-. apply (heap_ok_update_scope c0); auto.
  - by eapply heap_ok_new_scope.
Qed.

Lemma heap_ok_gen_step c c' : gen_step c c' → heap_ok c → heap_ok c'.
Proof.
  intros [lines n c0|l c0|m c0|s name ty slot c0 c1 E|s name c0 c1 E
          |s name ty v c0 c1 E] Hok.
  - apply (heap_ok_ext c0); [apply scopes_write_lines| |done].
    unfold write_lines. generalize (PyStr.repeat "  " (Z.to_nat (level c0))).
    intros p. revert c0 Hok. induction lines as [|l lines IH]; intros c0 Hok; simpl; [done|].
    etrans; [|apply IH]; [done|]. by apply (heap_ok_ext c0).
  - by apply (heap_ok_ext c0).
  - by apply (heap_ok_ext c0).
  - apply declare_var_Ok in E as (Hv & sc & Es & Hslot & ->).
    apply (heap_ok_update_scope c0); simpl; auto; [lia|].
    intros sc' n k t Es' Hk. rewrite Es in Es'. injection Es' as <-.
    simpl in Hk. destruct (decide (n = name)) as [->|Hne].
    + rewrite lookup_insert_eq in Hk. injection Hk as <- <-. right.
      split; [lia|]. intros Hnf. rewrite Hnf in Hslot.
      pose proof (find_slot_spec c0 s sc Hok Es Hnf) as Hsp.
      rewrite Hslot in Hsp. destruct Hsp as ([_ Hhi] & _).
      by rewrite (ok_range c0 Hok s sc Es) in Hhi.
    + rewrite lookup_insert_ne in Hk by done. auto.
  - injection E as <-. apply (heap_ok_update_scope c0); simpl; auto.
    intros sc n k t _ Hk. simpl in Hk. left.
    by apply lookup_delete_Some in Hk as [_ ?].
  - injection E as <-. apply (heap_ok_update_scope c0); auto.
Qed.

Lemma heap_ok_parse c c' : rtc parse_step c c' → heap_ok c → heap_ok c'.
Proof. induction 1; eauto using heap_ok_parse_step. Qed.
Lemma heap_ok_gen c c' : rtc gen_step c c' → heap_ok c → heap_ok c'.
Proof. induction 1; eauto using heap_ok_gen_step. Qed.
End HeapOkSteps.


Section MaxSlot.
Context `{Expressions}.

Lemma max_slot_gen_step c c' : gen_step c c' → (max_slot c ≤ max_slot c')%nat.
Proof.
  intros [lines n c0|l c0|m c0|s name ty slot c0 c1 E|s name c0 c1 E
          |s name ty v c0 c1 E]; simpl; try done.
  - unfold write_lines. generalize (PyStr.repeat "  " (Z.to_nat (level c0))).
    intros p. revert c0. induction lines as [|l lines IH]; intros c0; simpl; [done|].
    etrans; [|apply IH]. done.
  - apply declare_var_Ok in E as (_ & sc & _ & _ & ->).
    rewrite max_slot_update_scope. simpl. lia.
  - injection E as <-. by rewrite max_slot_update_scope.
  - injection E as <-. by rewrite max_slot_update_scope.
Qed.

Lemma max_slot_gen c c' : rtc gen_step c c' → (max_slot c ≤ max_slot c')%nat.
Proof. induction 1; [done|]. etrans; [by apply max_slot_gen_step | done]. Qed.

(** A slot that [declare_var] has returned is never above the high-water
    mark afterwards. *)
Lemma declared_below_max s name ty c slot c1 c2 :
  declare_var s name ty c = (Ok slot, c1) → rtc gen_step c1 c2 →
  (slot ≤ max_slot c2)%nat.
Proof.
  intros E Hr. apply max_slot_gen in Hr.
  apply declare_var_Ok in E as (_ & sc & _ & _ & ->).
  rewrite max_slot_update_scope in Hr. simpl in Hr. lia.
Qed.
End MaxSlot.


Section DeclareVar.
Context `{Expressions}.

Lemma get_scopes_from_agree (h h' : list (Scope LitValue)) :
  (∀ s sc p, h !! s = Some sc → sc_parent sc = Some p → (p < s)%nat) →
  ∀ fuel p, (∀ j, (j ≤ p)%nat → h' !! j = h !! j) →
    get_scopes_from fuel h' p = get_scopes_from fuel h p.
Proof.
  intros Hp. induction fuel as [|fuel IH]; intros p Ha; simpl; [done|].
  rewrite (Ha p) by lia. destruct (h !! p) as [sc|] eqn:E; [|done]. f_equal.
  destruct (sc_parent sc) as [q|] eqn:Eq; [|done].
  pose proof (Hp _ _ _ E Eq). apply IH. intros j ?. apply Ha. lia.
Qed.

(** After a declaration, the variables visible from the scope are the
    ones visible before and the new one. *)
Lemma get_slots_declare c s name ty slot c' :
  heap_ok c → declare_var s name ty c = (Ok slot, c') →
  get_slots c' s = <[name := (slot, ty)]> (get_slots c s).
Proof.
  intros Hok E.
  assert (Hok' : heap_ok c').
  { eapply heap_ok_gen_step; [|done]. by econstructor. }
  apply declare_var_Ok in E as (Hv & sc & Es & _ & ->).
  set (c1 := set_max_slot _ c) in *.
  set (f := fun sc0 => set_slots (<[name := (slot, ty)]> (sc_slots sc0)) sc0) in *.
  assert (Es' : scopes (update_scope s f c1) !! s = Some (f sc)).
  { rewrite lookup_update_scope, decide_True by done. simpl. by rewrite Es. }
  unfold get_slots.
  rewrite (get_scopes_cons _ s (f sc) Hok' Es'), (get_scopes_cons c s sc Hok Es).
  assert (Hrest : match sc_parent (f sc) with
                  | Some p => get_scopes (update_scope s f c1) p
                  | None => []
                  end
                  = match sc_parent sc with
                    | Some p => get_scopes c p
                    | None => []
                    end).
  { simpl. destruct (sc_parent sc) as [p|] eqn:Ep; [|done].
    pose proof (ok_parent c Hok _ _ _ Es Ep) as Hlt.
    unfold get_scopes. rewrite length_update_scope. simpl.
    apply get_scopes_from_agree; [apply Hok|].
    intros j Hj. rewrite lookup_update_scope, decide_False by lia. done. }
  rewrite Hrest. simpl.
  unfold dict_update at 2 4. rewrite !(right_id_L ∅ (∪)).
  apply merged_insert. intros sc' Hin.
  unfold get_var in Hv. rewrite get_slots_None in Hv. apply Hv.
  rewrite (get_scopes_cons c s sc Hok Es). by apply list_elem_of_further.
Qed.

End DeclareVar.


Section Registrations.
Context `{Expressions}.

Lemma kept_refl c : registrations_kept c c.
Proof. intros s sc E. eauto. Qed.

Lemma kept_trans c1 c2 c3 :
  registrations_kept c1 c2 → registrations_kept c2 c3 → registrations_kept c1 c3.
Proof.
  intros H12 H23 s sc E. destruct (H12 s sc E) as (sc2 & E2 & Hb2 & Hf2).
  destruct (H23 s sc2 E2) as (sc3 & E3 & Hb3 & Hf3). eauto 10.
Qed.

Lemma kept_ext c c' : scopes c' = scopes c → registrations_kept c c'.
Proof. intros Es s sc E. rewrite Es. eauto. Qed.

Lemma kept_update_scope c s f :
  (∀ sc n, is_Some (sc_blocks sc !! n) → is_Some (sc_blocks (f sc) !! n)) →
  (∀ sc n, is_Some (sc_functions sc !! n) → is_Some (sc_functions (f sc) !! n)) →
  registrations_kept c (update_scope s f c).
Proof.
  intros Hb Hf s' sc E. rewrite lookup_update_scope.
  destruct (decide (s' = s)) as [->|?].
  - rewrite E. simpl. exists (f sc). eauto.
  - exists sc. eauto.
Qed.

Lemma is_Some_insert {V} (m : gmap string V) k v n :
  is_Some (m !! n) → is_Some (<[k := v]> m !! n).
Proof.
  intros Hn. destruct (decide (n = k)) as [->|?].
  - rewrite lookup_insert_eq. eauto.
  - by rewrite lookup_insert_ne.
Qed.

Lemma kept_parse_step c c' : parse_step c c' → registrations_kept c c'.
Proof.
  intros [c0|c0|s name label c0 c1 E|s name f c0 c1 E|name p s c0 c1 E].
  - by apply kept_ext.
  - by apply kept_ext.
  - injection E as <-. apply kept_update_scope; simpl; [|done].
    intros. by apply is_Some_insert.
  - injection E as <-. apply kept_update_scope; simpl; [done|].
    intros. by apply is_Some_insert.
  - injection E as <- <-. intros s' sc E. exists sc. simpl.
    rewrite lookup_app_l by by eapply lookup_lt_Some. done.
Qed.

Lemma kept_gen_step c c' : gen_step c c' → registrations_kept c c'.
Proof.
  intros [lines n c0|l c0|m c0|s name ty slot c0 c1 E|s name c0 c1 E
          |s name ty v c0 c1 E].
  - apply kept_ext, scopes_write_lines.
  - by apply kept_ext.
  - by apply kept_ext.
  - apply declare_var_Ok in E as (_ & sc & _ & _ & ->).
    eapply kept_trans; [|by apply kept_update_scope]. by apply kept_ext.
  - injection E as <-. by apply kept_update_scope.
  - injection E as <-. by apply kept_update_scope.
Qed.

Lemma kept_parse c c' : rtc parse_step c c' → registrations_kept c c'.
Proof. induction 1; eauto using kept_refl, kept_trans, kept_parse_step. Qed.
Lemma kept_gen c c' : rtc gen_step c c' → registrations_kept c c'.
Proof. induction 1; eauto using kept_refl, kept_trans, kept_gen_step. Qed.

Lemma registered_block_kept c c' s name :
  registrations_kept c c' → registered_block c s name → registered_block c' s name.
Proof. intros Hk (sc & E & Hb). destruct (Hk s sc E) as (sc' & ? & ? & ?). exists sc'. auto. Qed.
Lemma registered_function_kept c c' s name :
  registrations_kept c c' → registered_function c s name →
  registered_function c' s name.
Proof. intros Hk (sc & E & Hb). destruct (Hk s sc E) as (sc' & ? & ? & ?). exists sc'. auto. Qed.

(** [Block.__init__] and [Func.__init__] register the node during the
    parse pass. *)
Lemma Block_consume_registers fuel fuel' anc s c n c' :
  Block_consume (Statement_consume fuel) fuel' anc s c = (Ok n, c') →
  ∃ i name label ns, n = Block i name label ns ∧ registered_block c' s name.
Proof.
  unfold Block_consume. intros Hb.
  apply bind_Ok in Hb as (line & c1 & _ & Hb).
  apply bind_Ok in Hb as ([i name] & c2 & Hi & Hb).
  apply bind_Ok in Hb as (? & ? & [= <- <-] & Hb).
  destruct (scopes c2 !! s) as [sc|] eqn:Es; [|discriminate].
  apply bind_Ok in Hb as ([] & c3 & Hr & Hb).
  assert (Hreg : registered_block c3 s name).
  { injection Hr as <-. exists (set_blocks (<[name := Block_label sc name]> (sc_blocks sc)) sc).
    rewrite lookup_update_scope, decide_True, Es by done. simpl.
    by rewrite lookup_insert_eq. }
  apply bind_Ok in Hb as (s' & c4 & Hn & Hb).
  apply bind_Ok in Hb as (ns & c5 & Hc & [= <- <-]).
  do 4 eexists. split; [done|].
  eapply registered_block_kept; [|done].
  assert (K34 : registrations_kept c3 c4).
  { apply kept_parse_step. by econstructor. }
  assert (K45 : registrations_kept c4 c5).
  { apply kept_parse.
    apply (Par_consume_children (Statement_consume fuel)
             (fun anc s => Par_Statement_consume fuel anc s) _ _ _ _ _ _ _ _ _
             (Par_peek_is "end") _ _ _ Hc). }
  by eapply kept_trans.
Qed.

Lemma Func_consume_registers fuel fuel' anc s c n c' :
  Func_consume (Statement_consume fuel) fuel' anc s c = (Ok n, c') →
  ∃ i name args label ns, n = Func i name args label ns ∧ registered_function c' s name.
Proof.
  unfold Func_consume. intros Hb.
  apply bind_Ok in Hb as (line & c1 & _ & Hb).
  apply bind_Ok in Hb as ([i [[name args] returns]] & c2 & Hi & Hb).
  apply bind_Ok in Hb as (? & ? & [= <- <-] & Hb).
  destruct (scopes c2 !! s) as [sc|] eqn:Es; [|discriminate].
  apply bind_Ok in Hb as ([] & c3 & Hr & Hb).
  assert (Hreg : registered_function c3 s name).
  { injection Hr as <-. eexists.
    rewrite lookup_update_scope, decide_True, Es by done. simpl.
    split; [done|]. simpl. by rewrite lookup_insert_eq. }
  apply bind_Ok in Hb as (s' & c4 & Hn & Hb).
  apply bind_Ok in Hb as (ns & c5 & Hc & Hb).
  apply bind_Ok in Hb as (? & ? & [= <- <-] & Hb).
  destruct (last ns) as [m|]; [|discriminate].
  destruct (negb (is_Return m)); [discriminate|]. injection Hb as <- <-.
  do 5 eexists. split; [done|].
  eapply registered_function_kept; [|done].
  assert (K34 : registrations_kept c3 c4).
  { apply kept_parse_step. by econstructor. }
  assert (K45 : registrations_kept c4 c5).
  { apply kept_parse.
    apply (Par_consume_children (Statement_consume fuel)
             (fun anc s => Par_Statement_consume fuel anc s) _ _ _ _ _ _ _ _ _
             (Par_peek_is "end") _ _ _ Hc). }
  by eapply kept_trans.
Qed.

(** A registration in a scope of the chain resolves. *)
Lemma get_block_in_chain c s s' name :
  in_chain c s s' → registered_block c s name → is_Some (get_block c s' name).
Proof.
  intros (sc & E & Hin) (sc' & E' & Hb). rewrite E in E'. injection E' as <-.
  unfold get_block, get_blocks.
  destruct (foldl _ _ _ !! name) eqn:Hn; [eauto|].
  apply merged_lookup_None in Hn as [_ Hn]. rewrite (Hn sc Hin) in Hb.
  by destruct Hb.
Qed.

Lemma view_foldl l v :
  v_slots (foldl view_step v l)
  = foldl (fun d sc => dict_update d (sc_slots sc)) (v_slots v) l
  ∧ v_consts (foldl view_step v l)
    = foldl (fun d sc => dict_update d (sc_consts sc)) (v_consts v) l
  ∧ v_functions (foldl view_step v l)
    = foldl (fun d sc => dict_update d (sc_functions sc)) (v_functions v) l.
Proof.
  revert v. induction l as [|sc l IH]; intros v; simpl; [done|].
  destruct (IH (view_step v sc)) as (-> & -> & ->). done.
Qed.

Lemma v_functions_get_scope c s :
  v_functions (get_scope c s)
  = foldl (fun d sc => dict_update d (sc_functions sc)) ∅ (get_scopes c s).
Proof. apply (view_foldl (get_scopes c s)). Qed.

Lemma v_slots_get_scope c s : v_slots (get_scope c s) = get_slots c s.
Proof. apply (view_foldl (get_scopes c s)). Qed.

Lemma v_consts_get_scope c s :
  v_consts (get_scope c s)
  = foldl (fun d sc => dict_update d (sc_consts sc)) ∅ (get_scopes c s).
Proof. apply (view_foldl (get_scopes c s)). Qed.

Lemma function_in_chain c s s' name :
  in_chain c s s' → registered_function c s name →
  is_Some (v_functions (get_scope c s') !! name).
Proof.
  intros (sc & E & Hin) (sc' & E' & Hb). rewrite E in E'. injection E' as <-.
  rewrite v_functions_get_scope.
  destruct (foldl _ _ _ !! name) eqn:Hn; [eauto|].
  apply merged_lookup_None in Hn as [_ Hn]. rewrite (Hn sc Hin) in Hb.
  by destruct Hb.
Qed.
End Registrations.


Section NoVars.
Context `{Expressions}.

Lemma no_vars_parse_step c c' : parse_step c c' → no_vars c → no_vars c'.
Proof.
  intros [c0|c0|s name label c0 c1 E|s name f c0 c1 E|name p s c0 c1 E] Hn; try done.
  - injection E as <-. intros s' sc'. rewrite lookup_update_scope.
    destruct (decide (s' = s)) as [->|?]; [|apply Hn].
    destruct (scopes c0 !! s) as [sc|] eqn:Es; [|done].
    intros [= <-]. simpl. by eapply Hn.
  - injection E as <-. intros s' sc'. rewrite lookup_update_scope.
    destruct (decide (s' = s)) as [->|?]; [|apply Hn].
    destruct (scopes c0 !! s) as [sc|] eqn:Es; [|done].
    intros [= <-]. simpl. by eapply Hn.
  - injection E as <- <-. intros s' sc'. simpl.
    intros [?|[? Hl]]%lookup_app_Some; [by eapply Hn|].
    destruct (s' - length (scopes c0))%nat; simpl in Hl; [|done].
    by injection Hl as <-.
Qed.

Lemma no_vars_parse c c' : rtc parse_step c c' → no_vars c → no_vars c'.
Proof. induction 1; eauto using no_vars_parse_step. Qed.

Lemma no_vars_unresolved c s name :
  no_vars c →
  get_var c s name = None
  ∧ v_slots (get_scope c s) !! name = None
  ∧ v_consts (get_scope c s) !! name = None.
Proof.
  intros Hn.
  assert (Hc : ∀ sc, sc ∈ get_scopes c s → sc_slots sc = ∅ ∧ sc_consts sc = ∅).
  { intros sc [s' E]%get_scopes_in_heap. by eapply Hn. }
  unfold get_var. rewrite v_slots_get_scope, v_consts_get_scope.
  split; [|split].
  - apply get_slots_None. intros sc [-> _]%Hc. done.
  - apply get_slots_None. intros sc [-> _]%Hc. done.
  - apply merged_lookup_None. split; [done|]. intros sc [_ ->]%Hc. done.
Qed.

(** The parse pass declares no variable and no constant. *)
Lemma parse_no_vars fuel lines r c :
  parse fuel (TealishCompiler_init lines) = (r, c) → no_vars c.
Proof.
  intros Hp. eapply no_vars_parse; [by eapply Par_Program_consume|].
  intros s sc. simpl. by rewrite lookup_nil.
Qed.

Lemma parse_heap_ok fuel lines r c :
  parse fuel (TealishCompiler_init lines) = (r, c) → heap_ok c.
Proof.
  intros Hp. eapply heap_ok_parse; [by eapply Par_Program_consume|].
  apply heap_ok_init.
Qed.
End NoVars.

Section SourceMapGlobal.
Context `{Expressions}.

Lemma source_map_inv_ext c c' :
  output c' = output c → source_map c' = source_map c →
  current_output_line c' = current_output_line c →
  source_map_inv c → source_map_inv c'.
Proof. unfold source_map_inv. by intros -> -> ->. Qed.

Lemma source_map_inv_parse_step c c' :
  parse_step c c' → source_map_inv c → source_map_inv c'.
Proof.
  intros [c0|c0|s name label c0 c1 E|s name f c0 c1 E|name p s c0 c1 E].
  - by apply source_map_inv_ext.
  - by apply source_map_inv_ext.
  - injection E as <-. apply source_map_inv_ext;
      rewrite ?output_update_scope, ?source_map_update_scope,
        ?current_output_line_update_scope; done.
  - injection E as <-. apply source_map_inv_ext;
      rewrite ?output_update_scope, ?source_map_update_scope,
        ?current_output_line_update_scope; done.
  - injection E as <- <-. by apply source_map_inv_ext.
Qed.

Lemma source_map_inv_gen_step c c' :
  gen_step c c' → source_map_inv c → source_map_inv c'.
Proof.
  intros [lines n c0|l c0|m c0|s name ty slot c0 c1 E|s name c0 c1 E
          |s name ty v c0 c1 E].
  - apply write_lines_inv.
  - by apply source_map_inv_ext.
  - by apply source_map_inv_ext.
  - apply declare_var_Ok in E as (_ & sc & _ & _ & ->).
    apply source_map_inv_ext;
      rewrite ?output_update_scope, ?source_map_update_scope,
        ?current_output_line_update_scope; done.
  - injection E as <-. apply source_map_inv_ext;
      rewrite ?output_update_scope, ?source_map_update_scope,
        ?current_output_line_update_scope; done.
  - injection E as <-. apply source_map_inv_ext;
      rewrite ?output_update_scope, ?source_map_update_scope,
        ?current_output_line_update_scope; done.
Qed.

Lemma source_map_inv_parse c c' :
  rtc parse_step c c' → source_map_inv c → source_map_inv c'.
Proof. induction 1; eauto using source_map_inv_parse_step. Qed.
Lemma source_map_inv_gen c c' :
  rtc gen_step c c' → source_map_inv c → source_map_inv c'.
Proof. induction 1; eauto using source_map_inv_gen_step. Qed.

Lemma compile_source_map fuel lines r p c r' c' :
  parse fuel (TealishCompiler_init lines) = (r, c) →
  compile p c = (r', c') → source_map_inv c'.
Proof.
  intros Hp Hc. apply Par_Program_consume in Hp. apply Gen_compile in Hc.
  eapply source_map_inv_gen; [done|].
  eapply source_map_inv_parse; [done|]. apply init_inv.
Qed.

(** C9: the source map has exactly one entry for each line of the output,
    under the keys 1 to the number of lines, and the counter of emitted
    lines is that number plus one.  A call of [write] keeps this; it holds
    of the new compiler, hence after any sequence of calls of [write] and
    changes of the level; and it holds when the two passes have run,
    whatever the program and however they end. *)
Theorem write_keeps_source_map :
  (∀ c lines n,
     source_map_inv c →
     (compiler_write lines n c).1 = Ok tt
     ∧ source_map_inv (compiler_write lines n c).2)
  ∧ (∀ lines steps,
       let c := foldl write_step (TealishCompiler_init lines) steps in
       (∀ k : nat, is_Some (source_map c !! k) ↔ 1 ≤ k ≤ length (output c))
       ∧ current_output_line c = S (length (output c)))
  ∧ (∀ fuel lines r p c r' c',
       parse fuel (TealishCompiler_init lines) = (r, c) →
       compile p c = (r', c') → source_map_inv c').
Proof.
  split; [|split].
  - intros c lines n Hc. split; [done|]. by apply write_lines_inv.
  - intros lines steps. apply write_steps_inv.
  - apply compile_source_map.
Qed.
End SourceMapGlobal.


Section ForwardReferences.
Context `{Expressions}.

Lemma bind_eq {A B} (m : M A) (k : A → M B) c a c1 :
  m c = (Ok a, c1) → bind m k c = k a c1.
Proof. unfold bind. by intros ->. Qed.

Lemma get_var_ext c c' s name :
  scopes c' = scopes c → get_var c' s name = get_var c s name.
Proof. intros E. unfold get_var, get_slots, get_scopes. by rewrite E. Qed.

Lemma Jump_visit_Ok c j name label :
  get_block c (n_scope j) name = Some label →
  ∃ c', visit (Jump j name) c = (Ok tt, c')
        ∧ output c' = output c ++ indent c ["// " +:+ n_line j; "b " +:+ label].
Proof.
  intros Hb.
  assert (Hp : process (Jump j name) c
               = (Ok tt, write_lines ["b " +:+ label] (n_line_no j)
                           (write_lines ["// " +:+ n_line j] (n_line_no j) c))).
  { cbn [process]. unfold write1, Node_write, compiler_write, bind, get, modify.
    cbv beta iota.
    rewrite (get_block_ext c) by apply scopes_write_lines. by rewrite Hb. }
  cbn [visit node_info]. unfold Node_visit, try_except.
  unfold bind at 1. rewrite Hp. cbv beta iota.
  unfold bind, add_level, modify, ret. cbv beta iota.
  eexists. split; [reflexivity|]. cbn [output set_level].
  rewrite !output_write_lines, <- app_assoc.
  rewrite (indent_ext c (write_lines _ _ c)) by apply level_write_lines. done.
Qed.

Lemma Assignment_undeclared c i names e t teal name :
  get_var c (n_scope i) name = None →
  (name =? "_")%string = false →
  PyStr.strip <$> PyStr.split (ascii_of_nat 44) names = [name] →
  Expr_process (get_scope c (n_scope i)) e = Ok (TOne t, teal) →
  ∃ c', visit (Assignment i names e) c
        = (Raise (CompileError
                    (("Var " +:+ PyStr.quoted name
                      +:+ " not declared in current scope")
                     +:+ " at line " +:+ PyStr.of_nat (n_line_no i))), c').
Proof.
  intros Hv Hn Hs He.
  set (c2 := write_lines teal (n_line_no i)
               (write_lines ["// " +:+ n_line i] (n_line_no i) c)).
  assert (Hp : process (Assignment i names e) c
               = (Raise (Exception ("Var " +:+ PyStr.quoted name
                                    +:+ " not declared in current scope")), c2)).
  { cbn [process].
    unfold process_expression, write1, Node_write, compiler_write, bind, get,
      modify, lift. cbv beta iota.
    rewrite He. cbv beta iota. rewrite Hs.
    cbn [length Nat.eqb py_assert ret zip zip_with Assignment_stores].
    rewrite Hn. unfold bind, get. cbv beta iota.
    rewrite (get_var_ext c) by (by rewrite !scopes_write_lines).
    rewrite Hv. done. }
  cbn [visit node_info]. unfold Node_visit, try_except.
  unfold bind at 1. rewrite Hp. cbv beta iota.
  by exists c2.
Qed.

End ForwardReferences.


Section Redeclaration.
Context `{Expressions}.

Lemma declare_var_redefinition c s name ty v :
  get_var c s name = Some v →
  declare_var s name ty c
  = (Raise (Exception ("Redefinition of variable " +:+ PyStr.quoted name)), c).
Proof. intros Hv. unfold declare_var. by rewrite Hv. Qed.

Lemma Declaration_redefinition c i name ty e v :
  get_var c (n_scope i) name = Some v →
  Node_visit i (Declaration_process i ty name e) (ret tt) c
  = (Raise (CompileError (("Redefinition of variable " +:+ PyStr.quoted name)
                          +:+ " at line " +:+ PyStr.of_nat (n_line_no i))), c).
Proof.
  intros Hv. unfold Node_visit, try_except, Declaration_process.
  unfold bind at 1 2. by rewrite (declare_var_redefinition c _ name ty v Hv).
Qed.

End Redeclaration.

Section InnerTxnComments.
Context `{Expressions}.

Lemma comment_not_end l : is_comment l = true → l ≠ "end".
Proof. intros Hc ->. done. Qed.

Lemma InnerTxn_children_step fuel scope nodes c l :
  source_lines c !! line_no c = Some l →
  is_comment (PyStr.strip l) = true →
  InnerTxn_children (S fuel) scope nodes c
  = InnerTxn_children fuel scope nodes (set_line_no (S (line_no c)) c).
Proof.
  intros Hl Hc. cbn [InnerTxn_children].
  unfold peek_is, peek_startswith, peek, consume_line, bind, ret. cbv beta iota.
  rewrite Hl. cbn [fmap option_fmap option_map].
  rewrite bool_decide_false.
  2:{ intros [= E]. by apply (comment_not_end _ Hc). }
  cbv beta iota. rewrite Hl. cbn [fmap option_fmap option_map].
  change (existsb (PyStr.startswith (PyStr.strip l)) ["#"])
    with (is_comment (PyStr.strip l) || false).
  rewrite Hc. cbn [orb]. cbv beta iota. rewrite Hl. done.
Qed.

Lemma InnerTxn_children_nodes fuel scope nodes c nodes' c' :
  InnerTxn_children fuel scope nodes c = (Ok nodes', c') →
  ∃ new, nodes' = nodes ++ new
         ∧ Forall (fun n => is_comment (n_line (fs_info n)) = false) new
         ∧ output c' = output c.
Proof.
  revert nodes c. induction fuel as [|fuel IH]; intros nodes c; [done|].
  cbn [InnerTxn_children]. intros Hc.
  apply bind_Ok in Hc as (e & c1 & He & Hc).
  unfold peek_is, peek, bind, ret in He. injection He as <- <-.
  destruct (bool_decide _).
  { apply bind_Ok in Hc as (? & c2 & Hl & [= <- <-]). exists []. rewrite app_nil_r.
    split; [done|]. split; [constructor|].
    unfold consume_line in Hl. destruct (source_lines c !! line_no c); by injection Hl as <- <-. }
  apply bind_Ok in Hc as (b & c1 & Hb & Hc).
  unfold peek_startswith, peek, bind in Hb. cbv beta iota in Hb.
  destruct (source_lines c !! line_no c) as [l|] eqn:El; [|discriminate].
  cbn [fmap option_fmap option_map] in Hb. injection Hb as <- <-.
  cbn [existsb] in Hc. rewrite orb_false_r in Hc.
  destruct (PyStr.startswith (PyStr.strip l) "#") eqn:Hs.
  - apply bind_Ok in Hc as (? & c2 & Hl & Hc).
    unfold consume_line in Hl. rewrite El in Hl. injection Hl as <- <-.
    apply IH in Hc as (new & -> & Hf & Ho). eauto.
  - apply bind_Ok in Hc as (line & c2 & Hl & Hc).
    unfold consume_line in Hl. rewrite El in Hl. injection Hl as <- <-.
    apply bind_Ok in Hc as ([i [[fn ix] ex]] & c3 & Hi & Hc).
    unfold Node_init in Hi.
    destruct (Pattern.match_InnerTxnFieldSetter (PyStr.strip l))
      as [[[fn' ix'] ex']|]; [|discriminate].
    simplify_eq.
    apply bind_Ok in Hc as (x & c4 & Hx & Hc).
    unfold parse_expression, lift in Hx.
    destruct (GenericExpression_parse _); try discriminate. injection Hx as <- <-.
    apply IH in Hc as (new & -> & Hf & Ho).
    eexists (_ :: new). rewrite <- app_assoc. split; [done|]. split; [|done].
    constructor; [|done]. done.
Qed.

(** C10: comment lines in a field block.  When the next line, as [peek] returns
    it, begins with [#], a turn of the loop of [InnerTxn.consume] consumes
    it and goes on with the same children, and the output is as it was;
    and whenever the loop returns, none of the children it has added comes
    from such a line. *)
Theorem InnerTxn_comment_discarded fuel scope nodes c :
  (∀ l, source_lines c !! line_no c = Some l →
        is_comment (PyStr.strip l) = true →
        InnerTxn_children (S fuel) scope nodes c
        = InnerTxn_children fuel scope nodes (set_line_no (S (line_no c)) c)
        ∧ output (set_line_no (S (line_no c)) c) = output c)
  ∧ (∀ nodes' c',
       InnerTxn_children fuel scope nodes c = (Ok nodes', c') →
       ∃ new, nodes' = nodes ++ new
              ∧ Forall (fun n => is_comment (n_line (fs_info n)) = false) new
              ∧ output c' = output c).
Proof.
  split.
  - intros l Hl Hc. split; [by eapply InnerTxn_children_step | done].
  - apply InnerTxn_children_nodes.
Qed.
End InnerTxnComments.


Section ImplicitCounter.
Context `{Expressions}.

Lemma visit_implicit_counter_emits visit_child i start stop start_label
    end_label ns c c' :
  visit_implicit_counter visit_child i start stop start_label end_label ns c
  = (Ok tt, c') →
  implicit_counter_emits visit_child i start stop start_label end_label ns c c'.
Proof.
  unfold visit_implicit_counter. intros Hv.
  unfold write1, Node_write, compiler_write, add_level in Hv.
  apply bind_Ok in Hv as (? & ? & [= <- <-] & Hv).
  apply bind_Ok in Hv as (? & ? & [= <- <-] & Hv).
  set (c0 := write_lines _ _ c) in *.
  set (ca := set_level _ c0) in *.
  apply bind_Ok in Hv as ([t1 start_teal] & ? & Hs & Hv).
  apply process_expression_Ok in Hs as [-> Hs].
  apply bind_Ok in Hv as ([t2 end_teal] & ? & He & Hv).
  apply process_expression_Ok in He as [-> He].
  do 6 (apply bind_Ok in Hv as (? & ? & [= <- <-] & Hv)).
  match type of Hv with bind _ _ ?c = _ => set (c1 := c) in * end.
  apply bind_Ok in Hv as ([] & c2 & Hb & Hv).
  do 6 (apply bind_Ok in Hv as (? & ? & [= <- <-] & Hv)).
  injection Hv as <-.
  assert (Sa : scopes ca = scopes c).
  { unfold ca, c0, set_level. cbn [scopes]. by rewrite scopes_write_lines. }
  assert (La : level ca = (level c + 1)%Z).
  { unfold ca, c0, set_level. cbn [level]. by rewrite ?level_write_lines. }
  assert (Oa : output ca = output c ++ indent c ["// " +:+ n_line i]).
  { unfold ca, c0, set_level. cbn [output]. by rewrite output_write_lines. }
  rewrite (get_scope_ext c ca) in Hs, He by done.
  assert (W1 : wrote ca c1 (start_teal ++ ["dup"] ++ [start_label +:+ ":"]
                            ++ end_teal ++ ["=="] ++ ["bnz " +:+ end_label])).
  { unfold c1. do 5 (eapply wrote_trans; [apply wrote_write|]).
    apply wrote_write. }
  destruct W1 as (O1 & _ & L1 & _).
  exists t1, start_teal, t2, end_teal, c1, c2.
  split; [done|]. split; [done|].
  split; [by rewrite L1|]. split.
  - rewrite O1, Oa, <- !app_assoc. f_equal. f_equal.
    by rewrite (indent_ext ca c1 _ L1).
  - split; [done|]. unfold set_level. cbn [output].
    match goal with |- output ?cz = _ => assert (W2 : wrote c2 cz
      (["pushint 1"] ++ ["+"] ++ ["dup"] ++ ["b " +:+ start_label]
       ++ ["pop"] ++ [end_label +:+ ": // end"])) end.
    { do 5 (eapply wrote_trans; [apply wrote_write|]). apply wrote_write. }
    by destruct W2 as (-> & _).
Qed.

(** Every loop with the anonymous counter that is visited with success has
    written [pop] between the jump to the start label and the end label,
    where no instruction reaches it. *)
Lemma anonymous_loop_emits i start stop idx start_label end_label ns c c' :
  visit (ForStatement i "_" start stop idx start_label end_label ns) c = (Ok tt, c') →
  implicit_counter_emits visit i start stop start_label end_label ns c c'.
Proof. apply visit_implicit_counter_emits. Qed.
End ImplicitCounter.



Section Examples.
#[local] Existing Instance Toy.engine.
Import Demo.

(** C1: the loop [for _ in 0:2:] with an empty body.  Run on any stack,
    the emitted code ends with the counter on top of it: the [pop] stands
    before the end label, behind the jump to the start label, and the exit
    of the loop jumps over it. *)
Theorem anonymous_loop_leaks_counter :
  compile_lines 100 anonymous_loop = Ok anonymous_loop_teal
  ∧ Avm.exec 100 anonymous_loop_teal [] = Some [2]
  ∧ Avm.exec 100 anonymous_loop_teal [7; 8] = Some [2; 7; 8].
Proof. repeat split; vm_compute; reflexivity. Qed.

(** The loop with a named counter leaves the stack as it was. *)
Lemma named_loop_is_neutral :
  ∃ out, compile_lines 100 named_loop = Ok out
         ∧ Avm.exec 100 out [] = Some []
         ∧ Avm.exec 100 out [7; 8] = Some [7; 8].
Proof. eexists. split; [vm_compute; reflexivity|]. split; vm_compute; reflexivity. Qed.

(** C2: an index out of sequence in a field block raises [ParseError]
    during the generation pass, where [compile_program] catches
    [CompileError] only: the exception leaves the function, nothing is
    printed and there is no exit status. *)
Theorem generation_ParseError_escapes :
  run bad_index
  = Uncaught (ParseError "Inccorrect field array index 1 (expected 0) at line 3!") [].
Proof. vm_compute. reflexivity. Qed.

(** C6: the block [b] inside the block [a] and the block [a__b] get the
    same label; the program compiles, and its output defines [a__b:] twice
    and jumps to it. *)
Theorem colliding_labels :
  ∃ out, compile_lines 100 colliding_blocks = Ok out
         ∧ out = ["// block a"; "a:"; "  // block b"; "  a__b:"; "// block a__b";
                  "a__b:"; "// jump a__b"; "b a__b"]
         ∧ length (filter (fun l => PyStr.strip l = "a__b:") out) = 2
         ∧ is_Returned (run colliding_blocks) = true.
Proof.
  eexists. split; [vm_compute; reflexivity|]. split; [reflexivity|].
  split; vm_compute; reflexivity.
Qed.


(** The field block of [field_block]: the fields without an index first,
    then the array field by ascending index; the comment line leaves no
    trace. *)
Lemma field_block_output :
  compile_lines 100 field_block
  = Ok ["// "; "itxn_begin"; "// inner_txn:"; "pushint 0"; "itxn_field Fee";
        "pushint 2"; "itxn_field Type"; "pushint 1"; "itxn_field Accounts";
        "pushint 3"; "itxn_field Accounts"; "itxn_submit"]
  ∧ compile_lines 100 (filter (fun l => is_comment l = false) field_block)
    = compile_lines 100 field_block.
Proof. split; vm_compute; reflexivity. Qed.

(** The [switch] of [switch_block]: the subject is emitted again for each
    option. *)
Lemma switch_block_output :
  compile_lines 100 switch_block
  = Ok ["// switch 1:"; "pushint 1"; "pushint 1"; "=="; "bnz a";
        "pushint 1"; "pushint 2"; "=="; "bnz b"; "b a // else";
        "// block a"; "a:"; "// block b"; "b:"].
Proof. vm_compute. reflexivity. Qed.

(** A jump and a call before the block and the subroutine; an assignment
    and a declaration before the declaration of the variable. *)
Lemma forward_program_output :
  compile_lines 100 forward_program
  = Ok ["// jump later"; "b later"; "// int y = f() [slot 0]";
        "callsub __func__f"; "store 0 // y"; "// block later"; "later:";
        "  // exit(1)"; "  pushint 1"; "  return"; "// func f() int:";
        "__func__f:"; "// return 1"; "pushint 1"; "retsub"]
  ∧ run ["x = 1"; "int x = 2"]
    = Exited 1 ["Var " +:+ PyStr.quoted "x"
                +:+ " not declared in current scope at line 1"]
  ∧ run ["int y = x"; "int x = 2"]
    = Exited 1 ["Var " +:+ PyStr.quoted "x"
                +:+ " not declared in current scope at line 1"]
  ∧ run ["int x = 2"; "int x = 3"]
    = Exited 1 ["Redefinition of variable " +:+ PyStr.quoted "x" +:+ " at line 2"].
Proof. repeat split; vm_compute; reflexivity. Qed.
End Examples.


(** A pair is known by its first component and itself. *)
Lemma pair_fst {A B} (x : A * B) (a : A) : x.1 = a → x = (a, x.2).
Proof. destruct x. simpl. by intros ->. Qed.

(** The theorems at work on the programs of [Demo]. *)
Section Instances.
#[local] Existing Instance Toy.engine.
Import Demo.

(** The field block of [field_block] is visited with success; the one of
    [bad_index], whose first index is 1, is not. *)
Lemma InnerTxn_visit_order_witness :
  InnerTxn_emits field_node.1 field_node.2 (state_of field_block)
                 (InnerTxn_visit field_node.1 field_node.2 (state_of field_block)).2
  ∧ (InnerTxn_visit bad_node.1 bad_node.2 (state_of bad_index)).1 ≠ Ok tt.
Proof.
  split.
  - apply (proj1 (InnerTxn_visit_order _ _ _)). apply pair_fst.
    vm_compute. reflexivity.
  - apply (proj2 (InnerTxn_visit_order _ _ _)). vm_compute. reflexivity.
Defined.





(** The second line of [field_block] is a comment. *)
Lemma InnerTxn_comment_discarded_witness :
  InnerTxn_children 11 0 [] (set_line_no 1 (start_of field_block))
  = InnerTxn_children 10 0 [] (set_line_no 2 (start_of field_block))
  ∧ output (set_line_no 2 (start_of field_block)) = output (start_of field_block).
Proof.
  apply (proj1 (InnerTxn_comment_discarded 10 0 [] (set_line_no 1 (start_of field_block)))
           "# fee first"); reflexivity.
Defined.

(** A first call of [write]. *)
Lemma write_keeps_source_map_witness :
  source_map_inv (compiler_write ["int 1"; "return"] 1 (TealishCompiler_init [])).2.
Proof. apply (proj1 write_keeps_source_map). apply init_inv. Defined.
End Instances.

